(** * Money-muling detector: a shallow embedding of [detector.py]

    The development follows the source file top to bottom: the data
    classes, [build_graph], the three pattern detectors, [combine_scores],
    [assign_ring_ids] and [detect_all_patterns].

    Conventions.
    - Account identifiers are strings; a [datetime] is an integer number of
      microseconds ([Z]); a [timedelta] is a difference of two of them.
    - [nx.DiGraph] keeps its nodes and its adjacency in insertion-ordered
      dictionaries.  It is modelled by the list of nodes in insertion order
      and the list of edges in the order in which each ordered pair was
      first inserted; the views ([in_edges], [out_edges], [edges]) are
      derived from these two lists exactly as networkx iterates them.
    - Ring scores are Python integers ([Z]).  Account scores are Python
      floats; they are modelled by exact rationals ([Q]).  The statements
      proved about them only use sign and monotonicity facts.
    - A Python [set] of strings is a [gset string]; iterating it or turning
      it into a list is [elements], whose order is not the insertion order.
    - A Python [dict] keyed by account id whose values carry that id is a
      list of values in insertion order. *)

From Stdlib Require Import Ascii String QArith Qround Qminmax Lqa.
From stdpp Require Import base list gmap strings sorting pretty.

Local Open Scope string_scope.
Local Open Scope list_scope.
Local Open Scope Z_scope.

(** ** Data model *)

(** One row of the input data frame, after the coercions of [build_graph]
    ([str], [float], [_parse_timestamp]). *)
Record Transaction := mkTransaction {
  transaction_id : string;
  sender_id : string;
  receiver_id : string;
  amount : Q;
  timestamp : Z
}.

(** Attribute dictionary of an edge. *)
Record EdgeAttr := mkEdgeAttr {
  attr_transaction_id : string;
  attr_amount : Q;
  attr_timestamp : Z
}.

Abbreviation Edge := (string * string * EdgeAttr)%type.

Definition edge_source (e : Edge) : string := e.1.1.
Definition edge_target (e : Edge) : string := e.1.2.
Definition edge_attr (e : Edge) : EdgeAttr := e.2.
Definition edge_key (e : Edge) : string * string := e.1.

Record DiGraph := mkDiGraph {
  nodes : list string;
  adj : list Edge
}.

Definition empty_graph : DiGraph := mkDiGraph [] [].

Inductive PatternType :=
| cycle
| smurfing_fan_in
| smurfing_fan_out
| shell_chain.

Global Instance PatternType_eq_dec : EqDecision PatternType.
Proof. solve_decision. Defined.

(** The [details] dictionary of a ring, one shape per pattern. *)
Inductive Details :=
| DetailsCycle (length : Z)
| DetailsFanIn (receiver : string) (cluster_size : Z)
| DetailsFanOut (sender : string) (cluster_size : Z)
| DetailsShell (path intermediates : list string).

(** The f-strings appended to [reasons], kept structured. *)
Inductive Reason :=
| HighDegreeCentrality (cent : Q)
| FanInReceiverFrom (cluster_size : Z)
| FanInSender
| FanOutSenderTo (cluster_size : Z)
| FanOutReceiver
| ShellIntermediary
| ShellOriginator
| ShellDestination
| MemberOfRing (p : PatternType).

Module AccountScore.
Record t := mk {
  account_id : string;
  risk_score : Q;
  reasons : list Reason
}.
End AccountScore.

Module FraudRing.
Record t := mk {
  ring_id : string;
  members : list string;
  pattern_type : PatternType;
  risk_score : Z;
  details : Details
}.
Definition with_ring_id (s : string) (r : t) : t :=
  mk s (members r) (pattern_type r) (risk_score r) (details r).
End FraudRing.

(** ** networkx views used by the detector *)

Definition add_node (n : string) (g : DiGraph) : DiGraph :=
  if decide (n ∈ nodes g) then g else mkDiGraph (nodes g ++ [n]) (adj g).

(** [datadict.update(attr)] on the entry of [(u, v)]: an existing entry
    keeps its position and takes the new attributes. *)
Fixpoint set_edge (u v : string) (d : EdgeAttr) (es : list Edge) : list Edge :=
  match es with
  | [] => [(u, v, d)]
  | e :: es' =>
      if decide (edge_key e = (u, v)) then (u, v, d) :: es'
      else e :: set_edge u v d es'
  end.

Definition add_edge (u v : string) (d : EdgeAttr) (g : DiGraph) : DiGraph :=
  let g' := add_node v (add_node u g) in
  mkDiGraph (nodes g') (set_edge u v d (adj g')).

Definition in_edges (g : DiGraph) (n : string) : list Edge :=
  filter (λ e, edge_target e = n) (adj g).

Definition out_edges (g : DiGraph) (n : string) : list Edge :=
  filter (λ e, edge_source e = n) (adj g).

Definition in_degree (g : DiGraph) (n : string) : Z :=
  Z.of_nat (length (in_edges g n)).

Definition out_degree (g : DiGraph) (n : string) : Z :=
  Z.of_nat (length (out_edges g n)).

(** [g.edges(data=True)]: for every node in node order, its out-edges. *)
Definition edges (g : DiGraph) : list Edge :=
  flat_map (out_edges g) (nodes g).

(** [len(G)] *)
Definition order (g : DiGraph) : Z := Z.of_nat (length (nodes g)).

(** [nx.degree_centrality]:
    [if len(G) <= 1: return {n: 1 for n in G}]
    [s = 1.0 / (len(G) - 1.0)]
    [return {n: d * s for n, d in G.degree()}]
    where the degree of a node of a directed graph is in-degree plus
    out-degree. *)
Definition degree_centrality (g : DiGraph) : list (string * Q) :=
  if order g <=? 1 then (λ n, (n, 1%Q)) <$> nodes g
  else
    let s := (1 / (inject_Z (order g) - 1))%Q in
    (λ n, (n, (inject_Z (in_degree g n + out_degree g n) * s)%Q)) <$> nodes g.

(** ** build_graph *)

Definition row_attr (row : Transaction) : EdgeAttr :=
  mkEdgeAttr (transaction_id row) (amount row) (timestamp row).

Definition build_graph_row (g : DiGraph) (row : Transaction) : DiGraph :=
  let sender := sender_id row in
  let receiver := receiver_id row in
  let g := add_node sender g in
  let g := add_node receiver g in
  add_edge sender receiver (row_attr row) g.

Definition build_graph (df : list Transaction) : DiGraph :=
  fold_left build_graph_row df empty_graph.

(** ** detect_cycles *)

(** Comparison of Python tuples of strings: lexicographic, strings by code
    point. *)
Definition tuple_lt (a b : list string) : bool :=
  match list_compare String.compare a b with
  | Lt => true
  | _ => false
  end.

(** [tuple(cycle[i:] + cycle[:i])] *)
Definition rotated (c : list string) (i : nat) : list string :=
  drop i c ++ take i c.

Definition rotated_variants (c : list string) : list (list string) :=
  rotated c <$> seq 0 (length c).

(** [min]: the first element that no later element is strictly below. *)
Fixpoint min_from (best : list string) (l : list (list string)) : list string :=
  match l with
  | [] => best
  | x :: l' => min_from (if tuple_lt x best then x else best) l'
  end.

(** [min(rotated_variants)].  Python raises on an empty sequence, which
    needs an empty cycle; the enumerator yields none, and the length guard
    of [detect_cycles] excludes it for [min_len >= 1]. *)
Definition tuple_min (l : list (list string)) : list string :=
  match l with
  | [] => []
  | x :: l' => min_from x l'
  end.

Definition canonical_key (c : list string) : list string :=
  tuple_min (rotated_variants c).

Definition cycle_ring (min_len : Z) (c : list string) : FraudRing.t :=
  let len := Z.of_nat (length c) in
  FraudRing.mk "" c cycle (60 + (len - min_len) * 5) (DetailsCycle len).

Definition detect_cycles_step (min_len max_len : Z)
    (st : list FraudRing.t * gset (list string)) (c : list string)
    : list FraudRing.t * gset (list string) :=
  let len := Z.of_nat (length c) in
  if bool_decide (min_len ≤ len ∧ len ≤ max_len) then
    let key := canonical_key c in
    if decide (key ∈ st.2) then st
    else (st.1 ++ [cycle_ring min_len c], {[key]} ∪ st.2)
  else st.

(** The body of [detect_cycles] over the sequence of cycles that
    [nx.simple_cycles(g)] yields. *)
Definition detect_cycles_of (min_len max_len : Z) (cycles : list (list string))
    : list FraudRing.t :=
  (fold_left (detect_cycles_step min_len max_len) cycles ([], ∅)).1.

(** ** detect_smurfing *)

(** The local helper [ensure] of [combine_scores], which is also the first
    statement of both [add_reason] helpers. *)
Definition ensure (acc_id : string) (accounts : list AccountScore.t)
    : list AccountScore.t :=
  if decide (acc_id ∈ (AccountScore.account_id <$> accounts)) then accounts
  else accounts ++ [AccountScore.mk acc_id 0 []].

(** [acc = ensure(acc_id); acc.risk_score += score; acc.reasons.extend(rs)] *)
Definition credit (acc_id : string) (score : Q) (rs : list Reason)
    (accounts : list AccountScore.t) : list AccountScore.t :=
  (λ acc,
     if decide (AccountScore.account_id acc = acc_id)
     then AccountScore.mk acc_id
            (AccountScore.risk_score acc + score)%Q
            (AccountScore.reasons acc ++ rs)
     else acc) <$> ensure acc_id accounts.

Definition add_reason (acc_id : string) (score : Q) (reason : Reason)
    (account_scores : list AccountScore.t) : list AccountScore.t :=
  credit acc_id score [reason] account_scores.

(** The inner [while]: [rest] is [timestamps[j:]]. *)
Fixpoint advance (window ti : Z) (rest : list Z) (j : nat) : nat :=
  match rest with
  | [] => j
  | tj :: rest' =>
      if bool_decide (tj - ti ≤ window) then advance window ti rest' (S j)
      else j
  end.

(** The outer [while]: [from_i] is [timestamps[i:]]; the result is the pair
    [(i, j)] at the [break], or [None] when the loop runs to its end. *)
Fixpoint scan (fan_threshold window : Z) (timestamps from_i : list Z)
    (i j : nat) : option (nat * nat) :=
  match from_i with
  | [] => None
  | ti :: from_i' =>
      let j := advance window ti (drop j timestamps) j in
      let cluster_size := Z.of_nat j - Z.of_nat i in
      if bool_decide (fan_threshold ≤ cluster_size) then Some (i, j)
      else scan fan_threshold window timestamps from_i' (S i) j
  end.

Definition sliding_window (fan_threshold window : Z) (timestamps : list Z)
    : option (nat * nat) :=
  scan fan_threshold window timestamps timestamps 0 0.

Definition edge_timestamps (es : list Edge) : list Z :=
  (λ e, attr_timestamp (edge_attr e)) <$> es.

(** [incoming[k]] for [k in range(i, j)] *)
Definition index_range {A} (l : list A) (i j : nat) : list A :=
  take (j - i) (drop i l).

Abbreviation SmurfState := (list FraudRing.t * list AccountScore.t)%type.

(** One iteration of a smurfing pass.  The source writes the loop twice,
    for fan-in and for fan-out, with the roles swapped: [view] is
    [g.in_edges] or [g.out_edges], [side] selects the counterparty of an
    edge ([edge_source] or [edge_target]), and the pattern, the details
    and the reasons differ.  Note that the window [(i, j)] is found on the
    sorted timestamps while [index_range] reads the edges in the order of
    the view, as the source does. *)
Definition smurf_node (fan_threshold window : Z)
    (view : string → list Edge) (side : Edge → string)
    (pattern : PatternType) (mk_details : string → Z → Details)
    (hub_reason : Z → Reason) (party_reason : Reason)
    (st : SmurfState) (node : string) : SmurfState :=
  let edges_of_node := view node in
  if bool_decide (fan_threshold ≤ Z.of_nat (length edges_of_node)) then
    let timestamps := merge_sort Z.le (edge_timestamps edges_of_node) in
    match sliding_window fan_threshold window timestamps with
    | Some (i, j) =>
        let cluster_size := Z.of_nat j - Z.of_nat i in
        let parties : gset string :=
          list_to_set (side <$> index_range edges_of_node i j) in
        let members := elements (parties ∪ {[node]}) in
        let score := 70 + (cluster_size - fan_threshold) * 2 in
        let rings :=
          st.1 ++ [FraudRing.mk "" members pattern score
                     (mk_details node cluster_size)] in
        let scores :=
          add_reason node (inject_Z score * 0.6)%Q (hub_reason cluster_size)
            st.2 in
        let scores :=
          fold_left
            (λ sc s, add_reason s (inject_Z score * 0.2)%Q party_reason sc)
            (elements parties) scores in
        (rings, scores)
    | None => st
    end
  else st.

Definition fan_in_node (fan_threshold window : Z) (g : DiGraph) :=
  smurf_node fan_threshold window (in_edges g) edge_source
    smurfing_fan_in DetailsFanIn FanInReceiverFrom FanInSender.

Definition fan_out_node (fan_threshold window : Z) (g : DiGraph) :=
  smurf_node fan_threshold window (out_edges g) edge_target
    smurfing_fan_out DetailsFanOut FanOutSenderTo FanOutReceiver.

(** [timedelta(hours=window_hours)] in microseconds *)
Definition timedelta_hours (h : Z) : Z := h * 3600 * 1000000.

Definition detect_smurfing_with (fan_threshold window_hours : Z) (g : DiGraph)
    : SmurfState :=
  let window := timedelta_hours window_hours in
  let st := fold_left (fan_in_node fan_threshold window g) (nodes g) ([], []) in
  fold_left (fan_out_node fan_threshold window g) (nodes g) st.

Definition detect_smurfing (g : DiGraph) : SmurfState :=
  detect_smurfing_with 10 72 g.

(** ** detect_shell_chains *)

Record ShellState := mkShellState {
  shell_rings : list FraudRing.t;
  shell_scores : list AccountScore.t;
  visited_paths : gset (list string)
}.

Definition activity (g : DiGraph) (n : string) : Z :=
  in_degree g n + out_degree g n.

Definition low_activity_nodes (low_activity_threshold : Z) (g : DiGraph)
    : gset string :=
  list_to_set (filter (λ n, activity g n ≤ low_activity_threshold) (nodes g)).

(** [path[1:-1]] *)
Definition interior (path : list string) : list string :=
  take (length path - 2) (drop 1 path).

(** [list(dict.fromkeys(path))] *)
Definition dict_fromkeys (path : list string) : list string :=
  fold_left (λ acc x, if decide (x ∈ acc) then acc else acc ++ [x]) path [].

(** [path[0]] and [path[-1]]; a path on the stack is never empty. *)
Definition path_first (path : list string) : string := default "" (head path).
Definition path_last (path : list string) : string := default "" (last path).

Definition shell_emit (path : list string) (st : ShellState) : ShellState :=
  let intermediates := interior path in
  let score := 50 + (Z.of_nat (length intermediates) - 1) * 5 in
  let ring :=
    FraudRing.mk "" (dict_fromkeys path) shell_chain score
      (DetailsShell path intermediates) in
  let scores :=
    fold_left
      (λ sc mid, add_reason mid (inject_Z score * 0.4)%Q ShellIntermediary sc)
      intermediates (shell_scores st) in
  let scores :=
    add_reason (path_first path) (inject_Z score * 0.2)%Q ShellOriginator
      scores in
  let scores :=
    add_reason (path_last path) (inject_Z score * 0.2)%Q ShellDestination
      scores in
  mkShellState (shell_rings st ++ [ring]) scores ({[path]} ∪ visited_paths st).

(** The part of the loop body between the hop bound and the expansion of
    the neighbours. *)
Definition shell_visit (min_hops : Z) (low : gset string)
    (path : list string) (st : ShellState) : ShellState :=
  let len := Z.of_nat (length path) in
  if bool_decide (min_hops ≤ len - 1 ∧ 2 < len) then
    let intermediates := interior path in
    if bool_decide (intermediates ≠ [] ∧ Forall (λ node, node ∈ low) intermediates)
    then
      if decide (path ∈ visited_paths st) then st else shell_emit path st
    else st
  else st.

(** The DFS stack, top first: [stack.append] is a cons, [stack.pop()]
    takes the head. *)
Abbreviation Stack := (list (string * list string)).

(** [for _, neigh in g.out_edges(current): if neigh not in path:
      stack.append((neigh, path + [str(neigh)]))] *)
Definition shell_push (g : DiGraph) (current : string) (path : list string)
    (stack : Stack) : Stack :=
  fold_left
    (λ stk e,
       let neigh := edge_target e in
       if decide (neigh ∈ path) then stk else (neigh, path ++ [neigh]) :: stk)
    (out_edges g current) stack.

(** One iteration of [while stack:]; [None] when the stack is empty. *)
Definition shell_step (min_hops max_hops : Z) (low : gset string) (g : DiGraph)
    (cfg : Stack * ShellState) : option (Stack * ShellState) :=
  match cfg.1 with
  | [] => None
  | (current, path) :: stack =>
      if bool_decide (max_hops < Z.of_nat (length path) - 1)
      then Some (stack, cfg.2)
      else Some (shell_push g current path stack,
                 shell_visit min_hops low path cfg.2)
  end.

(** The [while] loop started on a stack whose top is [(current, path)],
    up to the moment that entry and everything pushed above it have been
    popped: the entry is visited, then the entries it pushes are handled
    one after the other, last pushed first.  [k] bounds the remaining
    depth; the hop bound makes [max_hops + 2] enough for a path of one
    node.  Lemmas [shell_dfs_run] and [shell_loop_terminates] relate this
    function to the iteration of [shell_step]. *)
Fixpoint shell_dfs (min_hops max_hops : Z) (low : gset string) (g : DiGraph)
    (k : nat) (current : string) (path : list string) (st : ShellState)
    : ShellState :=
  match k with
  | O => st
  | S k' =>
      if bool_decide (max_hops < Z.of_nat (length path) - 1) then st
      else
        fold_left
          (λ st entry, shell_dfs min_hops max_hops low g k' entry.1 entry.2 st)
          (shell_push g current path [])
          (shell_visit min_hops low path st)
  end.

Definition detect_shell_chains_with (min_hops max_hops low_activity_threshold : Z)
    (g : DiGraph) : list FraudRing.t * list AccountScore.t :=
  let low := low_activity_nodes low_activity_threshold g in
  let st :=
    fold_left
      (λ st start,
         shell_dfs min_hops max_hops low g (Z.to_nat (max_hops + 2))
           start [start] st)
      (nodes g) (mkShellState [] [] ∅) in
  (shell_rings st, shell_scores st).

Definition detect_shell_chains (g : DiGraph)
    : list FraudRing.t * list AccountScore.t :=
  detect_shell_chains_with 3 6 3 g.

(** ** combine_scores *)

(** [sorted(xs, key=..., reverse=True)]: the stable sort into descending
    key order (equal keys keep their input order).  [lt a b] is [a < b]
    on the keys. *)
Fixpoint insert_desc {A} (lt : A → A → bool) (x : A) (l : list A) : list A :=
  match l with
  | [] => [x]
  | y :: l' => if lt x y then y :: insert_desc lt x l' else x :: y :: l'
  end.

Definition sorted_desc {A} (lt : A → A → bool) (l : list A) : list A :=
  foldr (insert_desc lt) [] l.

Definition Qltb (a b : Q) : bool := negb (Qle_bool b a).

(** [round(x, 2)]: to the nearest multiple of 1/100, ties to even. *)
Definition round_half_even (q : Q) : Z :=
  let f := Qfloor q in
  match (q - inject_Z f ?= 1 # 2)%Q with
  | Lt => f
  | Gt => f + 1
  | Eq => if Z.even f then f else f + 1
  end.

Definition round2 (q : Q) : Q := (inject_Z (round_half_even (q * 100)) / 100)%Q.

(** The first loop: the base score from degree centrality.  The guard
    [len(graph) > 0] only sets the empty graph apart. *)
Definition centrality_pass (g : DiGraph) (combined : list AccountScore.t)
    : list AccountScore.t :=
  let degree_centrality :=
    if bool_decide (0 < order g) then degree_centrality g else [] in
  fold_left
    (λ combined item,
       let cent : Q := item.2 in
       credit item.1 (cent * 20)%Q
         (if Qltb 0 cent then [HighDegreeCentrality cent] else []) combined)
    degree_centrality combined.

(** The second loop: the evidence maps of the detectors. *)
Definition pattern_pass (pattern_scores : list (list AccountScore.t))
    (combined : list AccountScore.t) : list AccountScore.t :=
  fold_left
    (λ combined pattern_score,
       fold_left
         (λ combined acc_score,
            credit (AccountScore.account_id acc_score)
              (AccountScore.risk_score acc_score)
              (AccountScore.reasons acc_score) combined)
         pattern_score combined)
    pattern_scores combined.

(** The third loop: the ring membership boosts. *)
Definition ring_pass (rings : list FraudRing.t)
    (combined : list AccountScore.t) : list AccountScore.t :=
  fold_left
    (λ combined ring,
       fold_left
         (λ combined member,
            credit member (inject_Z (FraudRing.risk_score ring) * 0.3)%Q
              [MemberOfRing (FraudRing.pattern_type ring)] combined)
         (FraudRing.members ring) combined)
    rings combined.

(** [max(acc.risk_score for acc in combined.values())] on a non-empty
    dictionary. *)
Definition max_risk (first : AccountScore.t) (others : list AccountScore.t) : Q :=
  fold_left
    (λ best acc,
       if Qltb best (AccountScore.risk_score acc)
       then AccountScore.risk_score acc else best)
    others (AccountScore.risk_score first).

(** [acc.risk_score = round(min(100.0, (acc.risk_score / max_score) * 100.0), 2)] *)
Definition rescale (max_score : Q) (acc : AccountScore.t) : AccountScore.t :=
  AccountScore.mk (AccountScore.account_id acc)
    (round2 (Qmin 100 (AccountScore.risk_score acc / max_score * 100)))
    (AccountScore.reasons acc).

(** From [if not combined] to the end of [combine_scores]. *)
Definition normalize (combined : list AccountScore.t) : list AccountScore.t :=
  match combined with
  | [] => []
  | first :: others =>
      let max_score := max_risk first others in
      if Qle_bool max_score 0 then combined
      else
        sorted_desc
          (λ a b, Qltb (AccountScore.risk_score a) (AccountScore.risk_score b))
          (rescale max_score <$> combined)
  end.

Definition combine_scores (graph : DiGraph) (rings : list FraudRing.t)
    (pattern_scores : list (list AccountScore.t)) : list AccountScore.t :=
  normalize (ring_pass rings (pattern_pass pattern_scores (centrality_pass graph []))).

(** ** assign_ring_ids *)

(** [f"{i:04d}"] *)
Definition zero_pad (width : nat) (s : string) : string :=
  String.string_of_list_ascii (replicate (width - String.length s) "0"%char) +:+ s.

(** [f"R{i:04d}"] *)
Definition format_ring_id (i : nat) : string := "R" +:+ zero_pad 4 (pretty i).

(** The rings are objects shared between [rings] and the sorted copy; an
    object is identified by its position in [rings].  The ids are written
    through the sorted copy and [rings] itself is returned. *)
Definition ranked_positions (rings : list FraudRing.t) : list nat :=
  fst <$>
    sorted_desc
      (λ a b : nat * FraudRing.t,
         FraudRing.risk_score a.2 <? FraudRing.risk_score b.2)
      (imap pair rings).

Definition assign_ring_ids (rings : list FraudRing.t) : list FraudRing.t :=
  fold_left
    (λ rings item,
       alter (FraudRing.with_ring_id (format_ring_id item.1)) item.2 rings)
    (zip (seq 1 (length rings)) (ranked_positions rings)) rings.

(** ** A reference enumerator of simple cycles

    [nx.simple_cycles] yields every elementary circuit once, in an order
    that depends on the networkx version.  The detector is therefore
    parametrised by the enumerator; [dfs_simple_cycles] is the instance
    used to run it: every circuit is reported from its first node in node
    order. *)
Fixpoint cycles_from (fuel : nat) (g : DiGraph) (root : string)
    (allowed path : list string) (current : string) : list (list string) :=
  match fuel with
  | O => []
  | S fuel' =>
      let succs := edge_target <$> out_edges g current in
      (if decide (root ∈ succs) then [path] else []) ++
      flat_map
        (λ v,
           if decide (v ∈ allowed ∧ v ∉ path)
           then cycles_from fuel' g root allowed (path ++ [v]) v
           else [])
        succs
  end.

Fixpoint cycles_over (g : DiGraph) (roots : list string) : list (list string) :=
  match roots with
  | [] => []
  | root :: rest =>
      cycles_from (S (length rest)) g root rest [root] root ++ cycles_over g rest
  end.

Definition dfs_simple_cycles (g : DiGraph) : list (list string) :=
  cycles_over g (nodes g).

(** ** detect_all_patterns *)

Record NodeRecord := mkNodeRecord {
  node_id : string;
  node_risk_score : Q
}.

Record EdgeRecord := mkEdgeRecord {
  source : string;
  target : string;
  edge_transaction_id : string;
  edge_amount : Q;
  edge_timestamp : Z
}.

Record Document := mkDocument {
  graph_nodes : list NodeRecord;
  graph_edges : list EdgeRecord;
  accounts : list AccountScore.t;
  fraud_rings : list FraudRing.t
}.

Section Detector.

(** [nx.simple_cycles] *)
Variable simple_cycles : DiGraph → list (list string).

Definition detect_cycles (g : DiGraph) : list FraudRing.t :=
  detect_cycles_of 3 5 (simple_cycles g).

(** [next((a.risk_score for a in account_scores if a.account_id == n), 0.0)] *)
Definition node_record (account_scores : list AccountScore.t) (n : string)
    : NodeRecord :=
  mkNodeRecord n
    (default 0%Q
       (AccountScore.risk_score <$>
          head (filter (λ a, AccountScore.account_id a = n) account_scores))).

Definition edge_record (e : Edge) : EdgeRecord :=
  mkEdgeRecord (edge_source e) (edge_target e)
    (attr_transaction_id (edge_attr e)) (attr_amount (edge_attr e))
    (attr_timestamp (edge_attr e)).

Definition detect_all_patterns (df : list Transaction) : Document :=
  let g := build_graph df in
  let cycles := detect_cycles g in
  let '(smurf_rings, smurf_scores) := detect_smurfing g in
  let '(shell_rings, shell_scores) := detect_shell_chains g in
  let all_rings := cycles ++ smurf_rings ++ shell_rings in
  let all_rings := assign_ring_ids all_rings in
  let account_scores :=
    combine_scores g all_rings [smurf_scores; shell_scores] in
  mkDocument
    (node_record account_scores <$> nodes g)
    (edge_record <$> edges g)
    account_scores
    all_rings.

End Detector.

(** ** Batches used to run the model *)

Definition tx (id s r : string) (hour : Z) : Transaction :=
  mkTransaction id s r 100 (timedelta_hours hour).

(** Scenario S1: a triangle. *)
Definition triangle : list Transaction :=
  [tx "T1" "A" "B" 0; tx "T2" "B" "C" 1; tx "T3" "C" "A" 2].

(** Scenario S2: [n] senders to one hub, one transfer a minute. *)
Definition burst_row (i : nat) : Transaction :=
  mkTransaction ("T" +:+ pretty i) ("S" +:+ pretty i) "H" 100
    (Z.of_nat i * 60 * 1000000).

Definition fan_in_burst (n : nat) : list Transaction :=
  burst_row <$> seq 1 n.

(** A chain of five transfers. *)
Definition chain5 : list Transaction :=
  [tx "T1" "P0" "P1" 0; tx "T2" "P1" "P2" 1; tx "T3" "P2" "P3" 2;
   tx "T4" "P3" "P4" 3; tx "T5" "P4" "P5" 4].

(** ** Vocabulary of the statements *)

Definition row_key (row : Transaction) : string * string :=
  (sender_id row, receiver_id row).

Definition find_attr (u v : string) (es : list Edge) : option EdgeAttr :=
  (λ p, edge_attr p.2) <$> list_find (λ e, edge_key e = (u, v)) es.

(** What [build_graph] maintains: nodes and ordered pairs are not
    repeated, and edges join nodes. *)
Record wf_graph (g : DiGraph) : Prop := mk_wf_graph {
  wf_nodes : NoDup (nodes g);
  wf_keys : NoDup (edge_key <$> adj g);
  wf_ends : ∀ e, e ∈ adj g → edge_source e ∈ nodes g ∧ edge_target e ∈ nodes g
}.

(** Two transactions over the same ordered pair. *)
Definition parallel_pair : list Transaction :=
  [tx "T1" "A" "B" 0; tx "T2" "A" "B" 1].

Definition record_key (r : EdgeRecord) : string * string := (source r, target r).

(** [c2] is [c1[i:] + c1[:i]] for some [i]. *)
Definition is_rotation (c1 c2 : list string) : Prop :=
  ∃ i, c2 = rotated c1 i.

(** [r'] is the object [r] after [ring.ring_id = ...]. *)
Definition relabelled (r r' : FraudRing.t) : Prop :=
  r' = FraudRing.with_ring_id (FraudRing.ring_id r') r.

(** [[i, j)] is the window of [timestamps] that starts at index [i]: it
    holds the indices from [i] on whose timestamp is within [window] of
    the one at [i], and stops at the first one that is not. *)
Definition is_window (window : Z) (timestamps : list Z) (i j : nat) : Prop :=
  ∃ ti, timestamps !! i = Some ti ∧
        (i ≤ j ≤ length timestamps)%nat ∧
        (∀ k tk, (i ≤ k < j)%nat → timestamps !! k = Some tk → tk - ti ≤ window) ∧
        (∀ tj, timestamps !! j = Some tj → window < tj - ti).

(** [[i, j)] is the window of the first start index whose cluster size
    reaches the threshold. *)
Definition first_window (fan_threshold window : Z) (timestamps : list Z)
    (i j : nat) : Prop :=
  is_window window timestamps i j ∧
  fan_threshold ≤ Z.of_nat j - Z.of_nat i ∧
  ∀ i' j', (i' < i)%nat → is_window window timestamps i' j' →
           Z.of_nat j' - Z.of_nat i' < fan_threshold.

(** The ring that one iteration of a smurfing pass appends, if any. *)
Definition smurf_ring (fan_threshold window : Z)
    (view : string → list Edge) (side : Edge → string)
    (pattern : PatternType) (mk_details : string → Z → Details)
    (node : string) : option FraudRing.t :=
  let edges_of_node := view node in
  if bool_decide (fan_threshold ≤ Z.of_nat (length edges_of_node)) then
    match sliding_window fan_threshold window
            (merge_sort Z.le (edge_timestamps edges_of_node)) with
    | Some (i, j) =>
        let cluster_size := Z.of_nat j - Z.of_nat i in
        Some (FraudRing.mk ""
                (elements (list_to_set (side <$> index_range edges_of_node i j)
                           ∪ ({[node]} : gset string)))
                pattern (70 + (cluster_size - fan_threshold) * 2)
                (mk_details node cluster_size))
    | None => None
    end
  else None.

Definition fan_in_ring (g : DiGraph) : string → option FraudRing.t :=
  smurf_ring 10 (timedelta_hours 72) (in_edges g) edge_source
    smurfing_fan_in DetailsFanIn.

Definition fan_out_ring (g : DiGraph) : string → option FraudRing.t :=
  smurf_ring 10 (timedelta_hours 72) (out_edges g) edge_target
    smurfing_fan_out DetailsFanOut.

Definition sorted_timestamps (es : list Edge) : list Z :=
  merge_sort Z.le (edge_timestamps es).

(** The hub of a smurfing ring: the pass that emitted it and its node. *)
Definition ring_hub (r : FraudRing.t) : option (PatternType * string) :=
  match FraudRing.details r with
  | DetailsFanIn n _ => Some (smurfing_fan_in, n)
  | DetailsFanOut n _ => Some (smurfing_fan_out, n)
  | _ => None
  end.

(** Evidence and rings as [combine_scores] receives them: contributions
    are not negative and only name accounts that satisfy [S]. *)
Definition score_ok (S : string → Prop) (a : AccountScore.t) : Prop :=
  (0 <= AccountScore.risk_score a)%Q ∧ S (AccountScore.account_id a).

Definition ring_ok (S : string → Prop) (r : FraudRing.t) : Prop :=
  0 ≤ FraudRing.risk_score r ∧ Forall S (FraudRing.members r).

(** Shape of a ring emitted by [detect_shell_chains]. *)
Definition shell_ring_shape (low : gset string) (r : FraudRing.t) : Prop :=
  FraudRing.pattern_type r = shell_chain ∧
  ∃ path,
    FraudRing.details r = DetailsShell path (interior path) ∧
    FraudRing.members r = dict_fromkeys path ∧
    interior path ≠ [] ∧
    Forall (λ n, n ∈ low) (interior path) ∧
    FraudRing.risk_score r = 50 + (Z.of_nat (length (interior path)) - 1) * 5.

(** One iteration of the [while stack:] loop, as a relation. *)
Definition shell_steps (min_hops max_hops : Z) (low : gset string) (g : DiGraph)
    : relation (Stack * ShellState) :=
  rtc (λ cfg cfg', shell_step min_hops max_hops low g cfg = Some cfg').

(** The value that [nx.degree_centrality] gives to a node. *)
Definition centrality (g : DiGraph) (n : string) : Q :=
  if order g <=? 1 then 1%Q
  else (inject_Z (in_degree g n + out_degree g n)
        * (1 / (inject_Z (order g) - 1)))%Q.

Definition in_range (a : AccountScore.t) : Prop :=
  (0 <= AccountScore.risk_score a)%Q ∧ (AccountScore.risk_score a <= 100)%Q.

Definition account_ids (l : list AccountScore.t) : list string :=
  AccountScore.account_id <$> l.

(** A single account that pays itself. *)
Definition self_transfer : list Transaction := [tx "T1" "A" "A" 0].

(** The rings in detection order, before the ids are assigned. *)
Definition all_rings (simple_cycles : DiGraph → list (list string)) (g : DiGraph)
    : list FraudRing.t :=
  detect_cycles simple_cycles g ++ (detect_smurfing g).1 ++ (detect_shell_chains g).1.


(** The sorted copy made by [assign_ring_ids], each ring with its position
    in [rings]. *)
Definition ranked (rings : list FraudRing.t) : list (nat * FraudRing.t) :=
  sorted_desc
    (λ a b : nat * FraudRing.t,
       FraudRing.risk_score a.2 <? FraudRing.risk_score b.2)
    (imap pair rings).

(** One iteration of the loop of [assign_ring_ids]. *)
Definition relabel_step (rings : list FraudRing.t) (item : nat * nat)
    : list FraudRing.t :=
  alter (FraudRing.with_ring_id (format_ring_id item.1)) item.2 rings.


(** Eleven senders to one hub.  The sender inserted first transacts long
    after the ten others, which all fall within nine hours. *)
Definition fanin_late_first : list Transaction :=
  [tx "T01" "S01" "H" 1000; tx "T02" "S02" "H" 0; tx "T03" "S03" "H" 1;
   tx "T04" "S04" "H" 2; tx "T05" "S05" "H" 3; tx "T06" "S06" "H" 4;
   tx "T07" "S07" "H" 5; tx "T08" "S08" "H" 6; tx "T09" "S09" "H" 7;
   tx "T10" "S10" "H" 8; tx "T11" "S11" "H" 9].

(** A decimal numeral as [pretty] prints it: not empty, and without a
    leading zero unless it is "0". *)
Definition numeral (s : string) : Prop :=
  s ≠ "" ∧ ∀ rest, s = String "0" rest → rest = "".

Definition zeros (k : nat) : string :=
  String.string_of_list_ascii (replicate k "0"%char).

(** ** Vocabulary of the further properties *)

(** The endpoints of the rows, in reading order. *)
Definition row_endpoints (df : list Transaction) : list string :=
  df ≫= (λ row, [sender_id row; receiver_id row]).

(** Consecutive nodes of [path] are joined by an edge of [g]. *)
Definition is_walk (g : DiGraph) (path : list string) : Prop :=
  ∀ i u v, path !! i = Some u → path !! S i = Some v →
           (u, v) ∈ (edge_key <$> adj g).

(** The account of [acc_id] as a dictionary lookup would return it. *)
Definition find_account (acc_id : string) (accounts : list AccountScore.t)
    : option AccountScore.t :=
  head (filter (λ a, AccountScore.account_id a = acc_id) accounts).

(** The ring that [detect_shell_chains] emits for [path]. *)
Definition shell_ring_of (path : list string) : FraudRing.t :=
  FraudRing.mk "" (dict_fromkeys path) shell_chain
    (50 + (Z.of_nat (length (interior path)) - 1) * 5)
    (DetailsShell path (interior path)).

(** [while stack:] run for at most [fuel] iterations: the state when the
    stack is found empty, [None] when the iterations run out first. *)
Fixpoint shell_while (min_hops max_hops : Z) (low : gset string) (g : DiGraph)
    (fuel : nat) (cfg : Stack * ShellState) : option ShellState :=
  match fuel with
  | O => None
  | S fuel' =>
      match shell_step min_hops max_hops low g cfg with
      | None => Some cfg.2
      | Some cfg' => shell_while min_hops max_hops low g fuel' cfg'
      end
  end.

(** The account of [x] in [accounts] lists the reason [ρ]. *)
Definition has_reason (accounts : list AccountScore.t) (x : string) (ρ : Reason)
    : Prop :=
  ∃ a, a ∈ accounts ∧ AccountScore.account_id a = x ∧ ρ ∈ AccountScore.reasons a.

(** What the search of [detect_shell_chains] keeps between two visits: a
    path in [visited_paths] has its ring in [rings], and, with respect to
    an earlier state [st0], no ring is ever removed. *)
Definition shell_grows (st0 st : ShellState) : Prop :=
  (∀ p, p ∈ visited_paths st → shell_ring_of p ∈ shell_rings st) ∧
  shell_rings st0 ⊆ shell_rings st.

(** The roles of a smurfing ring [r] with hub [node] as [scores] records
    them: the hub with its cluster size, every other member as a
    counterparty. *)
Definition smurf_roles (mk_details : string → Z → Details)
    (hub_reason : Z → Reason) (party_reason : Reason)
    (scores : list AccountScore.t) (node : string) (r : FraudRing.t) : Prop :=
  ∃ c, FraudRing.details r = mk_details node c ∧
       has_reason scores node (hub_reason c) ∧
       Forall (λ m, m = node ∨ has_reason scores m party_reason)
         (FraudRing.members r).

(** Every node of [nodes_of_g] has an account in [l], and the reasons of
    the account of a node start with the first reason of that node. *)
Definition starts_with_first_reason (nodes_of_g : list string)
    (first_reason : string → Reason) (l : list AccountScore.t) : Prop :=
  (∀ n, n ∈ nodes_of_g → n ∈ account_ids l) ∧
  Forall
    (λ a, AccountScore.account_id a ∈ nodes_of_g →
          ∃ rest, AccountScore.reasons a =
                  first_reason (AccountScore.account_id a) :: rest) l.

(** ** Vocabulary independent of the detector's helpers *)

(** [c2] is [c1] read from another starting point. *)
Definition rotation_of (c1 c2 : list string) : Prop :=
  ∃ x y, c1 = x ++ y ∧ c2 = y ++ x.

(** [k] is the lexicographically minimum rotation of [c], in the order of
    Python tuples of strings. *)
Definition min_rotation (k c : list string) : Prop :=
  rotation_of c k ∧
  ∀ c', rotation_of c c' → list_compare String.compare c' k ≠ Lt.

(** The id of the ring ranked [k]: the letter R and [k] in decimal,
    padded with zeros on the left to four digits. *)
Definition ring_id_text (k : nat) : string :=
  "R" +:+ zeros (4 - String.length (pretty k)) +:+ pretty k.

(** * Properties *)

(** A decidable closed proposition, settled by evaluation. *)
Ltac by_evaluation := apply (bool_decide_unpack _); vm_compute; exact I.

(** ** The model on the scenarios of the specification *)

Example scenario_S1_triangle :
  fraud_rings (detect_all_patterns dfs_simple_cycles triangle) =
  [FraudRing.mk "R0001" ["A"; "B"; "C"] cycle 60 (DetailsCycle 3)].
Proof. reflexivity. Qed.

Example scenario_S2_fan_in_burst :
  (λ r, (FraudRing.pattern_type r, FraudRing.risk_score r, FraudRing.details r))
    <$> fraud_rings (detect_all_patterns dfs_simple_cycles (fan_in_burst 12)) =
  [(smurfing_fan_in, 74, DetailsFanIn "H" 12)] ∧
  AccountScore.account_id
    <$> head (accounts (detect_all_patterns dfs_simple_cycles (fan_in_burst 12)))
  = Some "H".
Proof. split; reflexivity. Qed.

Example scenario_S5_empty :
  detect_all_patterns dfs_simple_cycles [] = mkDocument [] [] [] [].
Proof. reflexivity. Qed.

Example scenario_S6_below_threshold :
  fraud_rings (detect_all_patterns dfs_simple_cycles (fan_in_burst 9)) = [].
Proof. reflexivity. Qed.

(** ** The graph built from a batch *)
Lemma add_node_nodes n g x :
  x ∈ nodes (add_node n g) ↔ x = n ∨ x ∈ nodes g.
Proof.
  unfold add_node. case_decide; simpl.
  - split; [tauto | intros [-> | ?]; done].
  - rewrite elem_of_app, list_elem_of_singleton. tauto.
Qed.

Lemma add_node_adj n g : adj (add_node n g) = adj g.
Proof. unfold add_node. by case_decide. Qed.

Lemma add_node_NoDup n g : NoDup (nodes g) → NoDup (nodes (add_node n g)).
Proof.
  intros Hnd. unfold add_node. case_decide; simpl; [done |].
  apply NoDup_app. split_and!; [done | | apply NoDup_singleton].
  intros x Hx ->%list_elem_of_singleton. done.
Qed.

Lemma set_edge_keys u v d es :
  edge_key <$> set_edge u v d es =
  if decide ((u, v) ∈ (edge_key <$> es)) then edge_key <$> es
  else (edge_key <$> es) ++ [(u, v)].
Proof.
  induction es as [| e es IH].
  - rewrite decide_False; [done | apply not_elem_of_nil].
  - cbn [set_edge]. rewrite fmap_cons.
    destruct (decide (edge_key e = (u, v))) as [He | He].
    + rewrite decide_True; [| rewrite He; apply list_elem_of_here].
      by rewrite fmap_cons, He.
    + rewrite fmap_cons, IH. destruct (decide ((u, v) ∈ edge_key <$> es)) as [Hin | Hin].
      * rewrite decide_True; [done | by apply list_elem_of_further].
      * rewrite decide_False; [done |].
        intros [Heq | ?]%elem_of_cons; congruence.
Qed.
Lemma set_edge_elem u v d es e :
  e ∈ set_edge u v d es → e = (u, v, d) ∨ e ∈ es.
Proof.
  induction es as [| e' es IH]; cbn [set_edge].
  - rewrite list_elem_of_singleton. auto.
  - destruct (decide (edge_key e' = (u, v))) as [He | He]; rewrite !elem_of_cons.
    + intros [-> | Hin]; auto.
    + intros [-> | Hin]; [auto |]. destruct (IH Hin); auto.
Qed.
Lemma find_attr_set_edge u v u' v' d es :
  find_attr u v (set_edge u' v' d es) =
  if decide ((u', v') = (u, v)) then Some d else find_attr u v es.
Proof.
  unfold find_attr. induction es as [| e es IH]; cbn [set_edge list_find].
  - unfold edge_key at 1. cbn [fst].
    destruct (decide ((u', v') = (u, v))); reflexivity.
  - destruct (decide (edge_key e = (u', v'))) as [He | He]; cbn [list_find].
    + unfold edge_key at 1. cbn [fst].
      destruct (decide ((u', v') = (u, v))) as [Huv | Huv]; [done |].
      rewrite decide_False; [done | congruence].
    + destruct (decide (edge_key e = (u, v))) as [Hk | Hk].
      * rewrite decide_False; [done | congruence].
      * rewrite <- !option_fmap_compose. revert IH.
        destruct (decide ((u', v') = (u, v)));
          destruct (list_find _ (set_edge u' v' d es)) as [[??] |];
          try destruct (list_find _ es) as [[??] |]; simpl; congruence.
Qed.
Lemma find_attr_elem u v es a :
  NoDup (edge_key <$> es) →
  find_attr u v es = Some a ↔ (u, v, a) ∈ es.
Proof.
  unfold find_attr. intros Hnd. split.
  - intros H. apply fmap_Some in H as [[i e] [Hf ->]].
    apply list_find_Some in Hf as (Hl & Hk & _). simpl.
    apply list_elem_of_lookup_2 in Hl. destruct e as [[u0 v0] a0].
    unfold edge_key in Hk. simpl in *. by simplify_eq.
  - intros Hin. apply list_elem_of_lookup_1 in Hin as [i Hi].
    destruct (list_find (λ e, edge_key e = (u, v)) es) as [[j e] |] eqn:Hf.
    + apply list_find_Some in Hf as (Hj & Hk & _). simpl.
      assert (i = j) as ->; [| by simplify_eq].
      apply (NoDup_lookup _ i j (u, v) Hnd); rewrite list_lookup_fmap.
      * by rewrite Hi.
      * rewrite Hj. simpl. by rewrite Hk.
    + apply list_find_None in Hf. rewrite Forall_forall in Hf.
      exfalso. eapply Hf; [by eapply list_elem_of_lookup_2 | done].
Qed.

Lemma build_graph_row_adj g row :
  adj (build_graph_row g row) =
  set_edge (sender_id row) (receiver_id row) (row_attr row) (adj g).
Proof. unfold build_graph_row, add_edge. simpl. by rewrite !add_node_adj. Qed.

Lemma build_graph_row_nodes g row x :
  x ∈ nodes (build_graph_row g row) ↔
  x = sender_id row ∨ x = receiver_id row ∨ x ∈ nodes g.
Proof.
  unfold build_graph_row, add_edge. simpl.
  rewrite !add_node_nodes. tauto.
Qed.

Lemma build_graph_row_wf g row : wf_graph g → wf_graph (build_graph_row g row).
Proof.
  intros [Hn Hk He]. split.
  - unfold build_graph_row, add_edge. simpl. by repeat apply add_node_NoDup.
  - rewrite build_graph_row_adj, set_edge_keys. case_decide; [done |].
    apply NoDup_app. split_and!; [done | | apply NoDup_singleton].
    intros x Hx ->%list_elem_of_singleton. done.
  - intros e. rewrite build_graph_row_adj, !build_graph_row_nodes.
    intros [-> | Hin]%set_edge_elem; [simpl; tauto |].
    destruct (He e Hin). tauto.
Qed.

Lemma build_graph_snoc df row :
  build_graph (df ++ [row]) = build_graph_row (build_graph df) row.
Proof. unfold build_graph. by rewrite fold_left_app. Qed.

Lemma build_graph_wf df : wf_graph (build_graph df).
Proof.
  induction df as [| row df IH] using rev_ind.
  - split; simpl; [constructor | constructor | intros e H; by apply elem_of_nil in H].
  - rewrite build_graph_snoc. by apply build_graph_row_wf.
Qed.

Lemma build_graph_lookup df u v :
  find_attr u v (adj (build_graph df)) =
  row_attr <$> last (filter (λ row, row_key row = (u, v)) df).
Proof.
  induction df as [| row df IH] using rev_ind; [done |].
  rewrite build_graph_snoc, build_graph_row_adj, find_attr_set_edge.
  rewrite filter_app, filter_cons, filter_nil.
  change (sender_id row, receiver_id row) with (row_key row).
  destruct (decide (row_key row = (u, v))) as [Hk | Hk].
  - by rewrite last_snoc.
  - by rewrite app_nil_r.
Qed.

Lemma build_graph_keys df k :
  k ∈ (edge_key <$> adj (build_graph df)) ↔ k ∈ (row_key <$> df).
Proof.
  induction df as [| row df IH] using rev_ind; [done |].
  rewrite build_graph_snoc, build_graph_row_adj, set_edge_keys.
  rewrite fmap_app, elem_of_app. simpl. rewrite list_elem_of_singleton.
  case_decide as Hin.
  - rewrite IH. split; [tauto | intros [? | ->]; [done |]]. by apply IH.
  - by rewrite elem_of_app, list_elem_of_singleton, IH.
Qed.

Lemma build_graph_nodes df x :
  x ∈ nodes (build_graph df) ↔
  x ∈ (sender_id <$> df) ∨ x ∈ (receiver_id <$> df).
Proof.
  induction df as [| row df IH] using rev_ind.
  - simpl. split; [intros H | intros [H | H]]; by apply elem_of_nil in H.
  - rewrite build_graph_snoc, build_graph_row_nodes, IH.
    rewrite !fmap_app, !elem_of_app. simpl. rewrite !list_elem_of_singleton. tauto.
Qed.

(** [g.edges] lists the stored edges, each once. *)
Lemma edges_elem g e : wf_graph g → e ∈ edges g ↔ e ∈ adj g.
Proof.
  intros Hwf. unfold edges, out_edges. rewrite list_elem_of_In, in_flat_map.
  split.
  - intros (n & _ & Hin%list_elem_of_In). by apply list_elem_of_filter in Hin as [_ ?].
  - intros Hin. exists (edge_source e). split.
    + apply list_elem_of_In. by apply (wf_ends _ Hwf).
    + apply list_elem_of_In, list_elem_of_filter. done.
Qed.

Lemma filter_keys_NoDup (P : Edge → Prop) `{∀ e, Decision (P e)} (es : list Edge) :
  NoDup (edge_key <$> es) → NoDup (edge_key <$> filter P es).
Proof.
  intros Hk. eapply sublist_NoDup; [exact Hk |].
  apply fmap_sublist, sublist_filter.
Qed.

Lemma out_edges_over_NoDup g ns :
  NoDup ns → NoDup (edge_key <$> adj g) →
  NoDup (edge_key <$> flat_map (out_edges g) ns).
Proof.
  intros Hns Hk. induction Hns as [| n ns Hn Hns IH]; simpl; [constructor |].
  rewrite fmap_app. apply NoDup_app. split_and!; [| | done].
  - unfold out_edges. by apply filter_keys_NoDup.
  - intros k (e1 & -> & H1)%list_elem_of_fmap (e2 & Hk2 & H2)%list_elem_of_fmap.
    apply list_elem_of_filter in H1 as [H1 _].
    apply list_elem_of_In, in_flat_map in H2 as (m & Hm%list_elem_of_In & H2%list_elem_of_In).
    apply list_elem_of_filter in H2 as [H2 _].
    apply Hn. unfold edge_key, edge_source in *. rewrite <- H1, Hk2, H2. done.
Qed.

Lemma edges_keys_NoDup g : wf_graph g → NoDup (edge_key <$> edges g).
Proof. intros [Hn Hk _]. by apply out_edges_over_NoDup. Qed.

Lemma edges_Permutation g : wf_graph g → edges g ≡ₚ adj g.
Proof.
  intros Hwf. apply NoDup_Permutation.
  - eapply NoDup_fmap_1, edges_keys_NoDup, Hwf.
  - eapply NoDup_fmap_1, (wf_keys _ Hwf).
  - intros e. by apply edges_elem.
Qed.

(** The counterparties of a node are the distinct senders to it and the
    distinct receivers from it.  The two proofs share one script. *)
Ltac edge_of_row df :=
  match goal with
  | Hrow : ?row ∈ df |- _ =>
      let e := fresh "e" in
      let Hk := fresh "Hk" in
      let He := fresh "He" in
      assert (row_key row ∈ edge_key <$> adj (build_graph df))
        as (e & Hk & He)%list_elem_of_fmap
        by (apply build_graph_keys, list_elem_of_fmap; eauto);
      exists e; destruct e as [[? ?] ?];
      unfold edge_key, edge_source, edge_target, row_key in *; simpl in *;
      simplify_eq; split; [done |]; by apply list_elem_of_filter
  end.

Ltac row_of_edge df :=
  match goal with
  | Hin : ?e ∈ adj (build_graph df) |- _ =>
      let row := fresh "row" in
      let Hk := fresh "Hk" in
      let Hrow := fresh "Hrow" in
      assert (edge_key e ∈ row_key <$> df)
        as (row & Hk & Hrow)%list_elem_of_fmap
        by (apply build_graph_keys, list_elem_of_fmap; eauto);
      exists row; destruct e as [[? ?] ?];
      unfold edge_key, edge_source, edge_target, row_key in *; simpl in *;
      simplify_eq; split; [done |]; by apply list_elem_of_filter
  end.

Ltac counterparties df :=
  let Hwf := fresh "Hwf" in
  pose proof (build_graph_wf df) as Hwf;
  apply NoDup_Permutation; [| apply NoDup_remove_dups |];
  [ unfold in_edges, out_edges;
    apply (NoDup_fmap_2_strong _);
    [| eapply NoDup_fmap_1, filter_keys_NoDup, (wf_keys _ Hwf)];
    let T1 := fresh "T" in
    let T2 := fresh "T" in
    intros [[? ?] ?] [[? ?] ?]
      [? T1]%list_elem_of_filter [? T2]%list_elem_of_filter ?;
    unfold edge_source, edge_target in *; simpl in *; subst;
    f_equal; apply (find_attr_elem _ _ _ _ (wf_keys _ Hwf)) in T1, T2;
    congruence
  | intros ?; rewrite elem_of_remove_dups, !list_elem_of_fmap; split;
    [ intros (? & -> & [? ?]%list_elem_of_filter); row_of_edge df
    | intros (? & -> & [? ?]%list_elem_of_filter); edge_of_row df ] ].

Lemma in_edges_sources df n :
  edge_source <$> in_edges (build_graph df) n ≡ₚ
  remove_dups (sender_id <$> filter (λ row, receiver_id row = n) df).
Proof. counterparties df. Qed.

Lemma out_edges_targets df n :
  edge_target <$> out_edges (build_graph df) n ≡ₚ
  remove_dups (receiver_id <$> filter (λ row, sender_id row = n) df).
Proof. counterparties df. Qed.

Lemma detect_all_patterns_graph_edges simple_cycles df :
  graph_edges (detect_all_patterns simple_cycles df) =
  edge_record <$> edges (build_graph df).
Proof.
  unfold detect_all_patterns.
  destruct (detect_smurfing _), (detect_shell_chains _). done.
Qed.

Lemma edges_keys_Permutation df :
  edge_key <$> edges (build_graph df) ≡ₚ remove_dups (row_key <$> df).
Proof.
  pose proof (build_graph_wf df) as Hwf.
  apply NoDup_Permutation; [by apply edges_keys_NoDup | apply NoDup_remove_dups |].
  intros k. rewrite elem_of_remove_dups, <- build_graph_keys.
  by rewrite (edges_Permutation _ Hwf).
Qed.

(** C9: [build_graph] keeps at most one edge per ordered (sender, receiver)
    pair; the edge of a pair carries the transaction id, the amount and
    the timestamp of the last record of that pair in input order; and the
    in-degree and out-degree of a node count its distinct senders and
    receivers, not its transactions. *)
Theorem build_graph_one_edge_per_pair (df : list Transaction) :
  let g := build_graph df in
  NoDup (edge_key <$> edges g) ∧
  (∀ u v a,
     (u, v, a) ∈ edges g ↔
     ∃ row,
       last (filter (λ row, sender_id row = u ∧ receiver_id row = v) df)
         = Some row ∧
       attr_transaction_id a = transaction_id row ∧
       attr_amount a = amount row ∧
       attr_timestamp a = timestamp row) ∧
  (∀ n, in_degree g n =
        Z.of_nat (length (remove_dups
          (sender_id <$> filter (λ row, receiver_id row = n) df)))) ∧
  (∀ n, out_degree g n =
        Z.of_nat (length (remove_dups
          (receiver_id <$> filter (λ row, sender_id row = n) df)))).
Proof.
  intros g. subst g. pose proof (build_graph_wf df) as Hwf. split_and!.
  - by apply edges_keys_NoDup.
  - intros u v a. rewrite (edges_elem _ _ Hwf), <- (find_attr_elem _ _ _ _ (wf_keys _ Hwf)).
    rewrite build_graph_lookup.
    assert (filter (λ row, sender_id row = u ∧ receiver_id row = v) df =
            filter (λ row, row_key row = (u, v)) df) as ->.
    { apply list_filter_iff. intros row. unfold row_key. split.
      - by intros [-> ->].
      - by intros [= -> ->]. }
    split.
    + intros (row & Hlast & ->)%fmap_Some. by exists row.
    + intros (row & Hlast & Hid & Ham & Hts). rewrite Hlast. simpl. f_equal.
      destruct a. unfold row_attr. simpl in *. congruence.
  - intros n. unfold in_degree. f_equal.
    rewrite <- (in_edges_sources df n). by rewrite length_fmap.
  - intros n. unfold out_degree. f_equal.
    rewrite <- (out_edges_targets df n). by rewrite length_fmap.
Qed.

(** C1, as the code has it: [graph.edges] holds exactly one record per
    distinct ordered (sender_id, receiver_id) pair of the batch, so every
    transaction is represented by the record of its pair, and that record
    carries the attributes of the last transaction of the pair. *)
Theorem graph_edges_one_per_ordered_pair
    (simple_cycles : DiGraph → list (list string)) (df : list Transaction) :
  let doc := detect_all_patterns simple_cycles df in
  record_key <$> graph_edges doc ≡ₚ remove_dups (row_key <$> df) ∧
  length (graph_edges doc) = length (remove_dups (row_key <$> df)) ∧
  (∀ r, r ∈ graph_edges doc ↔
        ∃ row, last (filter (λ row', row_key row' = record_key r) df) = Some row ∧
               r = mkEdgeRecord (sender_id row) (receiver_id row)
                     (transaction_id row) (amount row) (timestamp row)).
Proof.
  intros doc. subst doc. rewrite detect_all_patterns_graph_edges.
  pose proof (build_graph_wf df) as Hwf.
  assert (record_key <$> (edge_record <$> edges (build_graph df)) ≡ₚ
          remove_dups (row_key <$> df)) as Hperm.
  { rewrite <- edges_keys_Permutation, <- list_fmap_compose.
    rewrite (list_fmap_ext (record_key ∘ edge_record) edge_key); [done |].
    by intros i [[??]?] _. }
  split_and!; [exact Hperm | |].
  - rewrite <- Hperm. by rewrite !length_fmap.
  - intros r. rewrite list_elem_of_fmap. split.
    + intros ([[u v] a] & -> & Hin).
      apply (edges_elem _ _ Hwf), (find_attr_elem _ _ _ _ (wf_keys _ Hwf)) in Hin.
      rewrite build_graph_lookup in Hin.
      apply fmap_Some in Hin as (row & Hlast & ->).
      exists row. split; [done |].
      assert (row ∈ filter (λ row', row_key row' = (u, v)) df) as [Hk _]%list_elem_of_filter.
      { apply last_Some in Hlast as [l' ->]. set_solver. }
      unfold row_key in Hk. simplify_eq. reflexivity.
    + intros (row & Hlast & ->).
      exists (sender_id row, receiver_id row, row_attr row). split; [done |].
      apply (edges_elem _ _ Hwf), (find_attr_elem _ _ _ _ (wf_keys _ Hwf)).
      rewrite build_graph_lookup. unfold record_key in Hlast. simpl in Hlast.
      by rewrite Hlast.
Qed.

(** C1 as stated fails: two transactions A -> B yield a single edge record,
    the one of the later transaction. *)
Lemma parallel_transactions_share_one_edge :
  graph_edges (detect_all_patterns dfs_simple_cycles parallel_pair) =
    [mkEdgeRecord "A" "B" "T2" 100 (timedelta_hours 1)] ∧
  length (graph_edges (detect_all_patterns dfs_simple_cycles parallel_pair)) ≠
    length parallel_pair.
Proof. split; [reflexivity | vm_compute; discriminate]. Qed.

(** ** Order on tuples of strings *)

Lemma string_compare_refl (s : string) : String.compare s s = Eq.
Proof.
  induction s as [| a s IH]; simpl; [done |].
  unfold Ascii.compare. by rewrite N.compare_refl.
Qed.

Lemma string_compare_eq (s1 s2 : string) : String.compare s1 s2 = Eq ↔ s1 = s2.
Proof.
  split; [apply String.compare_eq_iff | intros ->; apply string_compare_refl].
Qed.

Lemma string_compare_lt_trans (s1 s2 s3 : string) :
  String.compare s1 s2 = Lt → String.compare s2 s3 = Lt →
  String.compare s1 s3 = Lt.
Proof.
  revert s2 s3. induction s1 as [| a1 s1 IH]; intros [| a2 s2] [| a3 s3];
    simpl; try done.
  destruct (Ascii.compare a1 a2) eqn:H12; try done.
  - apply Ascii.compare_eq_iff in H12 as ->.
    destruct (Ascii.compare a2 a3); try done. apply IH.
  - intros _. destruct (Ascii.compare a2 a3) eqn:H23; try done.
    + apply Ascii.compare_eq_iff in H23 as ->. by rewrite H12.
    + intros _. assert (Ascii.compare a1 a3 = Lt) as ->; [| done].
      unfold Ascii.compare in *. rewrite N.compare_lt_iff in *. lia.
Qed.

Lemma string_compare_trans (s1 s2 s3 : string) (c : comparison) :
  String.compare s1 s2 = c → String.compare s2 s3 = c →
  String.compare s1 s3 = c.
Proof.
  destruct c.
  - intros ->%string_compare_eq ->%string_compare_eq. apply string_compare_refl.
  - apply string_compare_lt_trans.
  - intros H12 H23. rewrite String.compare_antisym in H12, H23 |- *.
    apply CompOpp_iff in H12, H23. simpl in *.
    by rewrite (string_compare_lt_trans _ _ _ H23 H12).
Qed.

Lemma tuple_lt_trans (a b c : list string) :
  tuple_lt a b = true → tuple_lt b c = true → tuple_lt a c = true.
Proof.
  unfold tuple_lt. intros Hab Hbc.
  rewrite (list_compare_trans String.compare string_compare_eq a b c (c:=Lt)); [done | | | |].
  - apply string_compare_trans.
  - intros x y. apply String.compare_antisym.
  - by destruct (list_compare String.compare a b).
  - by destruct (list_compare String.compare b c).
Qed.

Lemma tuple_lt_trichotomy (a b : list string) :
  tuple_lt a b = false → tuple_lt b a = false → a = b.
Proof.
  unfold tuple_lt. intros Hab Hba.
  apply (list_compare_refl String.compare string_compare_eq).
  rewrite (list_compare_antisym String.compare string_compare_eq a b) in Hba;
    [| intros x y; apply String.compare_antisym].
  by destruct (list_compare String.compare a b).
Qed.

Lemma tuple_lt_irrefl (a : list string) : tuple_lt a a = false.
Proof.
  unfold tuple_lt.
  by rewrite (proj2 (list_compare_refl String.compare string_compare_eq a a) eq_refl).
Qed.

Lemma min_from_spec (best : list string) (l : list (list string)) :
  (min_from best l = best ∨ min_from best l ∈ l) ∧
  tuple_lt best (min_from best l) = false ∧
  ∀ x, x ∈ l → tuple_lt x (min_from best l) = false.
Proof.
  revert best. induction l as [| x l IH]; intros best; simpl.
  - split_and!; [by left | apply tuple_lt_irrefl |].
    intros x Hx. by apply elem_of_nil in Hx.
  - destruct (IH (if tuple_lt x best then x else best)) as (Hin & Hb & Hl).
    set (m := min_from (if tuple_lt x best then x else best) l) in *.
    destruct (tuple_lt x best) eqn:Hxb.
    + split_and!.
      * right. destruct Hin as [-> | ?]; [left | by right].
      * destruct (tuple_lt best m) eqn:Hbm; [| done].
        by rewrite (tuple_lt_trans _ _ _ Hxb Hbm) in Hb.
      * intros y [-> | Hy]%elem_of_cons; auto.
    + split_and!.
      * destruct Hin as [-> | ?]; [by left | right; by right].
      * done.
      * intros y [-> | Hy]%elem_of_cons; [| auto].
        destruct (tuple_lt x m) eqn:Hxm; [| done].
        destruct (tuple_lt m best) eqn:Hmb.
        -- by rewrite (tuple_lt_trans _ _ _ Hxm Hmb) in Hxb.
        -- rewrite (tuple_lt_trichotomy _ _ Hb Hmb) in Hxb. congruence.
Qed.

Lemma tuple_min_spec (l : list (list string)) :
  l ≠ [] →
  tuple_min l ∈ l ∧ ∀ x, x ∈ l → tuple_lt x (tuple_min l) = false.
Proof.
  destruct l as [| x l]; [done | intros _]. simpl.
  destruct (min_from_spec x l) as (Hin & Hb & Hl). split.
  - destruct Hin as [-> | ?]; [left | by right].
  - intros y [-> | Hy]%elem_of_cons; auto.
Qed.

Lemma tuple_min_ext (l1 l2 : list (list string)) :
  l1 ≠ [] → (∀ x, x ∈ l1 ↔ x ∈ l2) → tuple_min l1 = tuple_min l2.
Proof.
  intros Hne Hext.
  assert (l2 ≠ []) as Hne2.
  { destruct l1 as [| x l1]; [done |]. intros ->.
    eapply not_elem_of_nil, Hext. left. }
  destruct (tuple_min_spec l1 Hne) as [Hin1 Hmin1].
  destruct (tuple_min_spec l2 Hne2) as [Hin2 Hmin2].
  apply tuple_lt_trichotomy.
  - apply Hmin2. by apply Hext.
  - apply Hmin1. by apply Hext.
Qed.

(** ** Rotations *)

Lemma rotated_app (x y : list string) : rotated (x ++ y) (length x) = y ++ x.
Proof. unfold rotated. by rewrite drop_app_length, take_app_length. Qed.

Lemma is_rotation_split (c1 c2 : list string) :
  is_rotation c1 c2 ↔ ∃ x y, c1 = x ++ y ∧ c2 = y ++ x.
Proof.
  split.
  - intros [i ->]. exists (take i c1), (drop i c1).
    by rewrite take_drop.
  - intros (x & y & -> & ->). exists (length x). by rewrite rotated_app.
Qed.

Lemma is_rotation_refl (c : list string) : is_rotation c c.
Proof. exists 0%nat. unfold rotated. by rewrite drop_0, app_nil_r. Qed.

Lemma is_rotation_sym (c1 c2 : list string) :
  is_rotation c1 c2 → is_rotation c2 c1.
Proof.
  rewrite !is_rotation_split. intros (x & y & -> & ->). by exists y, x.
Qed.

Lemma is_rotation_trans (c1 c2 c3 : list string) :
  is_rotation c1 c2 → is_rotation c2 c3 → is_rotation c1 c3.
Proof.
  rewrite !is_rotation_split.
  intros (x & y & -> & ->) (x' & y' & Heq & ->).
  apply app_eq_app in Heq as [l [[-> ->] | [-> ->]]].
  - exists (x ++ x'), l. by rewrite <- !app_assoc.
  - exists l, (y' ++ y). by rewrite <- !app_assoc.
Qed.

Lemma is_rotation_length (c1 c2 : list string) :
  is_rotation c1 c2 → length c2 = length c1.
Proof.
  rewrite is_rotation_split. intros (x & y & -> & ->).
  rewrite !length_app. lia.
Qed.

Lemma elem_of_rotated_variants (c x : list string) :
  x ∈ rotated_variants c ↔ c ≠ [] ∧ is_rotation c x.
Proof.
  unfold rotated_variants. rewrite list_elem_of_fmap. split.
  - intros (i & -> & Hi%elem_of_seq). split; [| by exists i].
    intros ->. simpl in Hi. lia.
  - intros [Hne [i ->]]. destruct (decide (i < length c)%nat) as [Hlt | Hge].
    + exists i. split; [done |]. apply elem_of_seq. lia.
    + exists 0%nat. split.
      * unfold rotated. rewrite drop_ge, take_ge by lia.
        rewrite drop_0. simpl. by rewrite app_nil_r.
      * apply elem_of_seq. destruct c; [done | simpl; lia].
Qed.

Lemma canonical_key_rotation (c1 c2 : list string) :
  is_rotation c1 c2 → canonical_key c1 = canonical_key c2.
Proof.
  intros Hrot. unfold canonical_key.
  destruct c1 as [| a c1].
  { apply is_rotation_length in Hrot. by destruct c2. }
  apply tuple_min_ext; [done |].
  intros x. rewrite !elem_of_rotated_variants.
  assert (c2 ≠ []) as Hne.
  { apply is_rotation_length in Hrot. by destruct c2. }
  split; intros [_ Hx]; (split; [done |]).
  - eapply is_rotation_trans; [by apply is_rotation_sym | done].
  - by eapply is_rotation_trans.
Qed.

Lemma canonical_key_is_rotation (c : list string) :
  c ≠ [] → is_rotation c (canonical_key c).
Proof.
  intros Hne. unfold canonical_key.
  assert (rotated_variants c ≠ []) as Hv.
  { destruct c; [done |]. unfold rotated_variants. done. }
  destruct (tuple_min_spec _ Hv) as [Hin _].
  by apply elem_of_rotated_variants in Hin as [_ ?].
Qed.

(** ** detect_cycles *)

Lemma detect_cycles_step_spec min_len max_len st c :
  detect_cycles_step min_len max_len st c = st ∨
  ((canonical_key c ∉ snd st) ∧
   min_len ≤ Z.of_nat (length c) ≤ max_len ∧
   detect_cycles_step min_len max_len st c =
     (st.1 ++ [cycle_ring min_len c], {[canonical_key c]} ∪ st.2)).
Proof.
  unfold detect_cycles_step. case_bool_decide as Hlen; [| by left].
  destruct (decide (canonical_key c ∈ st.2)); [by left | by right].
Qed.

(** The loop invariant of [detect_cycles]: [seen] holds the keys of the
    emitted rings, which are pairwise distinct; every ring is the ring of
    a cycle whose length is within the bounds; and the members read, in order, a
    subsequence of the cycles consumed so far. *)
Record cycles_inv (min_len max_len : Z) (consumed : list (list string))
    (st : list FraudRing.t * gset (list string)) : Prop := mk_cycles_inv {
  ci_seen : ∀ k, k ∈ st.2 ↔ k ∈ (canonical_key ∘ FraudRing.members <$> st.1);
  ci_keys : NoDup (canonical_key ∘ FraudRing.members <$> st.1);
  ci_shape : Forall (λ r, r = cycle_ring min_len (FraudRing.members r) ∧
                          min_len ≤ Z.of_nat (length (FraudRing.members r)) ≤ max_len) st.1;
  ci_sub : FraudRing.members <$> st.1 `sublist_of` consumed
}.

Lemma detect_cycles_step_inv min_len max_len consumed st c :
  cycles_inv min_len max_len consumed st →
  cycles_inv min_len max_len (consumed ++ [c])
    (detect_cycles_step min_len max_len st c).
Proof.
  intros [Hseen Hkeys Hshape Hsub].
  destruct (detect_cycles_step_spec min_len max_len st c) as [-> | (Hnew & Hlen & ->)].
  - split; [done | done | done |]. by apply sublist_inserts_r.
  - split; simpl.
    + intros k. rewrite fmap_app, elem_of_app, elem_of_union, elem_of_singleton.
      simpl. rewrite list_elem_of_singleton, Hseen. tauto.
    + rewrite fmap_app. apply NoDup_app. split_and!; [done | | apply NoDup_singleton].
      intros k Hk ->%list_elem_of_singleton. simpl in Hnew. by apply Hnew, Hseen.
    + apply Forall_app. split; [done |]. by apply Forall_singleton.
    + rewrite fmap_app. by apply sublist_app.
Qed.

Lemma detect_cycles_fold_inv min_len max_len consumed st cycles :
  cycles_inv min_len max_len consumed st →
  cycles_inv min_len max_len (consumed ++ cycles)
    (fold_left (detect_cycles_step min_len max_len) cycles st).
Proof.
  revert consumed st. induction cycles as [| c cycles IH]; intros consumed st Hinv; simpl.
  - by rewrite app_nil_r.
  - rewrite (cons_middle c), app_assoc. by apply IH, detect_cycles_step_inv.
Qed.

Lemma detect_cycles_of_inv min_len max_len cycles :
  cycles_inv min_len max_len cycles
    (fold_left (detect_cycles_step min_len max_len) cycles ([], ∅)).
Proof.
  apply (detect_cycles_fold_inv min_len max_len [] ([], ∅) cycles).
  split; simpl; [set_solver | constructor | constructor | constructor].
Qed.

Lemma detect_cycles_of_keys_inj min_len max_len cycles i j r1 r2 :
  detect_cycles_of min_len max_len cycles !! i = Some r1 →
  detect_cycles_of min_len max_len cycles !! j = Some r2 →
  canonical_key (FraudRing.members r1) = canonical_key (FraudRing.members r2) →
  i = j.
Proof.
  intros H1 H2 Hkey.
  pose proof (detect_cycles_of_inv min_len max_len cycles) as Hinv.
  apply (NoDup_lookup _ i j (canonical_key (FraudRing.members r1))
           (ci_keys _ _ _ _ Hinv));
    rewrite list_lookup_fmap; unfold detect_cycles_of in *.
  - by rewrite H1.
  - rewrite H2. simpl. by rewrite Hkey.
Qed.

(** ** Stable descending sort *)

Section sorted_desc.
Context {A : Type} (lt : A → A → bool).

Lemma insert_desc_Permutation x l : insert_desc lt x l ≡ₚ x :: l.
Proof.
  induction l as [| y l IH]; simpl; [done |].
  destruct (lt x y); [| done]. rewrite IH. apply Permutation_swap.
Qed.

Lemma sorted_desc_Permutation l : sorted_desc lt l ≡ₚ l.
Proof.
  induction l as [| x l IH]; simpl; [done |].
  by rewrite insert_desc_Permutation, IH.
Qed.

Hypothesis lt_asym : ∀ a b, lt a b = true → lt b a = false.
Hypothesis ge_trans : ∀ a b c, lt a b = false → lt b c = false → lt a c = false.

Lemma insert_desc_sorted x l :
  StronglySorted (λ a b, lt a b = false) l →
  StronglySorted (λ a b, lt a b = false) (insert_desc lt x l).
Proof.
  induction 1 as [| y l Hl IH Hy]; simpl.
  - by repeat constructor.
  - destruct (lt x y) eqn:Hxy.
    + constructor; [done |]. rewrite insert_desc_Permutation.
      constructor; [by apply lt_asym | done].
    + constructor; [by constructor |].
      constructor; [done |].
      eapply Forall_impl; [exact Hy |]. intros z Hz. by eapply ge_trans.
Qed.

Lemma sorted_desc_sorted l :
  StronglySorted (λ a b, lt a b = false) (sorted_desc lt l).
Proof.
  induction l as [| x l IH]; simpl; [constructor |].
  by apply insert_desc_sorted.
Qed.
End sorted_desc.

Lemma StronglySorted_lookup_lt {A} (R : A → A → Prop) (l : list A) i j a b :
  StronglySorted R l → (i < j)%nat → l !! i = Some a → l !! j = Some b → R a b.
Proof.
  intros Hs. revert i j. induction Hs as [| x l Hl IH Hx]; intros i j Hij Hi Hj.
  - by rewrite lookup_nil in Hi.
  - destruct j as [| j]; [lia |]. simpl in Hj. destruct i as [| i]; simpl in Hi.
    + simplify_eq. rewrite Forall_forall in Hx.
      by eapply Hx, list_elem_of_lookup_2.
    + eapply (IH i j); [lia | done | done].
Qed.

(** ** assign_ring_ids *)

Lemma ranked_positions_fst rings : ranked_positions rings = fst <$> ranked rings.
Proof. done. Qed.

Lemma ranked_Permutation rings : ranked rings ≡ₚ imap pair rings.
Proof. apply sorted_desc_Permutation. Qed.

Lemma ranked_elem rings i r :
  (i, r) ∈ ranked rings ↔ rings !! i = Some r.
Proof.
  rewrite ranked_Permutation, elem_of_lookup_imap. split.
  - intros (j & x & [= -> ->] & ?). done.
  - intros ?. by exists i, r.
Qed.

Lemma ranked_positions_Permutation rings :
  ranked_positions rings ≡ₚ seq 0 (length rings).
Proof.
  rewrite ranked_positions_fst, ranked_Permutation, fmap_imap.
  rewrite <- (list_fmap_id (seq 0 (length rings))), <- (imap_seq_0 rings id).
  done.
Qed.

Lemma ranked_descending rings k1 k2 p1 p2 :
  (k1 < k2)%nat → ranked rings !! k1 = Some p1 → ranked rings !! k2 = Some p2 →
  FraudRing.risk_score p2.2 ≤ FraudRing.risk_score p1.2.
Proof.
  intros Hk H1 H2.
  assert ((FraudRing.risk_score p1.2 <? FraudRing.risk_score p2.2) = false) as Hlt.
  { apply (StronglySorted_lookup_lt
             (λ a b : nat * FraudRing.t,
                (FraudRing.risk_score a.2 <? FraudRing.risk_score b.2) = false)
             (ranked rings) k1 k2 p1 p2); [| done..].
    apply sorted_desc_sorted.
    - intros a b. rewrite Z.ltb_lt, Z.ltb_ge. lia.
    - intros a b c. rewrite !Z.ltb_ge. lia. }
  apply Z.ltb_ge in Hlt. done.
Qed.

(** ** The sort is stable: elements with equal keys keep their order *)

Lemma StronglySorted_weaken {A} (R1 R2 : A → A → Prop) (l : list A) :
  (∀ a b, R1 a b → R2 a b) → StronglySorted R1 l → StronglySorted R2 l.
Proof.
  intros Himpl. induction 1 as [| x l Hl IH Hx]; constructor; [done |].
  eapply Forall_impl; [exact Hx |]. intros b. apply Himpl.
Qed.

Section sorted_desc_stable.
Context {A : Type} (lt : A → A → bool) (T : A → A → Prop).
Hypothesis lt_asym : ∀ a b, lt a b = true → lt b a = false.
Hypothesis ge_trans : ∀ a b c, lt a b = false → lt b c = false → lt a c = false.

Local Abbreviation before :=
  (λ a b, lt a b = false ∧ (lt b a = false → T a b)).

Lemma insert_desc_stable x l :
  Forall (T x) l → StronglySorted before l →
  StronglySorted before (insert_desc lt x l).
Proof.
  intros Hx. induction 1 as [| y l Hl IH Hy]; simpl.
  - by repeat constructor.
  - apply Forall_cons in Hx as [Hxy Hxl]. destruct (lt x y) eqn:Hlt.
    + constructor; [by apply IH |]. rewrite insert_desc_Permutation.
      constructor; [| done]. split; [by apply lt_asym | congruence].
    + constructor; [by constructor |].
      constructor; [done |].
      rewrite Forall_forall in Hy, Hxl. apply Forall_forall. intros z Hz.
      split; [| intros _; by apply Hxl].
      destruct (Hy z Hz) as [Hyz _]. by eapply ge_trans.
Qed.

Lemma sorted_desc_stable l :
  StronglySorted T l → StronglySorted before (sorted_desc lt l).
Proof.
  induction 1 as [| x l Hl IH Hx]; simpl; [constructor |].
  apply insert_desc_stable; [| done]. by rewrite sorted_desc_Permutation.
Qed.
End sorted_desc_stable.

Lemma StronglySorted_lookups {A} (R : A → A → Prop) (l : list A) :
  (∀ i j a b, (i < j)%nat → l !! i = Some a → l !! j = Some b → R a b) →
  StronglySorted R l.
Proof.
  induction l as [| x l IH]; intros Hl; constructor.
  - apply IH. intros i j a b Hij Ha Hb. by apply (Hl (S i) (S j)); [lia | |].
  - apply Forall_forall. intros b [j Hj]%list_elem_of_lookup.
    by apply (Hl 0%nat (S j)); [lia | |].
Qed.

Lemma ranked_stable rings :
  StronglySorted
    (λ a b : nat * FraudRing.t,
       FraudRing.risk_score b.2 ≤ FraudRing.risk_score a.2 ∧
       (FraudRing.risk_score a.2 ≤ FraudRing.risk_score b.2 → (a.1 < b.1)%nat))
    (ranked rings).
Proof.
  eapply StronglySorted_weaken;
    [| apply (sorted_desc_stable
                (λ a b : nat * FraudRing.t,
                   FraudRing.risk_score a.2 <? FraudRing.risk_score b.2)
                (λ a b, (a.1 < b.1)%nat))].
  - intros a b. simpl. rewrite !Z.ltb_ge. tauto.
  - intros a b. rewrite Z.ltb_lt, Z.ltb_ge. lia.
  - intros a b c. rewrite !Z.ltb_ge. lia.
  - apply StronglySorted_lookups. intros i j a b Hij.
    rewrite !list_lookup_imap.
    intros (x & Hx & ->)%fmap_Some (y & Hy & ->)%fmap_Some. done.
Qed.

Lemma relabel_fold_other items rings idx :
  idx ∉ (snd <$> items) →
  fold_left relabel_step items rings !! idx = rings !! idx.
Proof.
  revert rings. induction items as [| it items IH]; intros rings Hnot; [done |].
  rewrite fmap_cons, not_elem_of_cons in Hnot. destruct Hnot as [Hne Hnot].
  simpl. rewrite IH by done.
  unfold relabel_step. by apply list_lookup_alter_ne.
Qed.

Lemma relabel_fold_at items rings k idx :
  NoDup (snd <$> items) → (k, idx) ∈ items →
  fold_left relabel_step items rings !! idx =
  FraudRing.with_ring_id (format_ring_id k) <$> rings !! idx.
Proof.
  revert rings. induction items as [| it items IH]; intros rings Hnd Hin.
  - by apply elem_of_nil in Hin.
  - rewrite fmap_cons in Hnd. apply NoDup_cons in Hnd as [Hit Hnd].
    simpl. apply elem_of_cons in Hin as [<- | Hin].
    + rewrite relabel_fold_other by done.
      unfold relabel_step. simpl. apply list_lookup_alter_eq.
    + rewrite IH by done. unfold relabel_step.
      rewrite list_lookup_alter_ne; [done |].
      intros Heq. apply Hit. rewrite Heq.
      by apply (list_elem_of_fmap_2 snd _ (k, idx)).
Qed.

Lemma relabel_fold_relabelled items rings :
  Forall2 relabelled rings (fold_left relabel_step items rings).
Proof.
  assert (Forall2 relabelled rings rings) as Hrefl.
  { apply Forall2_same_length_lookup. split; [done |].
    intros i r r' H1 H2. assert (r = r') as -> by congruence.
    by destruct r'. }
  revert Hrefl. generalize rings at 1 3 as orig. revert rings.
  induction items as [| it items IH]; intros rings orig H; [done |].
  simpl. apply IH. unfold relabel_step.
  apply Forall2_same_length_lookup. split.
  - rewrite length_alter. by eapply Forall2_length.
  - intros i r r' H1 H2.
    destruct (decide (it.2 = i)) as [<- | Hne].
    + rewrite list_lookup_alter_eq in H2.
      apply fmap_Some in H2 as (r0 & H2 & ->).
      pose proof (Forall2_lookup_lr _ _ _ _ _ _ H H1 H2) as Hr.
      unfold relabelled in *. rewrite Hr. done.
    + rewrite list_lookup_alter_ne in H2 by done.
      by eapply Forall2_lookup_lr.
Qed.

Lemma assign_ring_ids_fold rings :
  assign_ring_ids rings =
  fold_left relabel_step
    (zip (seq 1 (length rings)) (ranked_positions rings)) rings.
Proof. done. Qed.

Lemma assign_ring_ids_relabelled rings :
  Forall2 relabelled rings (assign_ring_ids rings).
Proof. rewrite assign_ring_ids_fold. apply relabel_fold_relabelled. Qed.

Lemma assign_ring_ids_rank rings k idx :
  ranked_positions rings !! k = Some idx →
  assign_ring_ids rings !! idx =
  FraudRing.with_ring_id (format_ring_id (S k)) <$> rings !! idx.
Proof.
  intros Hk. rewrite assign_ring_ids_fold.
  pose proof (ranked_positions_Permutation rings) as Hperm.
  assert (length (ranked_positions rings) = length rings) as Hlen.
  { by rewrite Hperm, length_seq. }
  apply relabel_fold_at.
  - rewrite snd_zip; [| rewrite length_seq; lia].
    rewrite Hperm. apply NoDup_seq.
  - apply (list_elem_of_lookup_2 _ k). apply lookup_zip_Some. split; [| done].
    apply lookup_seq. split; [done |].
    apply lookup_lt_Some in Hk. lia.
Qed.

(** ** The sliding window of detect_smurfing *)

Lemma advance_spec (window ti : Z) (rest : list Z) (j : nat) :
  let j' := advance window ti rest j in
  (j ≤ j' ≤ j + length rest)%nat ∧
  (∀ k tk, (k < j' - j)%nat → rest !! k = Some tk → tk - ti ≤ window) ∧
  (∀ t, rest !! (j' - j)%nat = Some t → window < t - ti).
Proof.
  revert j. induction rest as [| tj rest IH]; intros j; simpl.
  - split; [lia | split; [intros k tk ?; lia | by rewrite Nat.sub_diag]].
  - case_bool_decide as Hle.
    + destruct (IH (S j)) as (Hb & Hin & Hout). split; [lia | split].
      * intros [| k] tk Hk Hl; simpl in Hl; [by simplify_eq |].
        apply (Hin k); [lia | done].
      * intros t. replace (advance window ti rest (S j) - j)%nat
          with (S (advance window ti rest (S j) - S j)) by lia.
        simpl. apply Hout.
    + split; [lia | split; [intros k tk ?; lia |]].
      rewrite Nat.sub_diag. simpl. intros t [= <-]. lia.
Qed.

Lemma is_window_unique window ts i j1 j2 :
  is_window window ts i j1 → is_window window ts i j2 → j1 = j2.
Proof.
  intros (t1 & Hi1 & Hb1 & Hin1 & Hout1) (t2 & Hi2 & Hb2 & Hin2 & Hout2).
  assert (t1 = t2) as <- by congruence.
  destruct (Nat.lt_trichotomy j1 j2) as [Hlt | [-> | Hlt]]; [| done |]; exfalso.
  - destruct (lookup_lt_is_Some_2 ts j1) as [t Ht]; [lia |].
    pose proof (Hout1 t Ht). pose proof (Hin2 j1 t ltac:(lia) Ht). lia.
  - destruct (lookup_lt_is_Some_2 ts j2) as [t Ht]; [lia |].
    pose proof (Hout2 t Ht). pose proof (Hin1 j2 t ltac:(lia) Ht). lia.
Qed.

Section scan.
Context (fan_threshold window : Z) (ts : list Z).
Hypothesis ts_sorted : StronglySorted Z.le ts.
Hypothesis window_nonneg : 0 ≤ window.

Lemma sorted_lookup_le i k ti tk :
  (i ≤ k)%nat → ts !! i = Some ti → ts !! k = Some tk → ti ≤ tk.
Proof.
  intros Hik Hi Hk. destruct (decide (i = k)) as [-> | Hne].
  - assert (ti = tk) by congruence. lia.
  - apply (StronglySorted_lookup_lt Z.le ts i k); [done | lia | done | done].
Qed.

Lemma scan_spec from_i i j :
  from_i = drop i ts →
  (i ≤ j ≤ length ts)%nat ∨ (j ≤ length ts ∧ length ts ≤ i)%nat →
  (∀ ti k tk, ts !! i = Some ti → (i ≤ k < j)%nat → ts !! k = Some tk →
              tk - ti ≤ window) →
  (∀ i' j', (i' < i)%nat → is_window window ts i' j' →
            Z.of_nat j' - Z.of_nat i' < fan_threshold) →
  match scan fan_threshold window ts from_i i j with
  | Some (a, b) => first_window fan_threshold window ts a b
  | None => ∀ i' j', is_window window ts i' j' →
                     Z.of_nat j' - Z.of_nat i' < fan_threshold
  end.
Proof.
  revert i j. induction from_i as [| ti rest IH]; intros i j Hdrop Hij Hin Hprev.
  - simpl. intros i' j' Hw. apply Hprev; [| done].
    destruct Hw as (t & Ht & _). apply lookup_lt_Some in Ht.
    apply (f_equal length) in Hdrop. rewrite length_drop in Hdrop.
    simpl in Hdrop. lia.
  - assert (ts !! i = Some ti) as Hi.
    { pose proof (lookup_drop ts i 0) as H0.
      rewrite <- Hdrop, Nat.add_0_r in H0. done. }
    assert (rest = drop (S i) ts) as Hrest.
    { rewrite (drop_S _ _ _ Hi) in Hdrop. congruence. }
    pose proof (lookup_lt_Some _ _ _ Hi) as Hilen.
    destruct Hij as [Hij | Hij]; [| lia].
    cbn [scan].
    destruct (advance_spec window ti (drop j ts) j) as (Hb & Ha & Hout).
    set (j' := advance window ti (drop j ts) j) in *.
    rewrite length_drop in Hb.
    assert (is_window window ts i j') as Hwin.
    { exists ti. split; [done | split; [lia | split]].
      - intros k tk Hk Hlk. destruct (decide (k < j)%nat) as [Hkj | Hkj].
        + apply (Hin ti k tk); [done | lia | done].
        + apply (Ha (k - j)%nat tk); [lia |].
          rewrite lookup_drop. by replace (j + (k - j))%nat with k by lia.
      - intros tj Hj. apply Hout. rewrite lookup_drop.
        by replace (j + (j' - j))%nat with j' by lia. }
    assert (i < j')%nat as Hlt.
    { destruct (decide (i < j')%nat); [done | exfalso].
      assert (j' = i) as Heq by lia.
      destruct Hwin as (t & Ht & _ & _ & Ho).
      rewrite Heq in Ho. specialize (Ho t Ht). lia. }
    case_bool_decide as Hthr.
    + split; [done | split; [lia | done]].
    + apply IH; [done | lia | |].
      * intros ti' k tk Hi' Hk Hlk.
        destruct Hwin as (t & Ht & _ & Hw & _).
        assert (t = ti) as -> by congruence.
        pose proof (Hw k tk ltac:(lia) Hlk).
        pose proof (sorted_lookup_le i (S i) ti ti' ltac:(lia) Hi Hi'). lia.
      * intros i' j'' Hi' Hw'.
        destruct (decide (i' = i)) as [-> | Hne]; [| apply Hprev; [lia | done]].
        rewrite (is_window_unique _ _ _ _ _ Hw' Hwin). lia.
Qed.

Lemma sliding_window_spec :
  match sliding_window fan_threshold window ts with
  | Some (i, j) => first_window fan_threshold window ts i j
  | None => ∀ i j, is_window window ts i j →
                   Z.of_nat j - Z.of_nat i < fan_threshold
  end.
Proof.
  apply scan_spec.
  - by rewrite drop_0.
  - left. lia.
  - intros ti k tk _ Hk. lia.
  - intros i' j' Hi'. lia.
Qed.
End scan.

Lemma sorted_timestamps_sorted es : StronglySorted Z.le (sorted_timestamps es).
Proof. apply (StronglySorted_merge_sort Z.le). Qed.

Lemma sliding_window_first es i j :
  sliding_window 10 (timedelta_hours 72) (sorted_timestamps es) = Some (i, j) →
  first_window 10 (timedelta_hours 72) (sorted_timestamps es) i j.
Proof.
  intros Hsw.
  pose proof (sliding_window_spec 10 (timedelta_hours 72) (sorted_timestamps es)
                (sorted_timestamps_sorted es) ltac:(done)) as Hspec.
  by rewrite Hsw in Hspec.
Qed.

(** ** Account bookkeeping: ensure and credit *)

Lemma ensure_ids acc_id accounts :
  AccountScore.account_id <$> ensure acc_id accounts =
  if decide (acc_id ∈ (AccountScore.account_id <$> accounts))
  then AccountScore.account_id <$> accounts
  else (AccountScore.account_id <$> accounts) ++ [acc_id].
Proof. unfold ensure. case_decide; [done |]. by rewrite fmap_app. Qed.

Lemma credit_ids acc_id score rs accounts :
  AccountScore.account_id <$> credit acc_id score rs accounts =
  AccountScore.account_id <$> ensure acc_id accounts.
Proof.
  unfold credit. rewrite <- list_fmap_compose. apply list_fmap_ext.
  intros i a _. simpl. by case_decide.
Qed.

Lemma credit_elem_ids acc_id score rs accounts x :
  x ∈ (AccountScore.account_id <$> credit acc_id score rs accounts) ↔
  x = acc_id ∨ x ∈ (AccountScore.account_id <$> accounts).
Proof.
  rewrite credit_ids, ensure_ids. case_decide as Hin.
  - split; [by right | intros [-> | ?]; done].
  - rewrite elem_of_app, list_elem_of_singleton. tauto.
Qed.

Lemma credit_ids_NoDup acc_id score rs accounts :
  NoDup (AccountScore.account_id <$> accounts) →
  NoDup (AccountScore.account_id <$> credit acc_id score rs accounts).
Proof.
  intros Hnd. rewrite credit_ids, ensure_ids. case_decide as Hin; [done |].
  apply NoDup_app. split; [done | split; [| apply NoDup_singleton]].
  intros x Hx ->%list_elem_of_singleton. done.
Qed.

Lemma credit_ok (S : string → Prop) acc_id score rs accounts :
  (0 <= score)%Q → S acc_id →
  Forall (score_ok S) accounts →
  Forall (score_ok S) (credit acc_id score rs accounts).
Proof.
  intros Hs Hid Hok. unfold credit. apply Forall_fmap.
  assert (Forall (score_ok S) (ensure acc_id accounts)) as Hens.
  { unfold ensure. case_decide; [done |]. apply Forall_app. split; [done |].
    apply Forall_singleton. split; [simpl; apply Qle_refl | done]. }
  eapply Forall_impl; [exact Hens |]. intros a [Ha Hin]. simpl.
  case_decide as Heq; [| done]. split; simpl; [| done].
  rewrite <- (Qplus_0_r 0). by apply Qplus_le_compat.
Qed.

Lemma add_reason_ok (S : string → Prop) acc_id score reason accounts :
  (0 <= score)%Q → S acc_id →
  Forall (score_ok S) accounts →
  Forall (score_ok S) (add_reason acc_id score reason accounts).
Proof. apply credit_ok. Qed.

Lemma add_reason_fold_ok (S : string → Prop) score reason ids accounts :
  (0 <= score)%Q → Forall S ids →
  Forall (score_ok S) accounts →
  Forall (score_ok S)
    (fold_left (λ sc s, add_reason s score reason sc) ids accounts).
Proof.
  intros Hs Hids. revert accounts.
  induction Hids as [| x ids Hx Hids IH]; intros accounts Hok; simpl; [done |].
  apply IH. by apply add_reason_ok.
Qed.

(** ** detect_smurfing *)

Lemma scan_threshold fan_threshold window ts from_i i j a b :
  scan fan_threshold window ts from_i i j = Some (a, b) →
  fan_threshold ≤ Z.of_nat b - Z.of_nat a.
Proof.
  revert i j. induction from_i as [| ti rest IH]; intros i j; simpl; [done |].
  case_bool_decide as Hthr; [| apply IH].
  by intros [= <- <-].
Qed.

Lemma sliding_window_threshold fan_threshold window ts i j :
  sliding_window fan_threshold window ts = Some (i, j) →
  fan_threshold ≤ Z.of_nat j - Z.of_nat i.
Proof. apply scan_threshold. Qed.

Lemma elem_of_index_range {A} (l : list A) i j x :
  x ∈ index_range l i j → x ∈ l.
Proof.
  unfold index_range. intros Hx.
  by eapply subseteq_drop, subseteq_take.
Qed.

Section smurf_pass.
Context (fan_threshold window : Z)
        (view : string → list Edge) (side : Edge → string)
        (pattern : PatternType) (mk_details : string → Z → Details)
        (hub_reason : Z → Reason) (party_reason : Reason).

Let step := smurf_node fan_threshold window view side pattern mk_details
              hub_reason party_reason.
Let ring_of := smurf_ring fan_threshold window view side pattern mk_details.

Lemma smurf_node_rings st node :
  (step st node).1 = st.1 ++ option_list (ring_of node).
Proof.
  unfold step, ring_of, smurf_node, smurf_ring.
  case_bool_decide; [| by rewrite app_nil_r].
  destruct (sliding_window _ _ _) as [[i j] |]; [done | by rewrite app_nil_r].
Qed.

Lemma smurf_fold_rings ns st :
  (fold_left step ns st).1 = st.1 ++ omap ring_of ns.
Proof.
  revert st. induction ns as [| n ns IH]; intros st; simpl.
  - by rewrite app_nil_r.
  - rewrite IH, smurf_node_rings, <- app_assoc. f_equal.
    by destruct (ring_of n).
Qed.

Lemma smurf_ring_ok (S : string → Prop) node r :
  S node → (∀ e, e ∈ view node → S (side e)) →
  ring_of node = Some r → ring_ok S r.
Proof.
  intros Hnode Hside. unfold ring_of, smurf_ring.
  case_bool_decide; [| done].
  destruct (sliding_window _ _ _) as [[i j] |] eqn:Hsw; [| done].
  intros [= <-]. apply sliding_window_threshold in Hsw.
  split; simpl; [lia |]. apply Forall_forall. intros m.
  rewrite elem_of_elements, elem_of_union, elem_of_list_to_set, elem_of_singleton.
  intros [(e & -> & He)%list_elem_of_fmap | ->]; [| done].
  by eapply Hside, elem_of_index_range.
Qed.

Lemma smurf_node_scores_ok (S : string → Prop) st node :
  S node → (∀ e, e ∈ view node → S (side e)) →
  Forall (score_ok S) st.2 → Forall (score_ok S) (step st node).2.
Proof.
  intros Hnode Hside Hok. unfold step, smurf_node.
  case_bool_decide; [| done].
  destruct (sliding_window _ _ _) as [[i j] |] eqn:Hsw; [| done].
  apply sliding_window_threshold in Hsw. simpl.
  assert (0 <= inject_Z (70 + (Z.of_nat j - Z.of_nat i - fan_threshold) * 2))%Q
    as Hscore.
  { change 0%Q with (inject_Z 0). rewrite <- Zle_Qle. lia. }
  apply add_reason_fold_ok.
  - apply Qmult_le_0_compat; [done | done].
  - apply Forall_forall. intros m.
    rewrite elem_of_elements, elem_of_list_to_set.
    intros (e & -> & He)%list_elem_of_fmap.
    by eapply Hside, elem_of_index_range.
  - apply add_reason_ok; [| done | done].
    apply Qmult_le_0_compat; [done | done].
Qed.

Lemma smurf_fold_scores_ok (S : string → Prop) nodes st :
  Forall S nodes →
  (∀ node e, e ∈ view node → S (side e)) →
  Forall (score_ok S) st.2 →
  Forall (score_ok S) (fold_left step nodes st).2.
Proof.
  intros Hnodes Hside. revert st.
  induction Hnodes as [| n nodes Hn Hnodes IH]; intros st Hok; simpl; [done |].
  apply IH. apply smurf_node_scores_ok; [done | | done].
  intros e. apply Hside.
Qed.
End smurf_pass.

Lemma smurf_ring_inv fan_threshold window view side pattern mk_details node r :
  smurf_ring fan_threshold window view side pattern mk_details node = Some r →
  FraudRing.pattern_type r = pattern ∧
  ∃ i j,
    sliding_window fan_threshold window (sorted_timestamps (view node)) = Some (i, j) ∧
    FraudRing.details r = mk_details node (Z.of_nat j - Z.of_nat i) ∧
    FraudRing.risk_score r = 70 + (Z.of_nat j - Z.of_nat i - fan_threshold) * 2 ∧
    FraudRing.members r =
      elements (list_to_set (side <$> index_range (view node) i j)
                ∪ ({[node]} : gset string)).
Proof.
  unfold smurf_ring. case_bool_decide; [| done].
  fold (sorted_timestamps (view node)).
  destruct (sliding_window _ _ _) as [[i j] |] eqn:Hsw; [| done].
  intros [= <-]. split; [done |]. by exists i, j.
Qed.

Lemma detect_smurfing_rings g :
  (detect_smurfing g).1 =
  omap (fan_in_ring g) (nodes g) ++ omap (fan_out_ring g) (nodes g).
Proof.
  unfold detect_smurfing, detect_smurfing_with, fan_in_node, fan_out_node.
  by rewrite !smurf_fold_rings.
Qed.

Lemma omap_hub_elem (f : string → option FraudRing.t) (p : PatternType)
    (ns : list string) h :
  (∀ n r, f n = Some r → ring_hub r = Some (p, n)) →
  h ∈ (ring_hub <$> omap f ns) → ∃ n, n ∈ ns ∧ h = Some (p, n).
Proof.
  intros Hf (r & -> & (n & Hn & Hr)%list_elem_of_omap)%list_elem_of_fmap.
  exists n. split; [done |]. by apply Hf.
Qed.

Lemma omap_hub_NoDup (f : string → option FraudRing.t) (p : PatternType)
    (ns : list string) :
  NoDup ns →
  (∀ n r, f n = Some r → ring_hub r = Some (p, n)) →
  NoDup (ring_hub <$> omap f ns).
Proof.
  intros Hnd Hf. induction Hnd as [| n ns Hn Hnd IH]; simpl; [constructor |].
  destruct (f n) as [r |] eqn:Hr; simpl; [| done].
  constructor; [| done].
  intros (m & Hm & Heq)%(omap_hub_elem f p); [| done].
  rewrite (Hf n r Hr) in Heq. by simplify_eq.
Qed.

Lemma fan_in_ring_hub g n r :
  fan_in_ring g n = Some r → ring_hub r = Some (smurfing_fan_in, n).
Proof.
  intros (_ & i & j & _ & Hd & _)%smurf_ring_inv. unfold ring_hub. by rewrite Hd.
Qed.

Lemma fan_out_ring_hub g n r :
  fan_out_ring g n = Some r → ring_hub r = Some (smurfing_fan_out, n).
Proof.
  intros (_ & i & j & _ & Hd & _)%smurf_ring_inv. unfold ring_hub. by rewrite Hd.
Qed.

Lemma detect_smurfing_hubs_NoDup g :
  NoDup (nodes g) → NoDup (ring_hub <$> (detect_smurfing g).1).
Proof.
  intros Hnd. rewrite detect_smurfing_rings, fmap_app. apply NoDup_app.
  split; [| split].
  - apply (omap_hub_NoDup _ smurfing_fan_in); [done | apply fan_in_ring_hub].
  - intros h (n & _ & ->)%(omap_hub_elem _ smurfing_fan_in); [| apply fan_in_ring_hub].
    intros (m & _ & [=])%(omap_hub_elem _ smurfing_fan_out); apply fan_out_ring_hub.
  - apply (omap_hub_NoDup _ smurfing_fan_out); [done | apply fan_out_ring_hub].
Qed.

(** C5: [detect_smurfing] emits at most one fan-in ring per receiver and
    at most one fan-out ring per sender, and the ring of a node is the one
    of the first window start index, in ascending order, whose cluster
    size reaches the threshold of 10 within 72 hours. *)
Theorem detect_smurfing_first_window_per_node (g : DiGraph) (N : string) :
  NoDup (nodes g) →
  let rings := (detect_smurfing g).1 in
  (∀ a b ra rb ca cb,
     rings !! a = Some ra → rings !! b = Some rb →
     FraudRing.details ra = DetailsFanIn N ca →
     FraudRing.details rb = DetailsFanIn N cb → a = b) ∧
  (∀ a b ra rb ca cb,
     rings !! a = Some ra → rings !! b = Some rb →
     FraudRing.details ra = DetailsFanOut N ca →
     FraudRing.details rb = DetailsFanOut N cb → a = b) ∧
  (∀ r c, r ∈ rings → FraudRing.details r = DetailsFanIn N c →
     FraudRing.pattern_type r = smurfing_fan_in ∧
     ∃ i j, c = Z.of_nat j - Z.of_nat i ∧
            first_window 10 (timedelta_hours 72)
              (sorted_timestamps (in_edges g N)) i j) ∧
  (∀ r c, r ∈ rings → FraudRing.details r = DetailsFanOut N c →
     FraudRing.pattern_type r = smurfing_fan_out ∧
     ∃ i j, c = Z.of_nat j - Z.of_nat i ∧
            first_window 10 (timedelta_hours 72)
              (sorted_timestamps (out_edges g N)) i j).
Proof.
  intros Hnd rings. pose proof (detect_smurfing_hubs_NoDup g Hnd) as Hhubs.
  fold rings in Hhubs.
  assert (∀ r, r ∈ rings →
            (∃ n, fan_in_ring g n = Some r) ∨ (∃ n, fan_out_ring g n = Some r))
    as Horigin.
  { intros r. unfold rings. rewrite detect_smurfing_rings, elem_of_app.
    rewrite !list_elem_of_omap. intros [(n & _ & ?) | (n & _ & ?)]; eauto. }
  split; [| split; [| split]].
  - intros a b ra rb ca cb Ha Hb Hda Hdb.
    apply (NoDup_lookup _ a b (Some (smurfing_fan_in, N)) Hhubs);
      rewrite list_lookup_fmap; [rewrite Ha | rewrite Hb]; simpl;
      unfold ring_hub; [by rewrite Hda | by rewrite Hdb].
  - intros a b ra rb ca cb Ha Hb Hda Hdb.
    apply (NoDup_lookup _ a b (Some (smurfing_fan_out, N)) Hhubs);
      rewrite list_lookup_fmap; [rewrite Ha | rewrite Hb]; simpl;
      unfold ring_hub; [by rewrite Hda | by rewrite Hdb].
  - intros r c Hr Hd.
    destruct (Horigin r Hr) as [[n Hn] | [n Hn]];
      apply smurf_ring_inv in Hn as (Hp & i & j & Hsw & Hd' & _ & _);
      rewrite Hd in Hd'; [| done].
    injection Hd' as -> ->. split; [done |].
    exists i, j. split; [done |]. by apply sliding_window_first.
  - intros r c Hr Hd.
    destruct (Horigin r Hr) as [[n Hn] | [n Hn]];
      apply smurf_ring_inv in Hn as (Hp & i & j & Hsw & Hd' & _ & _);
      rewrite Hd in Hd'; [done |].
    injection Hd' as -> ->. split; [done |].
    exists i, j. split; [done |]. by apply sliding_window_first.
Qed.

(** ** detect_shell_chains *)

Lemma shell_push_app g current path stack :
  shell_push g current path stack = shell_push g current path [] ++ stack.
Proof.
  unfold shell_push. generalize (out_edges g current). intros es.
  change stack with ([] ++ stack) at 1. generalize (@nil (string * list string)).
  induction es as [| e es IH]; intros acc; simpl; [done |].
  case_decide; [apply IH | apply (IH (_ :: acc))].
Qed.

Lemma shell_push_entries g current path entry :
  entry ∈ shell_push g current path [] →
  ∃ e, e ∈ adj g ∧ entry = (edge_target e, path ++ [edge_target e]).
Proof.
  unfold shell_push, out_edges.
  assert (∀ es acc,
            (∀ e, e ∈ es → e ∈ adj g) →
            (∀ en, en ∈ acc → ∃ e, e ∈ adj g ∧ en = (edge_target e, path ++ [edge_target e])) →
            ∀ en, en ∈ fold_left
                (λ (stk : Stack) (e : Edge),
                   let neigh := edge_target e in
                   if decide (neigh ∈ path) then stk
                   else (neigh, path ++ [neigh]) :: stk) es acc →
              ∃ e, e ∈ adj g ∧ en = (edge_target e, path ++ [edge_target e])) as Hgen.
  { induction es as [| e es IH]; intros acc Hes Hacc en; simpl; [apply Hacc |].
    apply IH; [intros e' He'; apply Hes; by right |].
    case_decide; [done |]. intros en' [-> | Hin]%elem_of_cons; [| by apply Hacc].
    exists e. split; [apply Hes; left | done]. }
  apply Hgen.
  - intros e [_ ?]%list_elem_of_filter. done.
  - intros en Hen. by apply elem_of_nil in Hen.
Qed.

Section shell_invariant.
Context (min_hops max_hops : Z) (low : gset string) (g : DiGraph).
Context (P : ShellState → Prop) (Q : list string → Prop).
Hypothesis visit_P :
  ∀ path st, Q path → P st → P (shell_visit min_hops low path st).
Hypothesis extend_Q :
  ∀ path e, Q path → e ∈ adj g → Q (path ++ [edge_target e]).

Lemma shell_dfs_preserves k current path st :
  Q path → P st → P (shell_dfs min_hops max_hops low g k current path st).
Proof.
  revert current path st. induction k as [| k IH]; intros current path st HQ HP;
    simpl; [done |].
  case_bool_decide; [done |].
  assert (∀ entries st',
            Forall (λ en : string * list string, Q en.2) entries → P st' →
            P (fold_left
                 (λ st en, shell_dfs min_hops max_hops low g k en.1 en.2 st)
                 entries st')) as Hfold.
  { induction entries as [| en entries IHe]; intros st' Hen HP'; simpl; [done |].
    apply Forall_cons in Hen as [Hq Hen]. apply IHe; [done |]. by apply IH. }
  apply Hfold; [| by apply visit_P].
  apply Forall_forall. intros en (e & He & ->)%shell_push_entries. simpl.
  by apply extend_Q.
Qed.

Lemma detect_shell_fold_preserves k starts st :
  (∀ s, s ∈ starts → Q [s]) → P st →
  P (fold_left
       (λ st start, shell_dfs min_hops max_hops low g k start [start] st)
       starts st).
Proof.
  revert st. induction starts as [| s starts IH]; intros st Hs HP; simpl; [done |].
  apply IH; [intros s' Hs'; apply Hs; by right |].
  apply shell_dfs_preserves; [apply Hs; left | done].
Qed.
End shell_invariant.

Lemma shell_visit_cases min_hops low path st :
  shell_visit min_hops low path st = st ∨
  (interior path ≠ [] ∧ Forall (λ node, node ∈ low) (interior path) ∧
   2 < Z.of_nat (length path) ∧
   shell_visit min_hops low path st = shell_emit path st).
Proof.
  unfold shell_visit. case_bool_decide as Hlen; [| by left].
  case_bool_decide as Hint; [| by left].
  case_decide; [by left |]. right. destruct Hint, Hlen. done.
Qed.

Lemma shell_rings_shape min_hops max_hops thr g r :
  r ∈ (detect_shell_chains_with min_hops max_hops thr g).1 →
  shell_ring_shape (low_activity_nodes thr g) r.
Proof.
  unfold detect_shell_chains_with. simpl.
  set (low := low_activity_nodes thr g).
  assert (Forall (shell_ring_shape low)
            (shell_rings
               (fold_left
                  (λ st start,
                     shell_dfs min_hops max_hops low g (Z.to_nat (max_hops + 2))
                       start [start] st)
                  (nodes g) (mkShellState [] [] ∅)))) as Hall.
  { apply (detect_shell_fold_preserves min_hops max_hops low g
             (λ st, Forall (shell_ring_shape low) (shell_rings st))
             (λ _, True)); [| done | done | constructor].
    intros path st _ Hst.
    destruct (shell_visit_cases min_hops low path st) as [-> | (Hne & Hlow & _ & ->)];
      [done |].
    simpl. apply Forall_app. split; [done |]. apply Forall_singleton.
    split; [done |]. by exists path. }
  rewrite Forall_forall in Hall. apply Hall.
Qed.

Lemma elem_of_low_activity_nodes thr g n :
  n ∈ low_activity_nodes thr g ↔ n ∈ nodes g ∧ activity g n ≤ thr.
Proof.
  unfold low_activity_nodes. rewrite elem_of_list_to_set, list_elem_of_filter. tauto.
Qed.

(** The [while stack:] loop run from a stack whose top is
    [(current, path)] pops that entry and all it pushes, and reaches the
    state that [shell_dfs] computes; the hop bound makes the depth budget
    sufficient. *)
Lemma shell_dfs_run min_hops max_hops low g k current path st rest :
  max_hops + 2 < Z.of_nat (k + length path) →
  shell_steps min_hops max_hops low g
    ((current, path) :: rest, st)
    (rest, shell_dfs min_hops max_hops low g k current path st).
Proof.
  unfold shell_steps.
  revert current path st rest. induction k as [| k IH]; intros current path st rest Hk.
  - apply rtc_once. unfold shell_step. simpl.
    rewrite bool_decide_eq_true_2 by lia. done.
  - simpl. case_bool_decide as Hhop.
    + apply rtc_once. unfold shell_step. simpl.
      by rewrite bool_decide_eq_true_2.
    + eapply rtc_l.
      { unfold shell_step. simpl. rewrite bool_decide_eq_false_2 by done. done. }
      rewrite shell_push_app.
      assert (Forall (λ en : string * list string, length en.2 = S (length path))
                (shell_push g current path [])) as Hlen.
      { apply Forall_forall. intros en (e & _ & ->)%shell_push_entries. simpl.
        rewrite length_app. simpl. lia. }
      revert Hlen. generalize (shell_visit min_hops low path st).
      generalize (shell_push g current path []).
      induction l as [| [c p] l IHl]; intros st' Hlen; simpl; [apply rtc_refl |].
      apply Forall_cons in Hlen as [Hp Hlen]. simpl in Hp.
      etrans; [apply IH; lia |]. by apply IHl.
Qed.

Lemma shell_loop_terminates min_hops max_hops low g start st :
  shell_steps min_hops max_hops low g
    ([(start, [start])], st)
    ([], shell_dfs min_hops max_hops low g (Z.to_nat (max_hops + 2)) start [start] st) ∧
  shell_step min_hops max_hops low g
    ([], shell_dfs min_hops max_hops low g (Z.to_nat (max_hops + 2)) start [start] st)
  = None.
Proof.
  split; [| done]. apply shell_dfs_run. simpl. lia.
Qed.

(** Members and evidence of shell chains are nodes, with scores that are
    not negative. *)
Lemma dict_fromkeys_elem path x : x ∈ dict_fromkeys path → x ∈ path.
Proof.
  unfold dict_fromkeys.
  assert (∀ acc, x ∈ fold_left
            (λ acc y, if decide (y ∈ acc) then acc else acc ++ [y]) path acc →
            x ∈ acc ∨ x ∈ path) as Hgen.
  { induction path as [| y path IH]; intros acc; simpl; [by left |].
    intros [Hin | Hin]%IH; [| right; by right].
    case_decide; [by left |].
    apply elem_of_app in Hin as [? | ->%list_elem_of_singleton]; [by left |].
    right. left. }
  intros [Hnil | ?]%Hgen; [by apply elem_of_nil in Hnil | done].
Qed.

Lemma interior_subseteq path x : x ∈ interior path → x ∈ path.
Proof.
  unfold interior. intros Hx. by eapply subseteq_drop, subseteq_take.
Qed.

Lemma path_first_elem path : path ≠ [] → path_first path ∈ path.
Proof. destruct path; [done | intros _; left]. Qed.

Lemma path_last_elem path : path ≠ [] → path_last path ∈ path.
Proof.
  intros Hne. unfold path_last. destruct (last path) as [x |] eqn:Hl.
  - apply last_Some in Hl as [l' ->]. simpl. set_solver.
  - by apply last_None in Hl.
Qed.

Lemma detect_shell_chains_ok (S : string → Prop) min_hops max_hops thr g :
  (∀ n, n ∈ nodes g → S n) → (∀ e, e ∈ adj g → S (edge_target e)) →
  Forall (ring_ok S) (detect_shell_chains_with min_hops max_hops thr g).1 ∧
  Forall (score_ok S) (detect_shell_chains_with min_hops max_hops thr g).2.
Proof.
  intros Hnodes Hends. unfold detect_shell_chains_with. simpl.
  apply (detect_shell_fold_preserves min_hops max_hops
           (low_activity_nodes thr g) g
           (λ st, Forall (ring_ok S) (shell_rings st) ∧
                  Forall (score_ok S) (shell_scores st))
           (λ path, path ≠ [] ∧ Forall S path)).
  - intros path st [Hne Hpath] [Hr Hs].
    destruct (shell_visit_cases min_hops (low_activity_nodes thr g) path st)
      as [-> | (Hint & _ & _ & ->)]; [done |].
    rewrite Forall_forall in Hpath.
    assert (0 <= inject_Z (50 + (Z.of_nat (length (interior path)) - 1) * 5))%Q
      as Hscore.
    { change 0%Q with (inject_Z 0). rewrite <- Zle_Qle.
      destruct (interior path); [done | simpl; lia]. }
    split; simpl.
    + apply Forall_app. split; [done |]. apply Forall_singleton. split; simpl.
      * destruct (interior path); [done | simpl; lia].
      * apply Forall_forall. intros m Hm%dict_fromkeys_elem. by apply Hpath.
    + apply add_reason_ok; [by apply Qmult_le_0_compat | |].
      { by apply Hpath, path_last_elem. }
      apply add_reason_ok; [by apply Qmult_le_0_compat | |].
      { by apply Hpath, path_first_elem. }
      apply add_reason_fold_ok; [by apply Qmult_le_0_compat | | done].
      apply Forall_forall. intros m Hm%interior_subseteq. by apply Hpath.
  - intros path e [Hne Hpath] He. split; [by destruct path |].
    apply Forall_app. split; [done |]. apply Forall_singleton.
    by apply Hends.
  - intros s Hs. split; [done |]. by apply Forall_singleton, Hnodes.
  - split; constructor.
Qed.

(** ** Arithmetic of the normalisation *)

Lemma Qltb_true a b : Qltb a b = true → (a < b)%Q.
Proof.
  unfold Qltb. intros H%negb_true_iff. apply Qnot_le_lt. intros Hle.
  apply Qle_bool_iff in Hle. congruence.
Qed.

Lemma Qltb_false a b : Qltb a b = false → (b <= a)%Q.
Proof. unfold Qltb. intros H%negb_false_iff. by apply Qle_bool_iff. Qed.

Lemma round_half_even_range (y : Q) :
  (0 <= y)%Q → (y <= 10000)%Q → 0 ≤ round_half_even y ≤ 10000.
Proof.
  intros H0 H1. unfold round_half_even.
  pose proof (Qfloor_resp_le _ _ H0) as Hf0.
  pose proof (Qfloor_resp_le _ _ H1) as Hf1.
  change (Qfloor 0) with 0 in Hf0. change (Qfloor 10000) with 10000 in Hf1.
  pose proof (Qfloor_le y) as Hfl.
  assert (Qfloor y = 10000 → (y - inject_Z (Qfloor y) ?= 1 # 2)%Q = Lt) as Htop.
  { intros Heq. apply (proj1 (Qlt_alt _ _)). rewrite Heq.
    change (inject_Z 10000) with 10000%Q. lra. }
  destruct (decide (Qfloor y = 10000)) as [Heq | Hne].
  - rewrite (Htop Heq). lia.
  - destruct (y - inject_Z (Qfloor y) ?= 1 # 2)%Q; [destruct (Z.even _) | |]; lia.
Qed.

Lemma round2_range (q : Q) :
  (0 <= q)%Q → (q <= 100)%Q → (0 <= round2 q)%Q ∧ (round2 q <= 100)%Q.
Proof.
  intros H0 H1. unfold round2.
  destruct (round_half_even_range (q * 100)) as [Hz0 Hz1].
  - by apply Qmult_le_0_compat.
  - change 10000%Q with (100 * 100)%Q. by apply Qmult_le_compat_r.
  - split.
    + apply Qle_shift_div_l; [done |]. rewrite Qmult_0_l.
      change 0%Q with (inject_Z 0). by rewrite <- Zle_Qle.
    + apply Qle_shift_div_r; [done |].
      change (100 * 100)%Q with (inject_Z 10000). by rewrite <- Zle_Qle.
Qed.

Lemma rescale_in_range max_score a :
  (0 < max_score)%Q → (0 <= AccountScore.risk_score a)%Q →
  in_range (rescale max_score a).
Proof.
  intros Hmax Ha. unfold in_range, rescale. simpl. apply round2_range.
  - apply Q.min_glb; [done |].
    apply Qmult_le_0_compat; [| done]. by apply Qle_shift_div_l; [| rewrite Qmult_0_l].
  - apply Q.le_min_l.
Qed.

Lemma max_risk_upper first others a :
  a ∈ first :: others →
  (AccountScore.risk_score a <= max_risk first others)%Q.
Proof.
  unfold max_risk.
  assert (∀ best,
            let m := fold_left
                       (λ best acc,
                          if Qltb best (AccountScore.risk_score acc)
                          then AccountScore.risk_score acc else best)
                       others best in
            (best <= m)%Q ∧
            ∀ x, x ∈ others → (AccountScore.risk_score x <= m)%Q) as Hgen.
  { induction others as [| b others IH]; intros best; simpl.
    - split; [apply Qle_refl | intros x Hx; by apply elem_of_nil in Hx].
    - destruct (IH (if Qltb best (AccountScore.risk_score b)
                    then AccountScore.risk_score b else best)) as [Hb Hall].
      destruct (Qltb best (AccountScore.risk_score b)) eqn:Hlt.
      + apply Qltb_true, Qlt_le_weak in Hlt. split.
        * by eapply Qle_trans.
        * intros x [-> | Hx]%elem_of_cons; [done | by apply Hall].
      + apply Qltb_false in Hlt. split; [done |].
        intros x [-> | Hx]%elem_of_cons; [by eapply Qle_trans | by apply Hall]. }
  destruct (Hgen (AccountScore.risk_score first)) as [Hf Hall].
  intros [-> | Hin]%elem_of_cons; [done | by apply Hall].
Qed.

Lemma normalize_in_range combined :
  Forall (λ a, 0 <= AccountScore.risk_score a)%Q combined →
  Forall in_range (normalize combined).
Proof.
  intros Hpos. unfold normalize. destruct combined as [| first others]; [done |].
  destruct (Qle_bool (max_risk first others) 0) eqn:Hmax.
  - apply Qle_bool_iff in Hmax. rewrite Forall_forall in Hpos.
    apply Forall_forall. intros a Ha. split; [by apply Hpos |].
    apply Qle_trans with (y := 0%Q); [| done].
    eapply Qle_trans; [by apply max_risk_upper | done].
  - assert (0 < max_risk first others)%Q as Hlt.
    { apply Qnot_le_lt. intros Hle%Qle_bool_iff. congruence. }
    rewrite sorted_desc_Permutation. apply Forall_fmap.
    eapply Forall_impl; [exact Hpos |]. intros a Ha. by apply rescale_in_range.
Qed.

Lemma normalize_ids combined :
  account_ids (normalize combined) ≡ₚ account_ids combined.
Proof.
  unfold normalize, account_ids. destruct combined as [| first others]; [done |].
  destruct (Qle_bool _ _); [done |].
  rewrite sorted_desc_Permutation, <- list_fmap_compose. done.
Qed.

(** ** The three passes of combine_scores *)

Section fold_credit.
Context {A : Type} (key : A → string) (amt : A → Q) (rs : A → list Reason).

Local Abbreviation pass xs l :=
  (fold_left (λ l a, credit (key a) (amt a) (rs a) l) xs l).

Lemma fold_credit_ids xs l x :
  x ∈ account_ids (pass xs l) ↔ x ∈ account_ids l ∨ x ∈ (key <$> xs).
Proof.
  revert l. induction xs as [| a xs IH]; intros l; simpl.
  - split; [by left | intros [? | H]; [done | by apply elem_of_nil in H]].
  - rewrite IH. unfold account_ids.
    rewrite credit_elem_ids, elem_of_cons. tauto.
Qed.

Lemma fold_credit_NoDup xs l :
  NoDup (account_ids l) → NoDup (account_ids (pass xs l)).
Proof.
  revert l. induction xs as [| a xs IH]; intros l Hnd; simpl; [done |].
  apply IH. by apply credit_ids_NoDup.
Qed.

Lemma fold_credit_ok (S : string → Prop) xs l :
  Forall (λ a, (0 <= amt a)%Q ∧ S (key a)) xs →
  Forall (score_ok S) l → Forall (score_ok S) (pass xs l).
Proof.
  intros Hxs. revert l. induction Hxs as [| a xs [Ha Hk] Hxs IH]; intros l Hl;
    simpl; [done |].
  apply IH. by apply credit_ok.
Qed.
End fold_credit.

Lemma degree_centrality_eq g :
  degree_centrality g = (λ n, (n, centrality g n)) <$> nodes g.
Proof.
  unfold degree_centrality, centrality. by destruct (order g <=? 1).
Qed.

Lemma centrality_nonneg g n : (0 <= centrality g n)%Q.
Proof.
  unfold centrality. destruct (order g <=? 1) eqn:Hord; [done |].
  apply Z.leb_gt in Hord.
  apply Qmult_le_0_compat.
  - change 0%Q with (inject_Z 0). rewrite <- Zle_Qle.
    unfold in_degree, out_degree. lia.
  - assert (1 < inject_Z (order g))%Q as Hone.
    { change 1%Q with (inject_Z 1). rewrite <- Zlt_Qlt. lia. }
    apply Qle_shift_div_l; [lra | rewrite Qmult_0_l; done].
Qed.

Lemma centrality_items g :
  (if bool_decide (0 < order g) then degree_centrality g else []) =
  (λ n, (n, centrality g n)) <$> nodes g.
Proof.
  rewrite degree_centrality_eq. case_bool_decide as Hord; [done |].
  unfold order in Hord. by destruct (nodes g).
Qed.

Lemma centrality_pass_fold g l :
  centrality_pass g l =
  fold_left
    (λ l (item : string * Q),
       credit item.1 (item.2 * 20)%Q
         (if Qltb 0 item.2 then [HighDegreeCentrality item.2] else []) l)
    ((λ n, (n, centrality g n)) <$> nodes g) l.
Proof. unfold centrality_pass. by rewrite centrality_items. Qed.

Lemma centrality_pass_ids g l x :
  x ∈ account_ids (centrality_pass g l) ↔ x ∈ account_ids l ∨ x ∈ nodes g.
Proof.
  rewrite centrality_pass_fold, fold_credit_ids, <- list_fmap_compose.
  by rewrite list_fmap_id.
Qed.

Lemma centrality_pass_NoDup g l :
  NoDup (account_ids l) → NoDup (account_ids (centrality_pass g l)).
Proof. rewrite centrality_pass_fold. apply fold_credit_NoDup. Qed.

Lemma centrality_pass_ok (S : string → Prop) g l :
  (∀ n, n ∈ nodes g → S n) →
  Forall (score_ok S) l → Forall (score_ok S) (centrality_pass g l).
Proof.
  intros Hn. rewrite centrality_pass_fold. apply fold_credit_ok.
  apply Forall_fmap, Forall_forall. intros n Hin. simpl. split; [| by apply Hn].
  apply Qmult_le_0_compat; [apply centrality_nonneg | done].
Qed.

Lemma pattern_pass_ids ps l x :
  x ∈ account_ids (pattern_pass ps l) ↔
  x ∈ account_ids l ∨ ∃ p, p ∈ ps ∧ x ∈ account_ids p.
Proof.
  unfold pattern_pass. revert l. induction ps as [| p ps IH]; intros l; simpl.
  - split; [by left | intros [? | (p & Hp & _)]; [done | by apply elem_of_nil in Hp]].
  - rewrite IH, fold_credit_ids. split.
    + intros [[? | ?] | (q & Hq & ?)]; [by left | right; exists p | right; exists q];
        (split; [| done]); [left | by right].
    + intros [? | (q & [-> | Hq]%elem_of_cons & ?)];
        [left; by left | left; by right | right; by exists q].
Qed.

Lemma pattern_pass_NoDup ps l :
  NoDup (account_ids l) → NoDup (account_ids (pattern_pass ps l)).
Proof.
  unfold pattern_pass. revert l. induction ps as [| p ps IH]; intros l Hnd; simpl;
    [done |].
  by apply IH, fold_credit_NoDup.
Qed.

Lemma pattern_pass_ok (S : string → Prop) ps l :
  Forall (Forall (score_ok S)) ps →
  Forall (score_ok S) l → Forall (score_ok S) (pattern_pass ps l).
Proof.
  unfold pattern_pass. intros Hps. revert l.
  induction Hps as [| p ps Hp Hps IH]; intros l Hl; simpl; [done |].
  apply IH. by apply fold_credit_ok.
Qed.

Lemma ring_pass_ids rings l x :
  x ∈ account_ids (ring_pass rings l) ↔
  x ∈ account_ids l ∨ ∃ r, r ∈ rings ∧ x ∈ FraudRing.members r.
Proof.
  unfold ring_pass. revert l. induction rings as [| r rings IH]; intros l; simpl.
  - split; [by left | intros [? | (p & Hp & _)]; [done | by apply elem_of_nil in Hp]].
  - rewrite IH, (fold_credit_ids id), list_fmap_id. split.
    + intros [[? | ?] | (q & Hq & ?)]; [by left | right; exists r | right; exists q];
        (split; [| done]); [left | by right].
    + intros [? | (q & [-> | Hq]%elem_of_cons & ?)];
        [left; by left | left; by right | right; by exists q].
Qed.

Lemma ring_pass_NoDup rings l :
  NoDup (account_ids l) → NoDup (account_ids (ring_pass rings l)).
Proof.
  unfold ring_pass. revert l. induction rings as [| r rings IH]; intros l Hnd; simpl;
    [done |].
  by apply IH, (fold_credit_NoDup id).
Qed.

Lemma ring_pass_ok (S : string → Prop) rings l :
  Forall (ring_ok S) rings →
  Forall (score_ok S) l → Forall (score_ok S) (ring_pass rings l).
Proof.
  unfold ring_pass. intros Hrs. revert l.
  induction Hrs as [| r rings [Hrisk Hmem] Hrs IH]; intros l Hl; simpl; [done |].
  apply IH. apply (fold_credit_ok id); [| done].
  eapply Forall_impl; [exact Hmem |]. intros m Hm. split; [| done].
  apply Qmult_le_0_compat; [| done].
  change 0%Q with (inject_Z 0). by rewrite <- Zle_Qle.
Qed.

Lemma combine_scores_in_range g rings ps :
  Forall (ring_ok (λ _, True)) rings →
  Forall (Forall (score_ok (λ _, True))) ps →
  Forall in_range (combine_scores g rings ps).
Proof.
  intros Hr Hp. unfold combine_scores. apply normalize_in_range.
  assert (Forall (score_ok (λ _, True))
            (ring_pass rings (pattern_pass ps (centrality_pass g [])))) as Hok.
  { apply ring_pass_ok; [done |]. apply pattern_pass_ok; [done |].
    by apply centrality_pass_ok. }
  eapply Forall_impl; [exact Hok |]. by intros a [? _].
Qed.

Lemma combine_scores_ids g rings ps :
  NoDup (account_ids (combine_scores g rings ps)) ∧
  ∀ x, x ∈ account_ids (combine_scores g rings ps) ↔
       x ∈ nodes g ∨ (∃ p, p ∈ ps ∧ x ∈ account_ids p) ∨
       (∃ r, r ∈ rings ∧ x ∈ FraudRing.members r).
Proof.
  unfold combine_scores. split.
  - rewrite normalize_ids.
    apply ring_pass_NoDup, pattern_pass_NoDup, centrality_pass_NoDup. constructor.
  - intros x. rewrite normalize_ids, ring_pass_ids, pattern_pass_ids, centrality_pass_ids.
    split; [intros [[[H | ?] | ?] | ?]; [by apply elem_of_nil in H | tauto..] | tauto].
Qed.

(** ** The entry point *)

Lemma detect_all_patterns_fraud_rings simple_cycles df :
  fraud_rings (detect_all_patterns simple_cycles df) =
  assign_ring_ids (all_rings simple_cycles (build_graph df)).
Proof.
  unfold detect_all_patterns, all_rings.
  destruct (detect_smurfing _), (detect_shell_chains _). done.
Qed.

Lemma detect_all_patterns_accounts simple_cycles df :
  accounts (detect_all_patterns simple_cycles df) =
  combine_scores (build_graph df)
    (assign_ring_ids (all_rings simple_cycles (build_graph df)))
    [(detect_smurfing (build_graph df)).2; (detect_shell_chains (build_graph df)).2].
Proof.
  unfold detect_all_patterns, all_rings.
  destruct (detect_smurfing _), (detect_shell_chains _). done.
Qed.

Lemma relabelled_ok (S : string → Prop) rings rings' :
  Forall2 relabelled rings rings' →
  Forall (ring_ok S) rings → Forall (ring_ok S) rings'.
Proof.
  induction 1 as [| r r' rings rings' Hr _ IH]; [done |].
  intros [Hok Hrest]%Forall_cons. constructor; [| by apply IH].
  rewrite Hr. by destruct Hok.
Qed.

Lemma detect_cycles_shape simple_cycles g r :
  r ∈ detect_cycles simple_cycles g →
  r = cycle_ring 3 (FraudRing.members r) ∧
  3 ≤ Z.of_nat (length (FraudRing.members r)) ≤ 5 ∧
  FraudRing.members r ∈ simple_cycles g.
Proof.
  intros Hr. pose proof (detect_cycles_of_inv 3 5 (simple_cycles g)) as [_ _ Hshape Hsub].
  unfold detect_cycles, detect_cycles_of in Hr.
  rewrite Forall_forall in Hshape. destruct (Hshape r Hr) as [Heq Hlen].
  split; [done | split; [done |]].
  eapply elem_of_sublist; [| exact Hsub]. by apply list_elem_of_fmap_2.
Qed.

Lemma detectors_ok (S : string → Prop) simple_cycles g :
  (∀ n, n ∈ nodes g → S n) →
  (∀ e, e ∈ adj g → S (edge_source e) ∧ S (edge_target e)) →
  (∀ c, c ∈ simple_cycles g → Forall S c) →
  Forall (ring_ok S) (all_rings simple_cycles g) ∧
  Forall (score_ok S) (detect_smurfing g).2 ∧
  Forall (score_ok S) (detect_shell_chains g).2.
Proof.
  intros Hn He Hc.
  destruct (detect_shell_chains_ok S 3 6 3 g Hn (λ e H, proj2 (He e H))) as [Hsr Hss].
  assert (∀ node e, e ∈ in_edges g node → S (edge_source e)) as Hin.
  { intros node e [_ ?]%list_elem_of_filter. by apply He. }
  assert (∀ node e, e ∈ out_edges g node → S (edge_target e)) as Hout.
  { intros node e [_ ?]%list_elem_of_filter. by apply He. }
  split; [| split; [| done]].
  - unfold all_rings. rewrite !Forall_app. split; [| split; [| done]].
    + apply Forall_forall. intros r (Heq & Hlen & Hmem)%detect_cycles_shape.
      rewrite Heq. split; simpl; [lia | by apply Hc].
    + rewrite detect_smurfing_rings, Forall_app.
      split; apply Forall_forall; intros r (n & Hnode & Hr)%list_elem_of_omap.
      * eapply smurf_ring_ok; [by apply Hn | apply Hin | exact Hr].
      * eapply smurf_ring_ok; [by apply Hn | apply Hout | exact Hr].
  - unfold detect_smurfing, detect_smurfing_with, fan_in_node, fan_out_node.
    apply smurf_fold_scores_ok; [by apply Forall_forall | done |].
    apply smurf_fold_scores_ok; [by apply Forall_forall | done | constructor].
Qed.

(** C2: every account of the output has a final risk score between 0 and
    100, also when the largest combined score is not positive and the
    scores are returned as they are. *)
Theorem risk_scores_within_0_100
    (simple_cycles : DiGraph → list (list string)) (df : list Transaction) :
  Forall (λ a, (0 <= AccountScore.risk_score a)%Q ∧
               (AccountScore.risk_score a <= 100)%Q)
    (accounts (detect_all_patterns simple_cycles df)).
Proof.
  rewrite detect_all_patterns_accounts.
  destruct (detectors_ok (λ _, True) simple_cycles (build_graph df))
    as (Hrings & Hsmurf & Hshell); [done | done | |].
  { intros c _. by apply Forall_forall. }
  apply combine_scores_in_range.
  - eapply relabelled_ok; [apply assign_ring_ids_relabelled | done].
  - by repeat constructor.
Qed.

(** C10: the account ids of the output are exactly the nodes of the
    transaction graph, each once: every node has an account, and no
    account names anything but a node.  The enumerator of cycles is only
    asked to report nodes of the graph. *)
Theorem accounts_are_the_graph_nodes
    (simple_cycles : DiGraph → list (list string)) (df : list Transaction) :
  Forall (Forall (λ n, n ∈ nodes (build_graph df)))
    (simple_cycles (build_graph df)) →
  NoDup (account_ids (accounts (detect_all_patterns simple_cycles df))) ∧
  ∀ x, x ∈ account_ids (accounts (detect_all_patterns simple_cycles df)) ↔
       x ∈ nodes (build_graph df).
Proof.
  intros Hcycles. rewrite detect_all_patterns_accounts.
  pose proof (build_graph_wf df) as Hwf.
  destruct (detectors_ok (λ n, n ∈ nodes (build_graph df)) simple_cycles
              (build_graph df)) as (Hrings & Hsmurf & Hshell).
  { done. }
  { intros e He. by apply (wf_ends _ Hwf). }
  { intros c Hc. rewrite Forall_forall in Hcycles. by apply Hcycles. }
  destruct (combine_scores_ids (build_graph df)
              (assign_ring_ids (all_rings simple_cycles (build_graph df)))
              [(detect_smurfing (build_graph df)).2;
               (detect_shell_chains (build_graph df)).2]) as [Hnd Hids].
  split; [done |]. intros x. rewrite Hids. split; [| by left].
  intros [? | [(p & Hp & Hx) | (r & Hr & Hx)]]; [done | |].
  - apply list_elem_of_fmap in Hx as (a & -> & Ha).
    apply elem_of_cons in Hp as [-> | Hp].
    + rewrite Forall_forall in Hsmurf. by apply Hsmurf.
    + apply list_elem_of_singleton in Hp as ->.
      rewrite Forall_forall in Hshell. by apply Hshell.
  - pose proof (relabelled_ok _ _ _ (assign_ring_ids_relabelled _) Hrings) as Hok.
    rewrite Forall_forall in Hok. destruct (Hok r Hr) as [_ Hmem].
    rewrite Forall_forall in Hmem. by apply Hmem.
Qed.

(** Where a ring of the output comes from. *)
Lemma all_rings_origin simple_cycles g r :
  r ∈ all_rings simple_cycles g →
  (FraudRing.pattern_type r = cycle ∧ r ∈ detect_cycles simple_cycles g) ∨
  ((FraudRing.pattern_type r = smurfing_fan_in ∨
    FraudRing.pattern_type r = smurfing_fan_out) ∧ r ∈ (detect_smurfing g).1) ∨
  (FraudRing.pattern_type r = shell_chain ∧ r ∈ (detect_shell_chains g).1).
Proof.
  unfold all_rings. rewrite !elem_of_app. intros [Hr | [Hr | Hr]].
  - left. split; [| done]. apply detect_cycles_shape in Hr as [-> _]. done.
  - right. left. split; [| done]. rewrite detect_smurfing_rings, elem_of_app in Hr.
    destruct Hr as [(n & _ & Hr)%list_elem_of_omap | (n & _ & Hr)%list_elem_of_omap];
      apply smurf_ring_inv in Hr as [-> _]; [by left | by right].
  - right. right. split; [| done]. by apply shell_rings_shape in Hr as [-> _].
Qed.

Lemma all_rings_lookup_cycle simple_cycles g i r :
  all_rings simple_cycles g !! i = Some r →
  FraudRing.pattern_type r = cycle →
  detect_cycles simple_cycles g !! i = Some r.
Proof.
  unfold all_rings. intros Hi Hp.
  apply lookup_app_Some in Hi as [Hi | [_ Hi]]; [done | exfalso].
  apply list_elem_of_lookup_2 in Hi.
  assert (r ∈ all_rings simple_cycles g) as Hr.
  { unfold all_rings. rewrite elem_of_app. by right. }
  apply elem_of_app in Hi as [Hi | Hi].
  - rewrite detect_smurfing_rings, elem_of_app in Hi.
    destruct Hi as [(n & _ & Hi)%list_elem_of_omap | (n & _ & Hi)%list_elem_of_omap];
      apply smurf_ring_inv in Hi as [Hq _]; congruence.
  - apply shell_rings_shape in Hi as [Hq _]. congruence.
Qed.

Lemma fraud_rings_lookup simple_cycles df i r :
  fraud_rings (detect_all_patterns simple_cycles df) !! i = Some r →
  ∃ r0, all_rings simple_cycles (build_graph df) !! i = Some r0 ∧ relabelled r0 r.
Proof.
  rewrite detect_all_patterns_fraud_rings. intros Hi.
  pose proof (assign_ring_ids_relabelled (all_rings simple_cycles (build_graph df)))
    as Hrel.
  destruct (Forall2_lookup_r _ _ _ _ _ Hrel Hi) as (r0 & H0 & Hr). eauto.
Qed.

Lemma is_rotation_rotation_of (c1 c2 : list string) :
  is_rotation c1 c2 ↔ rotation_of c1 c2.
Proof. apply is_rotation_split. Qed.

Lemma canonical_key_min_rotation (c : list string) :
  c ≠ [] → min_rotation (canonical_key c) c.
Proof.
  intros Hne. split.
  - by apply is_rotation_rotation_of, canonical_key_is_rotation.
  - intros c' Hrot%is_rotation_rotation_of.
    assert (rotated_variants c ≠ []) as Hv.
    { destruct c; [done |]. unfold rotated_variants. done. }
    destruct (tuple_min_spec _ Hv) as [_ Hmin].
    specialize (Hmin c' (proj2 (elem_of_rotated_variants c c') (conj Hne Hrot))).
    fold (canonical_key c) in Hmin. unfold tuple_lt in Hmin.
    by destruct (list_compare String.compare c' (canonical_key c)).
Qed.

(** C3: no two cycle rings of the output have member sequences that are
    rotations of one another (one is [x ++ y], the other [y ++ x]); the
    key that the detector keeps of a ring is the lexicographically minimum
    rotation of its members, and two cycle rings never have the same
    minimum rotation, so a rotation class yields at most one ring; the
    members of a cycle ring are a cycle exactly as the enumerator reported
    it, not its minimum rotation. *)
Theorem cycle_rings_one_per_rotation_class
    (simple_cycles : DiGraph → list (list string)) (df : list Transaction) :
  let rings := fraud_rings (detect_all_patterns simple_cycles df) in
  (∀ i j ri rj,
     rings !! i = Some ri → rings !! j = Some rj →
     FraudRing.pattern_type ri = cycle → FraudRing.pattern_type rj = cycle →
     (∃ x y, FraudRing.members ri = x ++ y ∧ FraudRing.members rj = y ++ x) →
     i = j) ∧
  (∀ r, r ∈ rings → FraudRing.pattern_type r = cycle →
        min_rotation (canonical_key (FraudRing.members r)) (FraudRing.members r)) ∧
  (∀ i j ri rj k,
     rings !! i = Some ri → rings !! j = Some rj →
     FraudRing.pattern_type ri = cycle → FraudRing.pattern_type rj = cycle →
     min_rotation k (FraudRing.members ri) →
     min_rotation k (FraudRing.members rj) →
     i = j) ∧
  (∀ i j ri rj,
     rings !! i = Some ri → rings !! j = Some rj →
     FraudRing.pattern_type ri = cycle → FraudRing.pattern_type rj = cycle →
     canonical_key (FraudRing.members ri) = canonical_key (FraudRing.members rj) →
     i = j) ∧
  (∀ r, r ∈ rings → FraudRing.pattern_type r = cycle →
        FraudRing.members r ∈ simple_cycles (build_graph df)).
Proof.
  intros rings. subst rings.
  assert (∀ i j ri rj,
            fraud_rings (detect_all_patterns simple_cycles df) !! i = Some ri →
            fraud_rings (detect_all_patterns simple_cycles df) !! j = Some rj →
            FraudRing.pattern_type ri = cycle →
            FraudRing.pattern_type rj = cycle →
            canonical_key (FraudRing.members ri)
            = canonical_key (FraudRing.members rj) →
            i = j) as Hkeys.
  { intros i j ri rj Hi Hj Hpi Hpj Hkey.
    apply fraud_rings_lookup in Hi as (ri0 & Hi & Hri).
    apply fraud_rings_lookup in Hj as (rj0 & Hj & Hrj).
    rewrite Hri in Hpi, Hkey. rewrite Hrj in Hpj, Hkey. simpl in *.
    apply all_rings_lookup_cycle in Hi; [| done].
    apply all_rings_lookup_cycle in Hj; [| done].
    by eapply detect_cycles_of_keys_inj. }
  assert (∀ r, r ∈ fraud_rings (detect_all_patterns simple_cycles df) →
               FraudRing.pattern_type r = cycle →
               3 ≤ Z.of_nat (length (FraudRing.members r)) ∧
               FraudRing.members r ∈ simple_cycles (build_graph df)) as Hshape.
  { intros r (i & Hi)%list_elem_of_lookup_1 Hp.
    apply fraud_rings_lookup in Hi as (r0 & Hi & Hr).
    rewrite Hr in Hp |- *. simpl in *.
    apply all_rings_lookup_cycle in Hi; [| done].
    apply list_elem_of_lookup_2 in Hi.
    apply detect_cycles_shape in Hi as (_ & Hlen & ?). split; [lia | done]. }
  assert (∀ i j ri rj,
            fraud_rings (detect_all_patterns simple_cycles df) !! i = Some ri →
            fraud_rings (detect_all_patterns simple_cycles df) !! j = Some rj →
            FraudRing.pattern_type ri = cycle →
            FraudRing.pattern_type rj = cycle →
            rotation_of (FraudRing.members ri) (FraudRing.members rj) →
            i = j) as Hrot.
  { intros i j ri rj Hi Hj Hpi Hpj Hrot.
    eapply Hkeys; [done.. |].
    by apply canonical_key_rotation, is_rotation_rotation_of. }
  split_and!.
  - exact Hrot.
  - intros r Hr Hp. apply canonical_key_min_rotation.
    destruct (Hshape r Hr Hp) as [Hlen _]. intros Hnil. rewrite Hnil in Hlen.
    simpl in Hlen. lia.
  - intros i j ri rj k Hi Hj Hpi Hpj [Hki _] [Hkj _].
    eapply Hrot; [done.. |].
    apply is_rotation_rotation_of.
    apply is_rotation_rotation_of in Hki, Hkj.
    eapply is_rotation_trans; [exact Hki | by apply is_rotation_sym].
  - exact Hkeys.
  - intros r Hr Hp. by apply Hshape.
Qed.

(** The key of a ring is only a deduplication key: an enumerator that
    reports the triangle from B leaves B first in [members]. *)
Example members_keep_enumerator_rotation :
  FraudRing.members <$>
    fraud_rings (detect_all_patterns (λ _, [["B"; "C"; "A"]]) triangle)
  = [["B"; "C"; "A"]] ∧
  canonical_key ["B"; "C"; "A"] = ["A"; "B"; "C"].
Proof. split; reflexivity. Qed.

Lemma interior_borders (path : list string) :
  interior path ≠ [] → ∃ first last, path = first :: interior path ++ [last].
Proof.
  unfold interior. destruct path as [| first rest]; [done |].
  destruct rest as [| x rest' _] using rev_ind; [done |].
  intros _. exists first, x. simpl. rewrite drop_0, length_app. simpl.
  replace (length rest' + 1 - 1)%nat with (length rest') by lia.
  by rewrite take_app_length.
Qed.

(** C6: at the default parameters, a shell-chain ring of the output
    reports a path [first :: intermediates ++ [last]] whose interior
    [intermediates] is non-empty, every interior node has in-degree plus
    out-degree at most 3 in the transaction graph, and the risk score is
    50 + (|interior| - 1) * 5. *)
Theorem shell_chain_interior_is_low_activity
    (simple_cycles : DiGraph → list (list string)) (df : list Transaction)
    (r : FraudRing.t) :
  r ∈ fraud_rings (detect_all_patterns simple_cycles df) →
  FraudRing.pattern_type r = shell_chain →
  ∃ path first intermediates last,
    FraudRing.details r = DetailsShell path intermediates ∧
    path = first :: intermediates ++ [last] ∧
    intermediates ≠ [] ∧
    (∀ n, n ∈ intermediates →
          in_degree (build_graph df) n + out_degree (build_graph df) n ≤ 3) ∧
    FraudRing.risk_score r = 50 + (Z.of_nat (length intermediates) - 1) * 5.
Proof.
  intros (i & Hi)%list_elem_of_lookup_1 Hp.
  apply fraud_rings_lookup in Hi as (r0 & Hi & Hr).
  rewrite Hr in Hp |- *. simpl in *.
  apply list_elem_of_lookup_2, all_rings_origin in Hi
    as [[Hq _] | [[[Hq | Hq] _] | [_ Hshell]]]; try congruence.
  apply shell_rings_shape in Hshell as (_ & path & Hd & _ & Hne & Hlow & Hrisk).
  destruct (interior_borders path Hne) as (first & last & Hpath).
  exists path, first, (interior path), last.
  split; [done | split; [done | split; [done |]]].
  split; [| done]. intros n Hn. rewrite Forall_forall in Hlow.
  by apply Hlow, elem_of_low_activity_nodes in Hn as [_ ?].
Qed.

(** ** The text of a ring id *)

Lemma pretty_N_go_leading (x : N) (s : string) :
  (0 < x)%N → ∃ c rest, pretty_N_go x s = String c rest ∧ c ≠ "0"%char.
Proof.
  revert s. induction (N.lt_wf_0 x) as [x _ IH]; intros s Hx.
  rewrite pretty_N_go_step by done.
  destruct (decide (x `div` 10 = 0)%N) as [Hd | Hd].
  - rewrite Hd, pretty_N_go_0. eexists _, _. split; [done |].
    intros Hzero. change "0"%char with (pretty_N_char 0) in Hzero.
    apply pretty_N_char_inj in Hzero; [| by apply N.mod_lt | done].
    pose proof (N.div_mod x 10 ltac:(done)) as Hx'. lia.
  - apply IH; [apply N.div_lt; lia | by apply N.neq_0_lt_0].
Qed.

Lemma pretty_nat_numeral (n : nat) : numeral (pretty n).
Proof.
  unfold pretty, pretty_nat, pretty, pretty_N.
  case_decide as Hn; [by split; [| intros rest [= <-]] |].
  destruct (pretty_N_go_leading (N.of_nat n) "") as (c & rest & -> & Hc); [lia |].
  split; [done |]. intros rest' [= -> _]. done.
Qed.

Lemma zeros_0_app (s : string) : zeros 0 +:+ s = s.
Proof. reflexivity. Qed.

Lemma zeros_S_app (k : nat) (s : string) :
  zeros (S k) +:+ s = String "0" (zeros k +:+ s).
Proof. reflexivity. Qed.

Lemma app_empty_inv (s t : string) : s +:+ t = "" → t = "".
Proof. by destruct s. Qed.

Lemma zeros_prefix_inj (k1 k2 : nat) (s1 s2 : string) :
  numeral s1 → numeral s2 → zeros k1 +:+ s1 = zeros k2 +:+ s2 → s1 = s2.
Proof.
  intros [Hne1 Hz1] [Hne2 Hz2]. revert k2.
  induction k1 as [| k1 IH]; intros [| k2];
    rewrite ?zeros_0_app, ?zeros_S_app; [done | | |].
  - intros Heq. exfalso. apply Hne2.
    by eapply app_empty_inv, Hz1.
  - intros Heq. exfalso. apply Hne1.
    by eapply app_empty_inv, Hz2.
  - intros [= Heq]. by apply (IH k2).
Qed.

Global Instance format_ring_id_inj : Inj (=) (=) format_ring_id.
Proof.
  intros a b. unfold format_ring_id, zero_pad. intros [= Heq].
  apply (inj pretty).
  eapply zeros_prefix_inj; [apply pretty_nat_numeral.. | exact Heq].
Qed.

Lemma ring_ids_Permutation (ids : list string) (ranking : list nat) :
  ranking ≡ₚ seq 0 (length ids) →
  (∀ k idx, ranking !! k = Some idx → ids !! idx = Some (format_ring_id (S k))) →
  ids ≡ₚ format_ring_id <$> seq 1 (length ids).
Proof.
  intros Hperm Hid.
  assert ((λ idx, ids !!! idx) <$> seq 0 (length ids) = ids) as Hself.
  { apply list_eq. intros i. rewrite list_lookup_fmap.
    destruct (decide (i < length ids)%nat) as [Hlt | Hge].
    - rewrite lookup_seq_lt by done. simpl.
      destruct (lookup_lt_is_Some_2 ids i Hlt) as [x Hx].
      by rewrite (list_lookup_total_correct _ _ _ Hx).
    - rewrite lookup_seq_ge, lookup_ge_None_2 by lia. done. }
  assert ((λ idx, ids !!! idx) <$> ranking =
          format_ring_id <$> seq 1 (length ids)) as Hranked.
  { apply list_eq. intros k. rewrite !list_lookup_fmap.
    assert (length ranking = length ids) as Hlen.
    { by rewrite Hperm, length_seq. }
    destruct (decide (k < length ids)%nat) as [Hlt | Hge].
    - destruct (lookup_lt_is_Some_2 ranking k) as [idx Hk]; [lia |].
      rewrite Hk, lookup_seq_lt by done. simpl.
      by rewrite (list_lookup_total_correct _ _ _ (Hid _ _ Hk)).
    - rewrite lookup_seq_ge, lookup_ge_None_2 by lia. done. }
  rewrite <- Hranked, <- Hself at 1. by rewrite Hperm.
Qed.

Lemma format_ring_id_text (k : nat) : format_ring_id k = ring_id_text k.
Proof. reflexivity. Qed.

Lemma ring_id_text_one_digit (k : nat) :
  (k < 9)%nat → ring_id_text (S k) = "R000" +:+ pretty (S k).
Proof.
  intros Hk. do 9 (destruct k as [| k]; [reflexivity |]). lia.
Qed.

(** C8, as the code has it: the rings of the output are the detected
    rings in detection order (cycles, then smurfing, then shell chains),
    each with an id and otherwise unchanged.  The ids are R0001 ... R000N,
    each once: the letter R and the rank in decimal, zero-padded to four
    digits.  They are handed out along the stable descending order of
    risk score: reading the rings in the order [ranking] gives the ids in
    sequence and scores that never increase, and of two rings with the
    same score the one earlier in the list comes first. *)
Theorem ring_ids_follow_risk_ranking
    (simple_cycles : DiGraph → list (list string)) (df : list Transaction) :
  let rings := fraud_rings (detect_all_patterns simple_cycles df) in
  Forall2
    (λ r0 r,
       FraudRing.members r = FraudRing.members r0 ∧
       FraudRing.pattern_type r = FraudRing.pattern_type r0 ∧
       FraudRing.risk_score r = FraudRing.risk_score r0 ∧
       FraudRing.details r = FraudRing.details r0)
    (all_rings simple_cycles (build_graph df)) rings ∧
  FraudRing.ring_id <$> rings ≡ₚ ring_id_text <$> seq 1 (length rings) ∧
  NoDup (FraudRing.ring_id <$> rings) ∧
  ∃ ranking : list nat,
    ranking ≡ₚ seq 0 (length rings) ∧
    (∀ k idx, ranking !! k = Some idx →
       ∃ r, rings !! idx = Some r ∧
            FraudRing.ring_id r = ring_id_text (S k) ∧
            ((k < 9)%nat → FraudRing.ring_id r = "R000" +:+ pretty (S k))) ∧
    (∀ k1 k2 i1 i2 r1 r2,
       (k1 < k2)%nat → ranking !! k1 = Some i1 → ranking !! k2 = Some i2 →
       rings !! i1 = Some r1 → rings !! i2 = Some r2 →
       FraudRing.risk_score r2 ≤ FraudRing.risk_score r1 ∧
       (FraudRing.risk_score r1 = FraudRing.risk_score r2 → (i1 < i2)%nat)).
Proof.
  intros rings. subst rings. rewrite detect_all_patterns_fraud_rings.
  set (all := all_rings simple_cycles (build_graph df)).
  pose proof (assign_ring_ids_relabelled all) as Hrel.
  pose proof (Forall2_length _ _ _ Hrel) as Hlen.
  assert (ranked_positions all ≡ₚ seq 0 (length (assign_ring_ids all))) as Hperm.
  { rewrite <- Hlen. apply ranked_positions_Permutation. }
  assert (∀ k idx, ranked_positions all !! k = Some idx →
            ∃ r, assign_ring_ids all !! idx = Some r ∧
                 FraudRing.ring_id r = format_ring_id (S k)) as Hid.
  { intros k idx Hk. rewrite (assign_ring_ids_rank _ _ _ Hk).
    assert (idx ∈ seq 0 (length all)) as Hidx.
    { rewrite <- ranked_positions_Permutation. by eapply list_elem_of_lookup_2. }
    apply elem_of_seq in Hidx.
    destruct (lookup_lt_is_Some_2 all idx) as [r0 Hr0]; [lia |].
    rewrite Hr0. simpl. eauto. }
  assert (FraudRing.ring_id <$> assign_ring_ids all ≡ₚ
          format_ring_id <$> seq 1 (length (assign_ring_ids all))) as Hids.
  { rewrite <- (length_fmap FraudRing.ring_id (assign_ring_ids all)).
    apply (ring_ids_Permutation _ (ranked_positions all)).
    - by rewrite length_fmap.
    - intros k idx Hk. destruct (Hid k idx Hk) as (r & Hr & <-).
      by rewrite list_lookup_fmap, Hr. }
  split_and!.
  - eapply Forall2_impl; [exact Hrel |]. intros r0 r ->. done.
  - done.
  - rewrite Hids. apply (NoDup_fmap_2 _), NoDup_seq.
  - exists (ranked_positions all). split; [done | split].
    + intros k idx Hk. destruct (Hid k idx Hk) as (r & Hr & Hrid).
      exists r. split; [done |]. rewrite Hrid, format_ring_id_text.
      split; [done | apply ring_id_text_one_digit].
    + intros k1 k2 i1 i2 r1 r2 Hk H1 H2 Hr1 Hr2.
      rewrite ranked_positions_fst, list_lookup_fmap in H1, H2.
      apply fmap_Some in H1 as ([j1 q1] & H1 & ->).
      apply fmap_Some in H2 as ([j2 q2] & H2 & ->). simpl in *.
      destruct (StronglySorted_lookup_lt _ _ k1 k2 _ _ (ranked_stable all) Hk H1 H2)
        as [Hdesc Htie].
      simpl in Hdesc, Htie.
      apply list_elem_of_lookup_2, ranked_elem in H1, H2.
      pose proof (Forall2_lookup_lr _ _ _ _ _ _ Hrel H1 Hr1) as ->.
      pose proof (Forall2_lookup_lr _ _ _ _ _ _ Hrel H2 Hr2) as ->.
      simpl. split; [done | intros Heq; apply Htie; lia].
Qed.

(** C8 as stated fails: a chain of five transfers yields six shell-chain
    rings whose scores are not in descending order in the output, and whose
    ids do not read R0001, R0002, ... in list order. *)
Lemma chain_rings_not_sorted_by_risk :
  FraudRing.risk_score <$>
    fraud_rings (detect_all_patterns dfs_simple_cycles chain5)
  = [55; 60; 65; 55; 60; 55] ∧
  FraudRing.ring_id <$>
    fraud_rings (detect_all_patterns dfs_simple_cycles chain5)
  = ["R0004"; "R0002"; "R0001"; "R0005"; "R0003"; "R0006"] ∧
  FraudRing.ring_id <$>
    fraud_rings (detect_all_patterns dfs_simple_cycles chain5)
  ≠ format_ring_id <$> seq 1 6.
Proof. split; [| split]; [reflexivity | reflexivity | vm_compute; discriminate]. Qed.

(** ** The centrality pass *)

Lemma credit_fresh acc_id score rs accounts :
  acc_id ∉ account_ids accounts →
  credit acc_id score rs accounts =
  accounts ++ [AccountScore.mk acc_id (0 + score) rs].
Proof.
  intros Hfresh. unfold credit, ensure.
  rewrite decide_False by done. rewrite fmap_app. f_equal.
  - rewrite <- (list_fmap_id accounts) at 2. apply list_fmap_ext.
    intros i a Ha. simpl. rewrite decide_False; [done |].
    intros Heq. apply Hfresh. rewrite <- Heq.
    by eapply list_elem_of_fmap_2, list_elem_of_lookup_2.
  - simpl. by rewrite decide_True.
Qed.

Lemma fold_credit_fresh (amt : string → Q) (rs : Q → list Reason)
    (ns : list string) (l : list AccountScore.t) :
  NoDup ns → (∀ n, n ∈ ns → n ∉ account_ids l) →
  fold_left (λ l (item : string * Q), credit item.1 (item.2 * 20)%Q (rs item.2) l)
    ((λ n, (n, amt n)) <$> ns) l =
  l ++ ((λ n, AccountScore.mk n (0 + amt n * 20) (rs (amt n))) <$> ns).
Proof.
  intros Hnd. revert l. induction Hnd as [| n ns Hn Hnd IH]; intros l Hfresh; simpl.
  - by rewrite app_nil_r.
  - rewrite credit_fresh by (apply Hfresh; left).
    rewrite IH; [by rewrite <- app_assoc |].
    intros m Hm. unfold account_ids. rewrite fmap_app, elem_of_app. simpl.
    rewrite list_elem_of_singleton. intros [Hin | ->]; [| done].
    by apply (Hfresh m); [right |].
Qed.

(** C7, as the code has it: the centrality of a node is
    (in_degree + out_degree) / (|V| - 1) on a graph of at least two nodes
    and 1 on a graph of one node, which is what [nx.degree_centrality]
    returns there; [combine_scores] opens the account of every node with
    20 times that value, and records the reason when the value is
    positive, so the single node of a one-node graph receives 20; on the
    empty graph, without rings or evidence, the result is the empty
    list. *)
Theorem centrality_contribution (g : DiGraph) :
  NoDup (nodes g) →
  centrality_pass g [] =
    (λ n, AccountScore.mk n (0 + centrality g n * 20)
            (if Qltb 0 (centrality g n)
             then [HighDegreeCentrality (centrality g n)] else []))
    <$> nodes g ∧
  (2 ≤ order g →
   ∀ n, (centrality g n ==
         inject_Z (in_degree g n + out_degree g n) / (inject_Z (order g) - 1))%Q) ∧
  (order g = 1 →
   ∃ n, nodes g = [n] ∧ centrality g n = 1%Q ∧
        centrality_pass g [] =
          [AccountScore.mk n (0 + 1 * 20) [HighDegreeCentrality 1]]) ∧
  (order g = 0 → combine_scores g [] [[]; []] = []).
Proof.
  intros Hnd.
  assert (centrality_pass g [] =
            (λ n, AccountScore.mk n (0 + centrality g n * 20)
                    (if Qltb 0 (centrality g n)
                     then [HighDegreeCentrality (centrality g n)] else []))
            <$> nodes g) as Hpass.
  { rewrite centrality_pass_fold.
    rewrite (fold_credit_fresh (centrality g)
               (λ c, if Qltb 0 c then [HighDegreeCentrality c] else [])
               (nodes g) [] Hnd); [done |].
    intros n _. apply not_elem_of_nil. }
  split; [done | split; [| split]].
  - intros Hord n. unfold centrality.
    rewrite (proj2 (Z.leb_gt _ _)) by lia.
    unfold Qdiv. by rewrite Qmult_1_l.
  - intros Hord. unfold order in Hord.
    destruct (nodes g) as [| n [| m ns]] eqn:Hnodes; simpl in Hord; try lia.
    exists n. assert (centrality g n = 1%Q) as Hc.
    { unfold centrality, order. by rewrite Hnodes. }
    split; [done | split; [done |]].
    rewrite Hpass. try rewrite Hnodes. simpl. by rewrite Hc.
  - intros Hord. unfold combine_scores. simpl. rewrite Hpass.
    unfold order in Hord. by destruct (nodes g).
Qed.

Lemma centrality_contribution_witness :
  NoDup (nodes (build_graph triangle)) ∧
  ∀ n, (centrality (build_graph triangle) n ==
        inject_Z (in_degree (build_graph triangle) n
                  + out_degree (build_graph triangle) n)
        / (inject_Z (order (build_graph triangle)) - 1))%Q.
Proof.
  assert (NoDup (nodes (build_graph triangle))) as Hnd.
  { by_evaluation. }
  split; [exact Hnd |].
  apply (proj1 (proj2 (centrality_contribution (build_graph triangle) Hnd))).
  vm_compute. discriminate.
Defined.

(** C7 as stated fails on a graph of one node: the account that pays
    itself has centrality 1, not 0, and receives the contribution of 20
    with its reason; its final score is 100. *)
Lemma single_node_centrality_is_one :
  order (build_graph self_transfer) = 1 ∧
  degree_centrality (build_graph self_transfer) = [("A", 1%Q)] ∧
  centrality_pass (build_graph self_transfer) [] =
    [AccountScore.mk "A" (0 + 1 * 20) [HighDegreeCentrality 1]] ∧
  ∃ a, accounts (detect_all_patterns dfs_simple_cycles self_transfer) = [a] ∧
       AccountScore.account_id a = "A" ∧
       (AccountScore.risk_score a == 100)%Q ∧
       AccountScore.reasons a = [HighDegreeCentrality 1].
Proof.
  split; [reflexivity | split; [reflexivity | split; [reflexivity |]]].
  eexists. split; [vm_compute; reflexivity |].
  split; [reflexivity | split; [reflexivity | reflexivity]].
Qed.

Lemma detect_smurfing_first_window_per_node_witness :
  NoDup (nodes (build_graph fanin_late_first)) ∧
  ∀ r c,
    r ∈ (detect_smurfing (build_graph fanin_late_first)).1 →
    FraudRing.details r = DetailsFanIn "H" c →
    FraudRing.pattern_type r = smurfing_fan_in ∧
    ∃ i j, c = Z.of_nat j - Z.of_nat i ∧
           first_window 10 (timedelta_hours 72)
             (sorted_timestamps (in_edges (build_graph fanin_late_first) "H")) i j.
Proof.
  assert (NoDup (nodes (build_graph fanin_late_first))) as Hnd.
  { by_evaluation. }
  split; [exact Hnd |].
  exact (proj1 (proj2 (proj2
    (detect_smurfing_first_window_per_node (build_graph fanin_late_first) "H" Hnd)))).
Defined.

Lemma accounts_are_the_graph_nodes_witness :
  Forall (Forall (λ n, n ∈ nodes (build_graph triangle)))
    (dfs_simple_cycles (build_graph triangle)) ∧
  ∀ x, x ∈ account_ids (accounts (detect_all_patterns dfs_simple_cycles triangle)) ↔
       x ∈ nodes (build_graph triangle).
Proof.
  assert (Forall (Forall (λ n, n ∈ nodes (build_graph triangle)))
            (dfs_simple_cycles (build_graph triangle))) as Hc.
  { by_evaluation. }
  split; [exact Hc |].
  exact (proj2 (accounts_are_the_graph_nodes dfs_simple_cycles triangle Hc)).
Defined.

(** ** Members of a smurfing ring *)

Lemma smurf_members_spec fan_threshold window view side pattern mk_details node r :
  smurf_ring fan_threshold window view side pattern mk_details node = Some r →
  NoDup (FraudRing.members r) ∧
  node ∈ FraudRing.members r ∧
  ∀ m, m ∈ FraudRing.members r → m = node ∨ m ∈ (side <$> view node).
Proof.
  intros (_ & i & j & _ & _ & _ & ->)%smurf_ring_inv.
  split; [apply NoDup_elements | split].
  - rewrite elem_of_elements. set_solver.
  - intros m. rewrite elem_of_elements, elem_of_union, elem_of_list_to_set,
      elem_of_singleton.
    intros [(e & -> & He)%list_elem_of_fmap | ->]; [right | by left].
    by eapply list_elem_of_fmap_2, elem_of_index_range.
Qed.

(** What holds of the members of a smurfing ring whichever edges the
    window selects: the hub is a member, every other member is a
    counterparty of the hub, and no account is listed twice. *)
Lemma smurfing_members_are_counterparties
    (g : DiGraph) (N : string) (c : Z) (r : FraudRing.t) :
  r ∈ (detect_smurfing g).1 →
  (FraudRing.details r = DetailsFanIn N c →
   NoDup (FraudRing.members r) ∧ N ∈ FraudRing.members r ∧
   ∀ m, m ∈ FraudRing.members r →
        m = N ∨ m ∈ (edge_source <$> in_edges g N)) ∧
  (FraudRing.details r = DetailsFanOut N c →
   NoDup (FraudRing.members r) ∧ N ∈ FraudRing.members r ∧
   ∀ m, m ∈ FraudRing.members r →
        m = N ∨ m ∈ (edge_target <$> out_edges g N)).
Proof.
  rewrite detect_smurfing_rings, elem_of_app, !list_elem_of_omap.
  intros [(n & _ & Hr) | (n & _ & Hr)];
    pose proof (smurf_members_spec _ _ _ _ _ _ _ _ Hr) as Hspec;
    apply smurf_ring_inv in Hr as (_ & i & j & _ & Hd & _);
    split; intros Hd'; rewrite Hd in Hd'; try done;
    by injection Hd' as <- _.
Qed.


(** C4 does not hold of the code, by a defect of [detect_smurfing]: the
    window [i, j) is found on the sorted timestamps, but the senders are
    read as [incoming[k]] for [k] in [range(i, j)] from the edge list in
    insertion order.  On eleven senders of which the first inserted
    transacts long after the ten others, the window covers the ten early
    transfers, those of S02 to S11; S01, whose transfer lies outside it,
    is a member, and S11, whose transfer lies inside it, is not. *)
Theorem fan_in_members_read_by_position :
  let g := build_graph fanin_late_first in
  edge_source <$> in_edges g "H" =
    ["S01"; "S02"; "S03"; "S04"; "S05"; "S06"; "S07"; "S08"; "S09"; "S10"; "S11"] ∧
  edge_timestamps (in_edges g "H") =
    timedelta_hours <$> [1000; 0; 1; 2; 3; 4; 5; 6; 7; 8; 9] ∧
  sorted_timestamps (in_edges g "H") =
    timedelta_hours <$> [0; 1; 2; 3; 4; 5; 6; 7; 8; 9; 1000] ∧
  sliding_window 10 (timedelta_hours 72) (sorted_timestamps (in_edges g "H")) =
    Some (0%nat, 10%nat) ∧
  edge_source <$>
    filter (λ e, attr_timestamp (edge_attr e) - timedelta_hours 0 ≤ timedelta_hours 72)
      (in_edges g "H") =
    ["S02"; "S03"; "S04"; "S05"; "S06"; "S07"; "S08"; "S09"; "S10"; "S11"] ∧
  ∃ r, fraud_rings (detect_all_patterns dfs_simple_cycles fanin_late_first) = [r] ∧
       FraudRing.pattern_type r = smurfing_fan_in ∧
       FraudRing.details r = DetailsFanIn "H" 10 ∧
       "S01" ∈ FraudRing.members r ∧
       "S11" ∉ FraudRing.members r.
Proof.
  intros g. subst g.
  split; [reflexivity | split; [reflexivity | split; [reflexivity |]]].
  split; [reflexivity |]. split; [vm_compute; reflexivity |].
  eexists. split; [vm_compute; reflexivity |].
  split; [reflexivity | split; [reflexivity |]].
  split; by_evaluation.
Qed.


Lemma shell_chain_interior_is_low_activity_witness :
  ∃ r, r ∈ fraud_rings (detect_all_patterns dfs_simple_cycles chain5) ∧
       FraudRing.pattern_type r = shell_chain ∧
       ∃ path first intermediates last,
         FraudRing.details r = DetailsShell path intermediates ∧
         path = first :: intermediates ++ [last] ∧
         intermediates ≠ [] ∧
         (∀ n, n ∈ intermediates →
               in_degree (build_graph chain5) n
               + out_degree (build_graph chain5) n ≤ 3) ∧
         FraudRing.risk_score r =
           50 + (Z.of_nat (length intermediates) - 1) * 5.
Proof.
  eexists.
  assert (FraudRing.mk "R0004" ["P0"; "P1"; "P2"; "P3"] shell_chain 55
            (DetailsShell ["P0"; "P1"; "P2"; "P3"] ["P1"; "P2"])
          ∈ fraud_rings (detect_all_patterns dfs_simple_cycles chain5)) as Hr.
  { vm_compute. left. }
  split; [exact Hr | split; [reflexivity |]].
  exact (shell_chain_interior_is_low_activity dfs_simple_cycles chain5 _ Hr eq_refl).
Defined.

(** * Further properties of the detector *)

(** ** build_graph: the node list *)

Lemma add_node_nodes_eq n g :
  nodes (add_node n g) = if decide (n ∈ nodes g) then nodes g else nodes g ++ [n].
Proof. unfold add_node. by case_decide. Qed.

Lemma add_node_idem n g : n ∈ nodes g → add_node n g = g.
Proof. intros Hn. unfold add_node. by rewrite decide_True. Qed.

Lemma build_graph_row_nodes_eq g row :
  nodes (build_graph_row g row) =
  fold_left (λ acc x, if decide (x ∈ acc) then acc else acc ++ [x])
    [sender_id row; receiver_id row] (nodes g).
Proof.
  unfold build_graph_row, add_edge. cbn [nodes fold_left].
  set (g2 := add_node (receiver_id row) (add_node (sender_id row) g)).
  assert (add_node (sender_id row) g2 = g2) as ->.
  { apply add_node_idem, add_node_nodes. right. apply add_node_nodes. by left. }
  assert (add_node (receiver_id row) g2 = g2) as ->.
  { apply add_node_idem, add_node_nodes. by left. }
  unfold g2. by rewrite !add_node_nodes_eq.
Qed.

Lemma fold_left_build_graph_nodes df g :
  nodes (fold_left build_graph_row df g) =
  fold_left (λ acc x, if decide (x ∈ acc) then acc else acc ++ [x])
    (row_endpoints df) (nodes g).
Proof.
  revert g. induction df as [| row df IH]; intros g; [done |].
  cbn [fold_left]. rewrite IH, build_graph_row_nodes_eq. done.
Qed.

(** X1: the nodes of the graph are the sender and receiver ids of the
    batch in the order of their first appearance, each once, and every
    edge joins two of them. *)
Theorem build_graph_nodes_in_first_seen_order (df : list Transaction) :
  nodes (build_graph df) = dict_fromkeys (row_endpoints df) ∧
  NoDup (nodes (build_graph df)) ∧
  Forall (λ e, edge_source e ∈ nodes (build_graph df) ∧
               edge_target e ∈ nodes (build_graph df))
    (edges (build_graph df)).
Proof.
  pose proof (build_graph_wf df) as Hwf. split; [| split].
  - unfold build_graph. by rewrite fold_left_build_graph_nodes.
  - apply Hwf.
  - apply Forall_forall. intros e He%(edges_elem _ _ Hwf). by apply (wf_ends _ Hwf).
Qed.

Lemma build_graph_node_has_edge df n :
  n ∈ nodes (build_graph df) →
  ∃ e, e ∈ adj (build_graph df) ∧ (edge_source e = n ∨ edge_target e = n).
Proof.
  intros [Hn | Hn]%build_graph_nodes;
    apply list_elem_of_fmap in Hn as (row & -> & Hrow);
    assert (row_key row ∈ edge_key <$> adj (build_graph df))
      as (e & Hk & He)%list_elem_of_fmap
      by (apply build_graph_keys, list_elem_of_fmap; eauto);
    exists e; (split; [done |]); destruct e as [[u v] a];
    unfold row_key, edge_key in Hk; simpl in Hk; simplify_eq; [by left | by right].
Qed.

Lemma build_graph_nodes_active df n :
  n ∈ nodes (build_graph df) →
  1 ≤ in_degree (build_graph df) n + out_degree (build_graph df) n.
Proof.
  intros (e & He & Hn)%build_graph_node_has_edge.
  unfold in_degree, out_degree, in_edges, out_edges.
  destruct Hn as [Hn | Hn].
  - assert (e ∈ filter (λ e, edge_source e = n) (adj (build_graph df))) as Hin
      by (by apply list_elem_of_filter).
    destruct (filter (λ e, edge_source e = n) _); [by apply elem_of_nil in Hin |].
    simpl. lia.
  - assert (e ∈ filter (λ e, edge_target e = n) (adj (build_graph df))) as Hin
      by (by apply list_elem_of_filter).
    destruct (filter (λ e, edge_target e = n) _); [by apply elem_of_nil in Hin |].
    simpl. lia.
Qed.

(** X2: the graph has no isolated node: every node has at least one
    incoming or outgoing edge. *)
Theorem build_graph_nodes_are_active (df : list Transaction) :
  Forall (λ n, 1 ≤ in_degree (build_graph df) n + out_degree (build_graph df) n)
    (nodes (build_graph df)).
Proof. apply Forall_forall. intros n. apply build_graph_nodes_active. Qed.

(** ** detect_cycles: shape and coverage *)

(** X3: a ring of [detect_cycles] has between 3 and 5 members, the score
    60 + 5 * (members - 3), its length in the details, and no id yet. *)
Theorem detect_cycles_ring_shape
    (simple_cycles : DiGraph → list (list string)) (g : DiGraph) :
  Forall
    (λ r, FraudRing.pattern_type r = cycle ∧
          3 ≤ Z.of_nat (length (FraudRing.members r)) ≤ 5 ∧
          FraudRing.risk_score r =
            60 + (Z.of_nat (length (FraudRing.members r)) - 3) * 5 ∧
          60 ≤ FraudRing.risk_score r ≤ 70 ∧
          FraudRing.details r =
            DetailsCycle (Z.of_nat (length (FraudRing.members r))) ∧
          FraudRing.ring_id r = "")
    (detect_cycles simple_cycles g).
Proof.
  apply Forall_forall. intros r (Heq & Hlen & _)%detect_cycles_shape.
  rewrite Heq. simpl. repeat split; lia.
Qed.

Lemma detect_cycles_fold_seen min_len max_len cycles st c :
  c ∈ cycles → min_len ≤ Z.of_nat (length c) ≤ max_len →
  canonical_key c ∈ (fold_left (detect_cycles_step min_len max_len) cycles st).2.
Proof.
  assert (∀ cycles st k, k ∈ st.2 →
            k ∈ (fold_left (detect_cycles_step min_len max_len) cycles st).2)
    as Hmono.
  { clear. induction cycles as [| c cycles IH]; intros st k Hk; [done |].
    simpl. apply IH.
    destruct (detect_cycles_step_spec min_len max_len st c) as [-> | (_ & _ & ->)];
      [done | simpl; apply elem_of_union; by right]. }
  revert st. induction cycles as [| c' cycles IH]; intros st Hc Hlen.
  - by apply elem_of_nil in Hc.
  - simpl. apply elem_of_cons in Hc as [<- | Hc]; [| by apply IH].
    apply Hmono. unfold detect_cycles_step.
    rewrite bool_decide_eq_true_2 by lia.
    case_decide; [done | simpl; apply elem_of_union; left; by apply elem_of_singleton].
Qed.

(** X4: no cycle of a reported length is lost: every cycle of 3 to 5 nodes
    that the enumerator reports has a ring whose members are a rotation of
    it. *)
Theorem detect_cycles_covers_every_cycle
    (simple_cycles : DiGraph → list (list string)) (g : DiGraph) :
  Forall
    (λ c, 3 ≤ Z.of_nat (length c) ≤ 5 →
          ∃ r, r ∈ detect_cycles simple_cycles g ∧
               is_rotation c (FraudRing.members r))
    (simple_cycles g).
Proof.
  apply Forall_forall. intros c Hc Hlen.
  pose proof (detect_cycles_fold_seen 3 5 (simple_cycles g) ([], ∅) c Hc Hlen)
    as Hseen.
  pose proof (detect_cycles_of_inv 3 5 (simple_cycles g)) as Hinv.
  apply (ci_seen _ _ _ _ Hinv), list_elem_of_fmap in Hseen as (r & Hkey & Hr).
  exists r. split; [done |]. simpl in Hkey.
  pose proof (ci_shape _ _ _ _ Hinv) as Hshape. rewrite Forall_forall in Hshape.
  destruct (Hshape r Hr) as [_ Hrlen].
  eapply is_rotation_trans.
  - apply canonical_key_is_rotation. intros ->. simpl in Hlen. lia.
  - rewrite Hkey. apply is_rotation_sym, canonical_key_is_rotation.
    intros Hnil. rewrite Hnil in Hrlen. simpl in Hrlen. lia.
Qed.

(** ** detect_smurfing: when a ring is emitted, and its shape *)

Lemma sorted_timestamps_length es : length (sorted_timestamps es) = length es.
Proof.
  unfold sorted_timestamps, edge_timestamps.
  by rewrite merge_sort_Permutation, length_fmap.
Qed.

Lemma smurf_ring_is_Some fan_threshold window view side pattern mk_details node :
  0 ≤ window →
  is_Some (smurf_ring fan_threshold window view side pattern mk_details node) ↔
  ∃ i j, is_window window (sorted_timestamps (view node)) i j ∧
         fan_threshold ≤ Z.of_nat j - Z.of_nat i.
Proof.
  intros Hw.
  pose proof (sliding_window_spec fan_threshold window
                (sorted_timestamps (view node))
                (sorted_timestamps_sorted (view node)) Hw) as Hspec.
  unfold smurf_ring. fold (sorted_timestamps (view node)). split.
  - case_bool_decide as Hlen; [| by intros [? ?]].
    destruct (sliding_window _ _ _) as [[i j] |]; [| by intros [? ?]].
    intros _. exists i, j. by destruct Hspec as (? & ? & _).
  - intros (i & j & Hwin & Hthr).
    assert (fan_threshold ≤ Z.of_nat (length (view node))) as Hlen.
    { destruct Hwin as (t & _ & Hb & _).
      rewrite sorted_timestamps_length in Hb. lia. }
    rewrite bool_decide_eq_true_2 by done.
    destruct (sliding_window _ _ _) as [[a b] |]; [done |].
    specialize (Hspec i j Hwin). lia.
Qed.

Lemma detect_smurfing_ring_origin g r :
  r ∈ (detect_smurfing g).1 ↔
  ∃ n, n ∈ nodes g ∧ (fan_in_ring g n = Some r ∨ fan_out_ring g n = Some r).
Proof.
  rewrite detect_smurfing_rings, elem_of_app, !list_elem_of_omap. split.
  - intros [(n & ? & ?) | (n & ? & ?)]; exists n; eauto.
  - intros (n & ? & [? | ?]); [left | right]; eauto.
Qed.

(** X5: a node gets a fan-in ring exactly when it is a node whose sorted
    incoming timestamps have a window of at least 10 transfers within 72
    hours, and a fan-out ring exactly when its outgoing timestamps have
    one; the test on the number of edges excludes nothing more.  A node
    with fewer than 10 incoming edges never gets a fan-in ring. *)
Theorem smurfing_ring_iff_window (g : DiGraph) (N : string) :
  ((∃ r c, r ∈ (detect_smurfing g).1 ∧ FraudRing.details r = DetailsFanIn N c) ↔
   N ∈ nodes g ∧
   ∃ i j, is_window (timedelta_hours 72) (sorted_timestamps (in_edges g N)) i j ∧
          10 ≤ Z.of_nat j - Z.of_nat i) ∧
  ((∃ r c, r ∈ (detect_smurfing g).1 ∧ FraudRing.details r = DetailsFanOut N c) ↔
   N ∈ nodes g ∧
   ∃ i j, is_window (timedelta_hours 72) (sorted_timestamps (out_edges g N)) i j ∧
          10 ≤ Z.of_nat j - Z.of_nat i) ∧
  (in_degree g N < 10 →
   ¬ ∃ r c, r ∈ (detect_smurfing g).1 ∧ FraudRing.details r = DetailsFanIn N c).
Proof.
  assert (0 ≤ timedelta_hours 72) as Hw by done.
  assert ((∃ r c, r ∈ (detect_smurfing g).1 ∧ FraudRing.details r = DetailsFanIn N c) ↔
          N ∈ nodes g ∧
          ∃ i j, is_window (timedelta_hours 72)
                   (sorted_timestamps (in_edges g N)) i j ∧
                 10 ≤ Z.of_nat j - Z.of_nat i) as Hin.
  { rewrite <- (smurf_ring_is_Some 10 (timedelta_hours 72) (in_edges g) edge_source
                  smurfing_fan_in DetailsFanIn N Hw).
    fold (fan_in_ring g N). split.
    - intros (r & c & (n & Hn & Hr)%detect_smurfing_ring_origin & Hd).
      destruct Hr as [Hr | Hr];
        pose proof Hr as (_ & i & j & _ & Hd' & _)%smurf_ring_inv;
        rewrite Hd in Hd'; [| done].
      injection Hd' as -> _. eauto.
    - intros [Hn [r Hr]].
      pose proof Hr as (_ & i & j & _ & Hd' & _)%smurf_ring_inv.
      exists r, (Z.of_nat j - Z.of_nat i). split; [| done].
      apply detect_smurfing_ring_origin. eauto. }
  split; [exact Hin | split].
  - rewrite <- (smurf_ring_is_Some 10 (timedelta_hours 72) (out_edges g) edge_target
                  smurfing_fan_out DetailsFanOut N Hw).
    fold (fan_out_ring g N). split.
    + intros (r & c & (n & Hn & Hr)%detect_smurfing_ring_origin & Hd).
      destruct Hr as [Hr | Hr];
        pose proof Hr as (_ & i & j & _ & Hd' & _)%smurf_ring_inv;
        rewrite Hd in Hd'; [done |].
      injection Hd' as -> _. eauto.
    + intros [Hn [r Hr]].
      pose proof Hr as (_ & i & j & _ & Hd' & _)%smurf_ring_inv.
      exists r, (Z.of_nat j - Z.of_nat i). split; [| done].
      apply detect_smurfing_ring_origin. eauto.
  - intros Hdeg [_ (i & j & (t & _ & Hb & _) & Hthr)]%Hin.
    rewrite sorted_timestamps_length in Hb. unfold in_degree in Hdeg. lia.
Qed.

Lemma index_range_length {A} (l : list A) i j :
  (i ≤ j ≤ length l)%nat → length (index_range l i j) = (j - i)%nat.
Proof. intros Hij. unfold index_range. rewrite length_take, length_drop. lia. Qed.

Lemma index_range_sublist {A} (l : list A) i j : index_range l i j `sublist_of` l.
Proof.
  unfold index_range. etrans; [apply sublist_take | apply sublist_drop].
Qed.

Lemma smurf_ring_members_count fan_threshold window view side pattern mk_details
    node r :
  0 ≤ window → NoDup (side <$> view node) →
  smurf_ring fan_threshold window view side pattern mk_details node = Some r →
  ∃ c, FraudRing.details r = mk_details node c ∧
       FraudRing.pattern_type r = pattern ∧
       fan_threshold ≤ c ≤ Z.of_nat (length (view node)) ∧
       FraudRing.risk_score r = 70 + (c - fan_threshold) * 2 ∧
       c ≤ Z.of_nat (length (FraudRing.members r)) ≤ c + 1 ∧
       (node ∉ (side <$> view node) →
        Z.of_nat (length (FraudRing.members r)) = c + 1).
Proof.
  intros Hw Hnd Hr.
  pose proof Hr as (Hp & i & j & Hsw & Hd & Hrisk & Hm)%smurf_ring_inv.
  pose proof (sliding_window_spec fan_threshold window
                (sorted_timestamps (view node))
                (sorted_timestamps_sorted (view node)) Hw) as Hspec.
  rewrite Hsw in Hspec. destruct Hspec as ((t & _ & Hb & _) & Hthr & _).
  rewrite sorted_timestamps_length in Hb.
  exists (Z.of_nat j - Z.of_nat i).
  split; [done | split; [done | split; [lia | split; [lia |]]]].
  set (parties := side <$> index_range (view node) i j) in *.
  assert (NoDup parties) as Hpnd.
  { eapply sublist_NoDup; [exact Hnd |]. apply fmap_sublist, index_range_sublist. }
  assert (length parties = (j - i)%nat) as Hplen.
  { unfold parties. rewrite length_fmap. by apply index_range_length. }
  assert (size (list_to_set parties : gset string) = (j - i)%nat) as Hsize.
  { by rewrite size_list_to_set. }
  rewrite Hm. change (length (elements ?X)) with (size X).
  destruct (decide (node ∈ parties)) as [Hin | Hout].
  - assert (list_to_set parties ∪ {[node]} = (list_to_set parties : gset string))
      as ->.
    { rewrite (comm_L (∪)). apply subseteq_union_1_L, singleton_subseteq_l.
      by apply elem_of_list_to_set. }
    rewrite Hsize. split; [lia |]. intros Hnot. exfalso. apply Hnot.
    eapply elem_of_sublist; [exact Hin |]. apply fmap_sublist, index_range_sublist.
  - rewrite size_union; [| by apply disjoint_singleton_r; rewrite elem_of_list_to_set].
    rewrite Hsize, size_singleton.
    split; [lia | intros _; lia].
Qed.

(** X6: on the graph of a batch, a fan-in ring with receiver N and
    cluster size c has 10 <= c <= in_degree(N), the score 70 + 2 * (c - 10),
    and lists c counterparties besides N: c + 1 members, or c when N pays
    itself within the listed edges; symmetrically for a fan-out ring. *)
Theorem smurfing_ring_shape
    (df : list Transaction) (r : FraudRing.t) (N : string) (c : Z) :
  r ∈ (detect_smurfing (build_graph df)).1 →
  (FraudRing.details r = DetailsFanIn N c →
   FraudRing.pattern_type r = smurfing_fan_in ∧
   10 ≤ c ≤ in_degree (build_graph df) N ∧
   FraudRing.risk_score r = 70 + (c - 10) * 2 ∧
   c ≤ Z.of_nat (length (FraudRing.members r)) ≤ c + 1 ∧
   ((N, N) ∉ (edge_key <$> edges (build_graph df)) →
    Z.of_nat (length (FraudRing.members r)) = c + 1)) ∧
  (FraudRing.details r = DetailsFanOut N c →
   FraudRing.pattern_type r = smurfing_fan_out ∧
   10 ≤ c ≤ out_degree (build_graph df) N ∧
   FraudRing.risk_score r = 70 + (c - 10) * 2 ∧
   c ≤ Z.of_nat (length (FraudRing.members r)) ≤ c + 1 ∧
   ((N, N) ∉ (edge_key <$> edges (build_graph df)) →
    Z.of_nat (length (FraudRing.members r)) = c + 1)).
Proof.
  pose proof (build_graph_wf df) as Hwf.
  assert (0 ≤ timedelta_hours 72) as Hw by done.
  assert (∀ n, (n, n) ∉ (edge_key <$> edges (build_graph df)) →
               (n ∉ (edge_source <$> in_edges (build_graph df) n)) ∧
               (n ∉ (edge_target <$> out_edges (build_graph df) n))) as Hloop.
  { intros n Hn. rewrite (edges_Permutation _ Hwf) in Hn.
    split; intros ([[u v] a] & Heq & [Hside Hin]%list_elem_of_filter)%list_elem_of_fmap;
      unfold edge_source, edge_target in *; simpl in *;
      apply Hn, list_elem_of_fmap; exists (u, v, a);
      (split; [unfold edge_key; simpl; congruence | done]). }
  intros (n & _ & Hr)%detect_smurfing_ring_origin.
  destruct Hr as [Hr | Hr].
  - destruct (smurf_ring_members_count _ _ _ _ _ _ _ _ Hw
                ltac:(rewrite in_edges_sources; apply NoDup_remove_dups) Hr)
      as (c' & Hd & Hp & Hc & Hrisk & Hlen & Hfull).
    split; intros Hd'; rewrite Hd in Hd'; [| done].
    injection Hd' as -> ->.
    split; [done | split; [done | split; [done | split; [done |]]]].
    intros Hn. by apply Hfull, Hloop.
  - destruct (smurf_ring_members_count _ _ _ _ _ _ _ _ Hw
                ltac:(rewrite out_edges_targets; apply NoDup_remove_dups) Hr)
      as (c' & Hd & Hp & Hc & Hrisk & Hlen & Hfull).
    split; intros Hd'; rewrite Hd in Hd'; [done |].
    injection Hd' as -> ->.
    split; [done | split; [done | split; [done | split; [done |]]]].
    intros Hn. by apply Hfull, Hloop.
Qed.

Lemma smurfing_ring_shape_witness :
  ∃ r, r ∈ (detect_smurfing (build_graph fanin_late_first)).1 ∧
       FraudRing.details r = DetailsFanIn "H" 10 ∧
       FraudRing.risk_score r = 70 + (10 - 10) * 2 ∧
       Z.of_nat (length (FraudRing.members r)) = 10 + 1.
Proof.
  eexists.
  assert (FraudRing.mk ""
            ["S10"; "S07"; "S03"; "S05"; "S09"; "S01"; "S06"; "S02"; "S04";
             "S08"; "H"] smurfing_fan_in 70 (DetailsFanIn "H" 10)
          ∈ (detect_smurfing (build_graph fanin_late_first)).1) as Hr.
  { vm_compute. left. }
  split; [exact Hr | split; [reflexivity |]].
  destruct (proj1 (smurfing_ring_shape fanin_late_first _ "H" 10 Hr) eq_refl)
    as (_ & _ & Hrisk & _ & Hfull).
  split; [exact Hrisk | apply Hfull; by_evaluation].
Defined.

(** ** detect_shell_chains: the paths that are reported *)

Lemma shell_push_elem g current path entry :
  entry ∈ shell_push g current path [] ↔
  ∃ e, e ∈ out_edges g current ∧ (edge_target e ∉ path) ∧
       entry = (edge_target e, path ++ [edge_target e]).
Proof.
  unfold shell_push.
  assert (∀ es (acc : Stack),
            entry ∈ fold_left
              (λ (stk : Stack) (e : Edge),
                 let neigh := edge_target e in
                 if decide (neigh ∈ path) then stk
                 else (neigh, path ++ [neigh]) :: stk) es acc ↔
            entry ∈ acc ∨
            ∃ e, e ∈ es ∧ (edge_target e ∉ path) ∧
                 entry = (edge_target e, path ++ [edge_target e])) as Hgen.
  { induction es as [| e es IH]; intros acc; simpl.
    - split; [by left | intros [? | (e & He & _)]; [done | by apply elem_of_nil in He]].
    - rewrite IH. case_decide as Hin.
      + split.
        * intros [? | (e' & ? & ? & ?)]; [by left | right; exists e'].
          split; [by right | done].
        * intros [? | (e' & [-> | ?]%elem_of_cons & ? & ?)];
            [by left | done | right; by exists e'].
      + rewrite elem_of_cons. split.
        * intros [[-> | ?] | (e' & ? & ? & ?)];
            [right; exists e; split; [left | done] | by left |
             right; exists e'; split; [by right | done]].
        * intros [? | (e' & [-> | ?]%elem_of_cons & ? & ->)];
            [left; by right | left; by left | right; by exists e']. }
  rewrite Hgen. split; [intros [H | ?]; [by apply elem_of_nil in H | done] | by right].
Qed.

Lemma shell_visit_inv min_hops low path st :
  shell_visit min_hops low path st = st ∨
  (min_hops ≤ Z.of_nat (length path) - 1 ∧ 2 < Z.of_nat (length path) ∧
   interior path ≠ [] ∧ Forall (λ node, node ∈ low) (interior path) ∧
   (path ∉ visited_paths st) ∧
   shell_visit min_hops low path st = shell_emit path st).
Proof.
  unfold shell_visit. case_bool_decide as Hlen; [| by left].
  case_bool_decide as Hint; [| by left].
  case_decide; [by left |]. right. destruct Hint, Hlen. done.
Qed.

(** An invariant of the search that may use what the loop knows about a
    stack entry: its path ends in its node, and the hop bound holds when
    the entry is visited. *)
Section shell_entry_invariant.
Context (min_hops max_hops : Z) (low : gset string) (g : DiGraph).
Context (P : ShellState → Prop) (Q : string → list string → Prop).
Hypothesis visit_P :
  ∀ current path st,
    Q current path → Z.of_nat (length path) - 1 ≤ max_hops → P st →
    P (shell_visit min_hops low path st).
Hypothesis extend_Q :
  ∀ current path e,
    Q current path → e ∈ out_edges g current → edge_target e ∉ path →
    Q (edge_target e) (path ++ [edge_target e]).

Lemma shell_entries_inv (f : string → list string → ShellState → ShellState)
    (entries : Stack) st :
  (∀ current path st, Q current path → P st → P (f current path st)) →
  Forall (λ en, Q en.1 en.2) entries → P st →
  P (fold_left (λ st en, f en.1 en.2 st) entries st).
Proof.
  intros Hf. revert st.
  induction entries as [| en entries IH]; intros st Hen HP; simpl; [done |].
  apply Forall_cons in Hen as [Hq Hen]. apply IH; [done |]. by apply Hf.
Qed.

Lemma shell_dfs_inv k current path st :
  Q current path → P st → P (shell_dfs min_hops max_hops low g k current path st).
Proof.
  revert current path st. induction k as [| k IH]; intros current path st HQ HP;
    simpl; [done |].
  case_bool_decide as Hhop; [done |].
  apply (shell_entries_inv (shell_dfs min_hops max_hops low g k)); [apply IH | |].
  - apply Forall_forall. intros en (e & He & Hnew & ->)%shell_push_elem. simpl.
    by apply (extend_Q current).
  - apply (visit_P current); [done | lia | done].
Qed.

Lemma detect_shell_fold_inv k starts st :
  (∀ s, s ∈ starts → Q s [s]) → P st →
  P (fold_left
       (λ st start, shell_dfs min_hops max_hops low g k start [start] st)
       starts st).
Proof.
  revert st. induction starts as [| s starts IH]; intros st Hs HP; simpl; [done |].
  apply IH; [intros s' Hs'; apply Hs; by right |].
  apply shell_dfs_inv; [apply Hs; left | done].
Qed.
End shell_entry_invariant.

Lemma dict_fromkeys_NoDup path : NoDup path → dict_fromkeys path = path.
Proof.
  unfold dict_fromkeys. intros Hnd.
  assert (∀ acc, NoDup (acc ++ path) →
            fold_left (λ acc x, if decide (x ∈ acc) then acc else acc ++ [x])
              path acc = acc ++ path) as Hgen.
  { clear Hnd. induction path as [| x path IH]; intros acc Hnd; simpl.
    - by rewrite app_nil_r.
    - rewrite decide_False.
      + rewrite IH; [by rewrite <- app_assoc |]. by rewrite <- app_assoc.
      + apply NoDup_app in Hnd as (_ & Hdis & _). intros Hin.
        apply (Hdis x Hin). left. }
  by apply (Hgen []).
Qed.

Lemma is_walk_snoc g path current e :
  is_walk g path → last path = Some current → e ∈ out_edges g current →
  is_walk g (path ++ [edge_target e]).
Proof.
  intros Hwalk Hlast [Hsrc He]%list_elem_of_filter i u v Hu Hv.
  destruct (decide (S i < length path)%nat) as [Hlt | Hge].
  - rewrite lookup_app_l in Hu by lia. rewrite lookup_app_l in Hv by lia.
    by apply (Hwalk i).
  - pose proof (lookup_lt_Some _ _ _ Hv) as Hb. rewrite length_app in Hb.
    simpl in Hb. assert (S i = length path) as Hi by lia.
    rewrite lookup_app_r in Hv by lia. rewrite Hi, Nat.sub_diag in Hv.
    injection Hv as <-.
    rewrite lookup_app_l in Hu by lia.
    rewrite last_lookup, <- Hi in Hlast. simpl in Hlast.
    rewrite Hlast in Hu. injection Hu as <-.
    apply list_elem_of_fmap. exists e. split; [| done].
    rewrite <- Hsrc. by destruct e as [[? ?] ?].
Qed.

Lemma interior_length path :
  length (interior path) = (length path - 2)%nat.
Proof. unfold interior. rewrite length_take, length_drop. lia. Qed.

Lemma shell_rings_are_walks min_hops max_hops thr g r :
  r ∈ (detect_shell_chains_with min_hops max_hops thr g).1 →
  ∃ path, r = shell_ring_of path ∧ NoDup path ∧ is_walk g path ∧
          min_hops ≤ Z.of_nat (length path) - 1 ≤ max_hops ∧
          2 < Z.of_nat (length path) ∧
          (∃ s, head path = Some s ∧ s ∈ nodes g) ∧
          Forall (λ n, n ∈ low_activity_nodes thr g) (interior path).
Proof.
  unfold detect_shell_chains_with. simpl.
  set (low := low_activity_nodes thr g).
  set (good := λ r, ∃ path, r = shell_ring_of path ∧ NoDup path ∧ is_walk g path ∧
          min_hops ≤ Z.of_nat (length path) - 1 ≤ max_hops ∧
          2 < Z.of_nat (length path) ∧
          (∃ s, head path = Some s ∧ s ∈ nodes g) ∧
          Forall (λ n, n ∈ low) (interior path)).
  assert (Forall good
            (shell_rings
               (fold_left
                  (λ st start,
                     shell_dfs min_hops max_hops low g (Z.to_nat (max_hops + 2))
                       start [start] st)
                  (nodes g) (mkShellState [] [] ∅)))) as Hall.
  { apply (detect_shell_fold_inv min_hops max_hops low g
             (λ st, Forall good (shell_rings st))
             (λ current path,
                last path = Some current ∧ NoDup path ∧ is_walk g path ∧
                ∃ s, head path = Some s ∧ s ∈ nodes g)).
    - intros current path st (Hlast & Hnd & Hwalk & Hhead) Hmax Hst.
      destruct (shell_visit_inv min_hops low path st)
        as [-> | (Hmin & Hlen & Hne & Hlow & _ & ->)]; [done |].
      simpl. apply Forall_app. split; [done |]. apply Forall_singleton.
      exists path. done.
    - intros current path e (Hlast & Hnd & Hwalk & s & Hhead & Hs) He Hnew.
      split; [apply last_snoc |]. split; [| split].
      + apply NoDup_app. split; [done |]. split; [| apply NoDup_singleton].
        intros x Hx ->%list_elem_of_singleton. done.
      + by eapply is_walk_snoc.
      + exists s. split; [| done]. by destruct path.
    - intros s Hs. split; [done |]. split; [apply NoDup_singleton |].
      split; [| by exists s]. intros i u v Hu Hv. by destruct i.
    - constructor. }
  rewrite Forall_forall in Hall. apply Hall.
Qed.

(** X7: every ring of detect_shell_chains reports a simple directed path
    of the graph that starts at a node and has between 3 and 6 hops: its
    members are the nodes of the path in path order, none repeated, and
    its score is 50 + 5 * (number of members - 3), hence from 55 to 70. *)
Theorem shell_chain_rings_are_simple_paths (g : DiGraph) :
  Forall
    (λ r,
       let path := FraudRing.members r in
       FraudRing.pattern_type r = shell_chain ∧
       FraudRing.ring_id r = "" ∧
       FraudRing.details r = DetailsShell path (interior path) ∧
       NoDup path ∧ is_walk g path ∧
       3 ≤ Z.of_nat (length path) - 1 ≤ 6 ∧
       path_first path ∈ nodes g ∧
       FraudRing.risk_score r = 50 + (Z.of_nat (length path) - 3) * 5 ∧
       55 ≤ FraudRing.risk_score r ≤ 70)
    (detect_shell_chains g).1.
Proof.
  apply Forall_forall. intros r Hr.
  apply shell_rings_are_walks in Hr
    as (path & -> & Hnd & Hwalk & Hhops & Hlen & (s & Hhead & Hs) & Hlow).
  cbv zeta. unfold shell_ring_of. simpl. rewrite dict_fromkeys_NoDup by done.
  rewrite interior_length.
  split; [done | split; [done | split; [done | split; [done | split; [done |]]]]].
  split; [done |]. split; [| split; lia].
  unfold path_first. by rewrite Hhead.
Qed.

(** ** detect_shell_chains: no qualifying path is missed, none twice *)

Lemma shell_grows_refl st :
  (∀ p, p ∈ visited_paths st → shell_ring_of p ∈ shell_rings st) →
  shell_grows st st.
Proof. by split. Qed.

Lemma shell_visit_grows min_hops low path st0 st :
  shell_grows st0 st → shell_grows st0 (shell_visit min_hops low path st).
Proof.
  intros [Hvis Hsub].
  destruct (shell_visit_inv min_hops low path st) as [-> | (_ & _ & _ & _ & _ & ->)];
    [done |].
  split; simpl.
  - intros p [->%elem_of_singleton | Hp]%elem_of_union; apply elem_of_app;
      [right; apply list_elem_of_singleton; done | left; by apply Hvis].
  - intros r Hr. apply elem_of_app. left. by apply Hsub.
Qed.

Lemma shell_dfs_grows min_hops max_hops low g k current path st0 st :
  shell_grows st0 st →
  shell_grows st0 (shell_dfs min_hops max_hops low g k current path st).
Proof.
  intros Hst.
  apply (shell_dfs_preserves min_hops max_hops low g (shell_grows st0) (λ _, True));
    [| done | done | done].
  intros p st' _. apply shell_visit_grows.
Qed.

Lemma shell_entries_grow min_hops max_hops low g k (entries : Stack) st0 st :
  shell_grows st0 st →
  shell_grows st0
    (fold_left (λ st en, shell_dfs min_hops max_hops low g k en.1 en.2 st)
       entries st).
Proof.
  revert st. induction entries as [| en entries IH]; intros st Hst; simpl; [done |].
  by apply IH, shell_dfs_grows.
Qed.

Lemma shell_starts_grow min_hops max_hops low g k (starts : list string) st0 st :
  shell_grows st0 st →
  shell_grows st0
    (fold_left (λ st start, shell_dfs min_hops max_hops low g k start [start] st)
       starts st).
Proof.
  revert st. induction starts as [| s starts IH]; intros st Hst; simpl; [done |].
  by apply IH, shell_dfs_grows.
Qed.

Lemma shell_grows_trans st0 st1 st2 :
  shell_grows st0 st1 → shell_grows st1 st2 → shell_grows st0 st2.
Proof. intros [_ H1] [H2 H3]. split; [done |]. by etrans. Qed.

Lemma shell_visit_emits min_hops low path st0 st :
  shell_grows st0 st →
  min_hops ≤ Z.of_nat (length path) - 1 → 2 < Z.of_nat (length path) →
  interior path ≠ [] → Forall (λ node, node ∈ low) (interior path) →
  shell_ring_of path ∈ shell_rings (shell_visit min_hops low path st).
Proof.
  intros [Hvis _] Hmin Hlen Hne Hlow. unfold shell_visit.
  rewrite bool_decide_eq_true_2 by done. rewrite bool_decide_eq_true_2 by done.
  case_decide as Hseen; [by apply Hvis |].
  simpl. apply elem_of_app. right. by apply list_elem_of_singleton.
Qed.

(** The search started at [(current, path)] reaches every extension
    [path ++ ext] that is a simple path of the graph within the hop
    bound, provided the depth budget exceeds the length of [ext]. *)
Lemma shell_dfs_reaches min_hops max_hops low g ext :
  ∀ k current path st0 st,
    shell_grows st0 st → last path = Some current →
    NoDup (path ++ ext) → is_walk g (path ++ ext) →
    Z.of_nat (length (path ++ ext)) - 1 ≤ max_hops →
    (length ext < k)%nat →
    min_hops ≤ Z.of_nat (length (path ++ ext)) - 1 →
    2 < Z.of_nat (length (path ++ ext)) →
    interior (path ++ ext) ≠ [] →
    Forall (λ node, node ∈ low) (interior (path ++ ext)) →
    shell_ring_of (path ++ ext)
      ∈ shell_rings (shell_dfs min_hops max_hops low g k current path st).
Proof.
  induction ext as [| v ext IH];
    intros k current path st0 st Hst Hlast Hnd Hwalk Hmax Hk Hmin Hlen Hne Hlow;
    (destruct k as [| k]; [simpl in Hk; lia |]); simpl.
  - rewrite app_nil_r in *.
    rewrite bool_decide_eq_false_2 by lia.
    apply (proj2 (shell_entries_grow min_hops max_hops low g k _ _ _
                    (shell_grows_refl _
                       (proj1 (shell_visit_grows min_hops low path st0 st Hst))))).
    by eapply shell_visit_emits.
  - rewrite length_app in Hmax. simpl in Hmax.
    rewrite bool_decide_eq_false_2 by lia.
    assert ((v, path ++ [v]) ∈ shell_push g current path []) as Hentry.
    { apply shell_push_elem.
      assert ((current, v) ∈ (edge_key <$> adj g)) as Hedge.
      { apply (Hwalk (pred (length path))).
        - rewrite lookup_app_l; [by rewrite <- last_lookup |].
          destruct path; [done | simpl; lia].
        - destruct path as [| x path]; [done |]. simpl pred.
          rewrite lookup_app_r; [| simpl; lia].
          by rewrite Nat.sub_diag. }
      apply list_elem_of_fmap in Hedge as (e & Hkey & He).
      destruct e as [[u w] a]. unfold edge_key in Hkey. simpl in Hkey.
      injection Hkey as <- <-.
      exists (current, v, a). split; [by apply list_elem_of_filter |].
      split; [| done]. unfold edge_target. simpl.
      apply NoDup_app in Hnd as (_ & Hdis & _). intros Hin.
      apply (Hdis v Hin). left. }
    apply list_elem_of_split in Hentry as (l1 & l2 & ->).
    rewrite fold_left_app. simpl.
    set (st1 := fold_left _ l1 _).
    assert (shell_grows st0 st1) as Hst1.
    { apply shell_entries_grow. by apply shell_visit_grows. }
    assert (shell_grows st1
              (shell_dfs min_hops max_hops low g k v (path ++ [v]) st1)) as Hst2.
    { apply shell_dfs_grows, shell_grows_refl, Hst1. }
    apply (proj2 (shell_entries_grow min_hops max_hops low g k l2 _ _
                    (shell_grows_refl _ (proj1 Hst2)))).
    assert (path ++ v :: ext = (path ++ [v]) ++ ext) as Heq
      by (by rewrite <- app_assoc).
    rewrite Heq in Hwalk, Hnd, Hmin, Hlen, Hne, Hlow |- *.
    apply (IH k v (path ++ [v]) st0 st1); try done.
    + apply last_snoc.
    + rewrite <- Heq, length_app. simpl. lia.
    + simpl in Hk. lia.
Qed.

Lemma shell_starts_reach min_hops max_hops low g k start ext starts st0 st :
  shell_grows st0 st → start ∈ starts →
  NoDup (start :: ext) → is_walk g (start :: ext) →
  Z.of_nat (length (start :: ext)) - 1 ≤ max_hops →
  (length ext < k)%nat →
  min_hops ≤ Z.of_nat (length (start :: ext)) - 1 →
  2 < Z.of_nat (length (start :: ext)) →
  interior (start :: ext) ≠ [] →
  Forall (λ node, node ∈ low) (interior (start :: ext)) →
  shell_ring_of (start :: ext)
    ∈ shell_rings
        (fold_left
           (λ st start, shell_dfs min_hops max_hops low g k start [start] st)
           starts st).
Proof.
  intros Hst (n1 & n2 & ->)%list_elem_of_split Hnd Hwalk Hmax Hk Hmin Hlen Hne Hlow.
  rewrite fold_left_app. cbn [fold_left].
  set (st1 := fold_left _ n1 st).
  assert (shell_grows st0 st1) as Hst1 by (by apply shell_starts_grow).
  assert (shell_grows st1
            (shell_dfs min_hops max_hops low g k start [start] st1)) as Hst2.
  { apply shell_dfs_grows, shell_grows_refl, Hst1. }
  apply (proj2 (shell_starts_grow min_hops max_hops low g k n2 _ _
                  (shell_grows_refl _ (proj1 Hst2)))).
  by apply (shell_dfs_reaches min_hops max_hops low g ext k start [start] st0 st1).
Qed.

Lemma build_graph_walk_nodes df path n :
  is_walk (build_graph df) path → (2 ≤ length path)%nat → n ∈ path →
  n ∈ nodes (build_graph df).
Proof.
  intros Hwalk Hlen [i Hi]%list_elem_of_lookup.
  pose proof (build_graph_wf df) as [_ _ Hends].
  destruct i as [| i].
  - destruct (lookup_lt_is_Some_2 path 1 ltac:(lia)) as [v Hv].
    pose proof (Hwalk 0%nat n v Hi Hv) as (e & Hkey & He)%list_elem_of_fmap.
    destruct (Hends e He) as [Hs _]. destruct e as [[u w] a].
    unfold edge_key in Hkey. simpl in Hkey. by injection Hkey as -> ->.
  - destruct (lookup_lt_is_Some_2 path i) as [u Hu].
    { apply lookup_lt_Some in Hi. lia. }
    pose proof (Hwalk i u n Hu Hi) as (e & Hkey & He)%list_elem_of_fmap.
    destruct (Hends e He) as [_ Ht]. destruct e as [[u' w] a].
    unfold edge_key in Hkey. simpl in Hkey. by injection Hkey as -> ->.
Qed.

(** X8: on the graph of a batch, every simple directed path with between
    3 and 6 hops whose interior nodes all have activity at most 3 is
    reported as a shell chain, whatever its first and last node are. *)
Theorem shell_chains_report_every_qualifying_path
    (df : list Transaction) (path : list string) :
  NoDup path → is_walk (build_graph df) path →
  3 ≤ Z.of_nat (length path) - 1 ≤ 6 →
  Forall (λ n, activity (build_graph df) n ≤ 3) (interior path) →
  shell_ring_of path ∈ (detect_shell_chains (build_graph df)).1.
Proof.
  intros Hnd Hwalk Hhops Hact.
  set (g := build_graph df) in *.
  destruct path as [| start ext]; [simpl in Hhops; lia |].
  assert (start ∈ nodes g) as Hstart.
  { apply (build_graph_walk_nodes df (start :: ext)); [done | simpl in *; lia | left]. }
  assert (Forall (λ n, n ∈ low_activity_nodes 3 g) (interior (start :: ext))) as Hlow.
  { apply Forall_forall. intros n Hn. apply elem_of_low_activity_nodes. split.
    - apply (build_graph_walk_nodes df (start :: ext));
        [done | simpl in *; lia | by apply interior_subseteq].
    - rewrite Forall_forall in Hact. by apply Hact. }
  assert (interior (start :: ext) ≠ []) as Hne.
  { intros Heq%(f_equal length). rewrite interior_length in Heq. simpl in *. lia. }
  unfold detect_shell_chains, detect_shell_chains_with. cbv zeta. cbn [fst].
  apply (shell_starts_reach 3 6 (low_activity_nodes 3 g) g (Z.to_nat (6 + 2))
           start ext (nodes g) (mkShellState [] [] ∅) (mkShellState [] [] ∅));
    try done; simpl in *; lia.
Qed.

Lemma shell_chains_report_every_qualifying_path_witness :
  shell_ring_of ["P0"; "P1"; "P2"; "P3"]
    ∈ (detect_shell_chains (build_graph chain5)).1.
Proof.
  apply shell_chains_report_every_qualifying_path.
  - by_evaluation.
  - intros i u v Hu Hv.
    do 3 (destruct i as [| i];
          [injection Hu as <-; injection Hv as <-; by_evaluation |]).
    destruct i; done.
  - simpl. lia.
  - by_evaluation.
Defined.

(** X9: detect_shell_chains reports no path twice: the rings differ
    pairwise in their [details], and in their member lists. *)
Theorem shell_chain_rings_pairwise_distinct (g : DiGraph) :
  NoDup (FraudRing.details <$> (detect_shell_chains g).1) ∧
  NoDup (FraudRing.members <$> (detect_shell_chains g).1).
Proof.
  assert (NoDup (FraudRing.details <$> (detect_shell_chains g).1)) as Hdet.
  { unfold detect_shell_chains, detect_shell_chains_with. simpl.
    set (low := low_activity_nodes 3 g).
    set (inv := λ st,
           NoDup (FraudRing.details <$> shell_rings st) ∧
           ∀ r, r ∈ shell_rings st →
                ∃ p, FraudRing.details r = DetailsShell p (interior p) ∧
                     p ∈ visited_paths st).
    assert (inv (fold_left
                   (λ st start, shell_dfs 3 6 low g (Z.to_nat (6 + 2)) start [start] st)
                   (nodes g) (mkShellState [] [] ∅))) as [Hnd _]; [| done].
    apply (detect_shell_fold_preserves 3 6 low g inv (λ _, True)); [| done | done |].
    - intros path st _ [Hnd Hvis].
      destruct (shell_visit_inv 3 low path st) as [-> | (_ & _ & _ & _ & Hnew & ->)];
        [done |].
      split; simpl.
      + rewrite fmap_app. apply NoDup_app. split; [done |].
        split; [| apply NoDup_singleton].
        intros d (r & Hd & Hr)%list_elem_of_fmap Hd'%list_elem_of_singleton.
        simpl in Hd'. destruct (Hvis r Hr) as (p & Hp & Hin).
        rewrite Hd, Hp in Hd'. injection Hd' as -> _. done.
      + intros r [Hr | ->%list_elem_of_singleton]%elem_of_app.
        * destruct (Hvis r Hr) as (p & Hp & Hin). exists p. split; [done |].
          set_solver.
        * exists path. split; [done |]. set_solver.
    - split; [constructor | intros r Hr; by apply elem_of_nil in Hr]. }
  split; [done |].
  apply NoDup_fmap_2_strong; [| by apply NoDup_fmap_1 in Hdet].
  intros r1 r2
    (p1 & -> & Hnd1 & _)%shell_rings_are_walks
    (p2 & -> & Hnd2 & _)%shell_rings_are_walks.
  unfold shell_ring_of. simpl. rewrite !dict_fromkeys_NoDup by done.
  by intros ->.
Qed.

(** ** detect_shell_chains: the [while stack:] loop ends *)

Lemma shell_steps_while min_hops max_hops low g cfg cfg' :
  shell_steps min_hops max_hops low g cfg cfg' →
  shell_step min_hops max_hops low g cfg' = None →
  ∃ fuel, shell_while min_hops max_hops low g fuel cfg = Some cfg'.2.
Proof.
  unfold shell_steps. intros Hrun Hend.
  induction Hrun as [cfg | cfg cfg1 cfg2 Hstep _ IH].
  - exists 1%nat. simpl. by rewrite Hend.
  - destruct (IH Hend) as [fuel Hfuel]. exists (S fuel). simpl. by rewrite Hstep.
Qed.

Lemma shell_while_more min_hops max_hops low g fuel extra cfg st :
  shell_while min_hops max_hops low g fuel cfg = Some st →
  shell_while min_hops max_hops low g (fuel + extra) cfg = Some st.
Proof.
  revert cfg. induction fuel as [| fuel IH]; intros cfg; simpl; [done |].
  destruct (shell_step _ _ _ _ cfg); [apply IH | done].
Qed.

(** X10: for every graph, start node and state, the [while stack:] loop
    of detect_shell_chains started on [[(start, [start])]] finds the stack
    empty after finitely many iterations, in the state that the
    depth-first recursion of the model computes; more iterations do not
    change the result. *)
Theorem shell_loop_ends (g : DiGraph) (thr : Z) (start : string) (st : ShellState) :
  ∃ fuel, ∀ extra,
    shell_while 3 6 (low_activity_nodes thr g) g (fuel + extra) ([(start, [start])], st)
    = Some (shell_dfs 3 6 (low_activity_nodes thr g) g (Z.to_nat (6 + 2))
              start [start] st).
Proof.
  destruct (shell_loop_terminates 3 6 (low_activity_nodes thr g) g start st)
    as [Hrun Hend].
  destruct (shell_steps_while _ _ _ _ _ _ Hrun Hend) as [fuel Hfuel].
  exists fuel. intros extra. by apply shell_while_more.
Qed.

(** ** add_reason and ensure: the dictionary of accounts *)

Lemma find_account_cons acc_id a accounts :
  find_account acc_id (a :: accounts) =
  if decide (AccountScore.account_id a = acc_id) then Some a
  else find_account acc_id accounts.
Proof. unfold find_account. rewrite filter_cons. by case_decide. Qed.

Lemma find_account_Some acc_id accounts a :
  find_account acc_id accounts = Some a →
  a ∈ accounts ∧ AccountScore.account_id a = acc_id.
Proof.
  induction accounts as [| b accounts IH]; [done |].
  rewrite find_account_cons. case_decide as Hb.
  - intros [= ->]. split; [left | done].
  - intros [? ?]%IH. split; [by right | done].
Qed.

Lemma find_account_None acc_id accounts :
  find_account acc_id accounts = None ↔ acc_id ∉ account_ids accounts.
Proof.
  unfold account_ids. induction accounts as [| b accounts IH].
  - split; [intros _; apply not_elem_of_nil | done].
  - rewrite find_account_cons, fmap_cons, not_elem_of_cons. case_decide as Hb.
    + split; [done | intros [? _]; congruence].
    + rewrite IH. split; [intros ?; split; [congruence | done] | by intros [_ ?]].
Qed.

Lemma find_account_is_Some acc_id accounts :
  acc_id ∈ account_ids accounts → is_Some (find_account acc_id accounts).
Proof.
  intros Hin. destruct (find_account acc_id accounts) eqn:Hf; [done |].
  by apply find_account_None in Hf.
Qed.

Lemma find_account_app acc_id l1 l2 :
  find_account acc_id (l1 ++ l2) =
  match find_account acc_id l1 with
  | Some a => Some a
  | None => find_account acc_id l2
  end.
Proof.
  induction l1 as [| b l1 IH]; [done |].
  rewrite <- app_comm_cons, !find_account_cons. by case_decide.
Qed.

Lemma find_account_fmap (f : AccountScore.t → AccountScore.t) acc_id accounts :
  (∀ a, AccountScore.account_id (f a) = AccountScore.account_id a) →
  find_account acc_id (f <$> accounts) = f <$> find_account acc_id accounts.
Proof.
  intros Hf. induction accounts as [| b accounts IH]; [done |].
  rewrite fmap_cons, !find_account_cons, Hf. by case_decide.
Qed.

Lemma find_account_credit acc_id score rs accounts :
  find_account acc_id (credit acc_id score rs accounts) =
  Some (match find_account acc_id accounts with
        | Some a =>
            AccountScore.mk acc_id (AccountScore.risk_score a + score)
              (AccountScore.reasons a ++ rs)
        | None => AccountScore.mk acc_id (0 + score) rs
        end).
Proof.
  unfold credit. rewrite find_account_fmap; [| intros a; simpl; by case_decide].
  unfold ensure. case_decide as Hin.
  - destruct (find_account_is_Some _ _ Hin) as [a Ha]. rewrite Ha. simpl.
    apply find_account_Some in Ha as [_ Hid]. by rewrite decide_True.
  - rewrite find_account_app. apply find_account_None in Hin. rewrite Hin.
    rewrite find_account_cons. simpl. rewrite decide_True by done. simpl.
    by rewrite decide_True.
Qed.

Lemma find_account_credit_ne acc_id score rs accounts other :
  other ≠ acc_id →
  find_account other (credit acc_id score rs accounts) = find_account other accounts.
Proof.
  intros Hne. unfold credit.
  rewrite find_account_fmap; [| intros a; simpl; by case_decide].
  assert (find_account other (ensure acc_id accounts) = find_account other accounts)
    as ->.
  { unfold ensure. case_decide; [done |]. rewrite find_account_app.
    destruct (find_account other accounts); [done |].
    rewrite find_account_cons. simpl. by rewrite decide_False. }
  destruct (find_account other accounts) as [a |] eqn:Ha; [| done].
  apply find_account_Some in Ha as [_ Hid]. simpl.
  rewrite decide_False; [done | congruence].
Qed.

(** X11: add_reason on the dictionary of accounts: the account of
    [acc_id] is created with score 0.0 and no reasons when it is missing,
    then its score grows by [score] and [reason] is appended to its
    reasons; every other account stays as it was, and the keys keep
    their order, a new key coming last. *)
Theorem add_reason_updates_one_account
    (acc_id : string) (score : Q) (reason : Reason)
    (account_scores : list AccountScore.t) :
  find_account acc_id (add_reason acc_id score reason account_scores) =
    Some (match find_account acc_id account_scores with
          | Some a =>
              AccountScore.mk acc_id (AccountScore.risk_score a + score)
                (AccountScore.reasons a ++ [reason])
          | None => AccountScore.mk acc_id (0 + score) [reason]
          end) ∧
  (∀ other, other ≠ acc_id →
     find_account other (add_reason acc_id score reason account_scores) =
     find_account other account_scores) ∧
  account_ids (add_reason acc_id score reason account_scores) =
    account_ids account_scores ++
    (if decide (acc_id ∈ account_ids account_scores) then [] else [acc_id]).
Proof.
  unfold add_reason. split; [apply find_account_credit | split].
  - intros other Hne. by apply find_account_credit_ne.
  - unfold account_ids. rewrite credit_ids, ensure_ids.
    case_decide; [by rewrite app_nil_r | done].
Qed.

(** ** Reasons are appended and never dropped *)

Lemma credit_has_reason_new acc_id score rs accounts ρ :
  ρ ∈ rs → has_reason (credit acc_id score rs accounts) acc_id ρ.
Proof.
  intros Hρ. pose proof (find_account_credit acc_id score rs accounts) as Hf.
  apply find_account_Some in Hf as [Hin Hid].
  eexists. split; [exact Hin |]. split; [done |].
  destruct (find_account acc_id accounts); simpl; [| done].
  apply elem_of_app. by right.
Qed.

Lemma credit_has_reason_keep acc_id score rs accounts x ρ :
  has_reason accounts x ρ → has_reason (credit acc_id score rs accounts) x ρ.
Proof.
  intros (a & Ha & Hid & Hρ). unfold credit.
  assert (a ∈ ensure acc_id accounts) as Hens.
  { unfold ensure. case_decide; [done |]. apply elem_of_app. by left. }
  eexists. split; [by apply list_elem_of_fmap_2 |]. simpl.
  case_decide; simpl; [| done]. split; [congruence |].
  apply elem_of_app. by left.
Qed.

Section fold_credit_reasons.
Context {A : Type} (key : A → string) (amt : A → Q) (rs : A → list Reason).

Lemma fold_credit_has_reason_keep xs l x ρ :
  has_reason l x ρ →
  has_reason (fold_left (λ l a, credit (key a) (amt a) (rs a) l) xs l) x ρ.
Proof.
  revert l. induction xs as [| a xs IH]; intros l Hl; simpl; [done |].
  by apply IH, credit_has_reason_keep.
Qed.

Lemma fold_credit_has_reason_new xs l a ρ :
  a ∈ xs → ρ ∈ rs a →
  has_reason (fold_left (λ l a, credit (key a) (amt a) (rs a) l) xs l) (key a) ρ.
Proof.
  revert l. induction xs as [| b xs IH]; intros l Ha Hρ; simpl.
  - by apply elem_of_nil in Ha.
  - apply elem_of_cons in Ha as [-> | Ha]; [| by apply IH].
    by apply fold_credit_has_reason_keep, credit_has_reason_new.
Qed.
End fold_credit_reasons.

Lemma pattern_pass_has_reason_keep ps l x ρ :
  has_reason l x ρ → has_reason (pattern_pass ps l) x ρ.
Proof.
  unfold pattern_pass. revert l. induction ps as [| p ps IH]; intros l Hl; simpl;
    [done |].
  apply IH.
  by apply (fold_credit_has_reason_keep AccountScore.account_id
              AccountScore.risk_score AccountScore.reasons).
Qed.

Lemma pattern_pass_has_reason_new ps l p e ρ :
  p ∈ ps → e ∈ p → ρ ∈ AccountScore.reasons e →
  has_reason (pattern_pass ps l) (AccountScore.account_id e) ρ.
Proof.
  unfold pattern_pass. revert l. induction ps as [| q ps IH]; intros l Hp He Hρ; simpl.
  - by apply elem_of_nil in Hp.
  - apply elem_of_cons in Hp as [-> | Hp]; [| by apply IH].
    apply (pattern_pass_has_reason_keep ps).
    by apply (fold_credit_has_reason_new AccountScore.account_id
                AccountScore.risk_score AccountScore.reasons).
Qed.

Lemma ring_pass_has_reason_keep rings l x ρ :
  has_reason l x ρ → has_reason (ring_pass rings l) x ρ.
Proof.
  unfold ring_pass. revert l. induction rings as [| r rings IH]; intros l Hl; simpl;
    [done |].
  apply IH.
  by apply (fold_credit_has_reason_keep id
              (λ _, inject_Z (FraudRing.risk_score r) * 0.3)%Q
              (λ _, [MemberOfRing (FraudRing.pattern_type r)])).
Qed.

Lemma ring_pass_has_reason_new rings l r m :
  r ∈ rings → m ∈ FraudRing.members r →
  has_reason (ring_pass rings l) m (MemberOfRing (FraudRing.pattern_type r)).
Proof.
  unfold ring_pass. revert l. induction rings as [| q rings IH]; intros l Hr Hm; simpl.
  - by apply elem_of_nil in Hr.
  - apply elem_of_cons in Hr as [-> | Hr]; [| by apply IH].
    apply (ring_pass_has_reason_keep rings).
    apply (fold_credit_has_reason_new id
             (λ _, inject_Z (FraudRing.risk_score q) * 0.3)%Q
             (λ _, [MemberOfRing (FraudRing.pattern_type q)]) _ _ m);
      [done | apply list_elem_of_singleton; done].
Qed.

Lemma normalize_has_reason combined x ρ :
  has_reason combined x ρ → has_reason (normalize combined) x ρ.
Proof.
  unfold normalize. destruct combined as [| first others]; [done |].
  destruct (Qle_bool _ _); [done |].
  intros (a & Ha & Hid & Hρ).
  exists (rescale (max_risk first others) a). split; [| done].
  rewrite sorted_desc_Permutation. by apply list_elem_of_fmap_2.
Qed.

(** X12: every member of every ring of the output has an account whose
    reasons name the membership in a ring of that pattern. *)
Theorem ring_members_carry_membership_reason
    (simple_cycles : DiGraph → list (list string)) (df : list Transaction) :
  Forall
    (λ r,
       Forall
         (λ m, has_reason (accounts (detect_all_patterns simple_cycles df)) m
                 (MemberOfRing (FraudRing.pattern_type r)))
         (FraudRing.members r))
    (fraud_rings (detect_all_patterns simple_cycles df)).
Proof.
  rewrite detect_all_patterns_accounts, detect_all_patterns_fraud_rings.
  apply Forall_forall. intros r Hr. apply Forall_forall. intros m Hm.
  unfold combine_scores. by apply normalize_has_reason, ring_pass_has_reason_new.
Qed.

(** X13: no reason recorded by a detector is lost: each reason of an
    account in the evidence of detect_smurfing or detect_shell_chains is
    a reason of the account of the same id in the output. *)
Theorem evidence_reasons_reach_accounts
    (simple_cycles : DiGraph → list (list string)) (df : list Transaction) :
  Forall
    (λ e,
       Forall
         (λ ρ, has_reason (accounts (detect_all_patterns simple_cycles df))
                 (AccountScore.account_id e) ρ)
         (AccountScore.reasons e))
    ((detect_smurfing (build_graph df)).2 ++ (detect_shell_chains (build_graph df)).2).
Proof.
  rewrite detect_all_patterns_accounts.
  apply Forall_forall. intros e He. apply Forall_forall. intros ρ Hρ.
  unfold combine_scores.
  apply normalize_has_reason, ring_pass_has_reason_keep.
  apply elem_of_app in He as [He | He].
  - eapply pattern_pass_has_reason_new; [left | done | done].
  - eapply pattern_pass_has_reason_new; [right; left | done | done].
Qed.

(** ** The roles found by the detectors are recorded as reasons *)

Lemma add_reason_fold_keep score reason ids accounts x ρ :
  has_reason accounts x ρ →
  has_reason (fold_left (λ sc s, add_reason s score reason sc) ids accounts) x ρ.
Proof.
  apply (fold_credit_has_reason_keep id (λ _, score) (λ _, [reason])).
Qed.

Lemma add_reason_fold_new score reason ids accounts m :
  m ∈ ids →
  has_reason (fold_left (λ sc s, add_reason s score reason sc) ids accounts)
    m reason.
Proof.
  intros Hm.
  apply (fold_credit_has_reason_new id (λ _, score) (λ _, [reason]) ids accounts m);
    [done | by apply list_elem_of_singleton].
Qed.

Section smurf_roles.
Context (fan_threshold window : Z).
Context (view : string → list Edge) (side : Edge → string).
Context (pattern : PatternType) (mk_details : string → Z → Details).
Context (hub_reason : Z → Reason) (party_reason : Reason).

Local Abbreviation step' :=
  (smurf_node fan_threshold window view side pattern mk_details
     hub_reason party_reason).
Local Abbreviation ring_of' :=
  (smurf_ring fan_threshold window view side pattern mk_details).

Local Abbreviation roles' :=
  (smurf_roles mk_details hub_reason party_reason).

Lemma smurf_node_keep st node x ρ :
  has_reason st.2 x ρ → has_reason (step' st node).2 x ρ.
Proof.
  intros Hst. unfold smurf_node. case_bool_decide; [| done].
  destruct (sliding_window _ _ _) as [[i j] |]; [| done]. simpl.
  by apply add_reason_fold_keep, credit_has_reason_keep.
Qed.

Lemma smurf_node_roles st node r :
  ring_of' node = Some r → roles' (step' st node).2 node r.
Proof.
  unfold smurf_ring, smurf_node. case_bool_decide; [| done].
  destruct (sliding_window _ _ _) as [[i j] |]; [| done].
  intros [= <-]. simpl. exists (Z.of_nat j - Z.of_nat i).
  split; [done |]. split.
  - apply add_reason_fold_keep, credit_has_reason_new, list_elem_of_singleton.
    done.
  - apply Forall_forall. intros m Hm. simpl in Hm.
    apply elem_of_elements, elem_of_union in Hm as [Hm | Hm].
    + right. by apply add_reason_fold_new, elem_of_elements.
    + left. by apply elem_of_singleton in Hm.
Qed.

Lemma smurf_fold_keep ns st x ρ :
  has_reason st.2 x ρ → has_reason (fold_left step' ns st).2 x ρ.
Proof.
  revert st. induction ns as [| n ns IH]; intros st Hst; simpl; [done |].
  by apply IH, smurf_node_keep.
Qed.

Lemma smurf_roles_keep (sc sc' : list AccountScore.t) node r :
  (∀ x ρ, has_reason sc x ρ → has_reason sc' x ρ) →
  roles' sc node r → roles' sc' node r.
Proof.
  intros Hkeep (c & Hd & Hhub & Hparties). exists c.
  split; [done |]. split; [by apply Hkeep |].
  eapply Forall_impl; [exact Hparties |]. intros m [? | ?]; [by left |].
  right. by apply Hkeep.
Qed.

Lemma smurf_fold_roles ns st n r :
  n ∈ ns → ring_of' n = Some r → roles' (fold_left step' ns st).2 n r.
Proof.
  revert st. induction ns as [| n' ns IH]; intros st Hn Hr; simpl.
  - by apply elem_of_nil in Hn.
  - apply elem_of_cons in Hn as [-> | Hn]; [| by apply IH].
    eapply smurf_roles_keep; [| by apply (smurf_node_roles st)].
    intros x ρ. apply smurf_fold_keep.
Qed.
End smurf_roles.

(** X14: detect_smurfing records the roles of every ring it reports: the
    hub of a fan-in ring has the reason of a receiver from that many
    senders and every other member that of a fan-in sender; the hub of a
    fan-out ring has the reason of a sender to that many receivers and
    every other member that of a fan-out receiver. *)
Theorem smurfing_roles_are_recorded (g : DiGraph) :
  Forall
    (λ r,
       match FraudRing.details r with
       | DetailsFanIn N c =>
           has_reason (detect_smurfing g).2 N (FanInReceiverFrom c) ∧
           Forall (λ m, m = N ∨ has_reason (detect_smurfing g).2 m FanInSender)
             (FraudRing.members r)
       | DetailsFanOut N c =>
           has_reason (detect_smurfing g).2 N (FanOutSenderTo c) ∧
           Forall (λ m, m = N ∨ has_reason (detect_smurfing g).2 m FanOutReceiver)
             (FraudRing.members r)
       | _ => True
       end)
    (detect_smurfing g).1.
Proof.
  apply Forall_forall. intros r (n & Hn & Hr)%detect_smurfing_ring_origin.
  unfold detect_smurfing, detect_smurfing_with, fan_in_node, fan_out_node.
  destruct Hr as [Hr | Hr].
  - pose proof (smurf_fold_roles 10 (timedelta_hours 72) (in_edges g) edge_source
                  smurfing_fan_in DetailsFanIn FanInReceiverFrom FanInSender
                  (nodes g) ([], []) n r Hn Hr) as Hroles.
    eapply smurf_roles_keep in Hroles; [| intros x ρ; apply smurf_fold_keep].
    destruct Hroles as (c & -> & Hhub & Hparties). split; [exact Hhub | exact Hparties].
  - edestruct (smurf_fold_roles 10 (timedelta_hours 72) (out_edges g) edge_target
                 smurfing_fan_out DetailsFanOut FanOutSenderTo FanOutReceiver
                 (nodes g)) as (c & -> & Hhub & Hparties); [exact Hn | exact Hr |].
    split; [exact Hhub | exact Hparties].
Qed.

Lemma shell_visit_keep min_hops low path st x ρ :
  has_reason (shell_scores st) x ρ →
  has_reason (shell_scores (shell_visit min_hops low path st)) x ρ.
Proof.
  intros Hst.
  destruct (shell_visit_inv min_hops low path st) as [-> | (_ & _ & _ & _ & _ & ->)];
    [done |].
  simpl. by apply credit_has_reason_keep, credit_has_reason_keep, add_reason_fold_keep.
Qed.

(** X15: detect_shell_chains records the roles of every chain it
    reports: the first node of the path has the reason of an originator,
    the last that of a destination, and every node in between that of a
    low-activity intermediary. *)
Theorem shell_roles_are_recorded (g : DiGraph) :
  Forall
    (λ r,
       ∀ path intermediates,
         FraudRing.details r = DetailsShell path intermediates →
         has_reason (detect_shell_chains g).2 (path_first path) ShellOriginator ∧
         has_reason (detect_shell_chains g).2 (path_last path) ShellDestination ∧
         Forall (λ m, has_reason (detect_shell_chains g).2 m ShellIntermediary)
           intermediates)
    (detect_shell_chains g).1.
Proof.
  unfold detect_shell_chains, detect_shell_chains_with. cbv zeta. cbn [fst snd].
  set (low := low_activity_nodes 3 g).
  set (roles := λ (sc : list AccountScore.t) (r : FraudRing.t),
         ∀ path intermediates,
           FraudRing.details r = DetailsShell path intermediates →
           has_reason sc (path_first path) ShellOriginator ∧
           has_reason sc (path_last path) ShellDestination ∧
           Forall (λ m, has_reason sc m ShellIntermediary) intermediates).
  apply (detect_shell_fold_preserves 3 6 low g
           (λ st, Forall (roles (shell_scores st)) (shell_rings st)) (λ _, True));
    [| done | done | constructor].
  intros path st _ Hst.
  destruct (shell_visit_inv 3 low path st) as [-> | (_ & _ & _ & _ & _ & Hemit)];
    [done |].
  assert (∀ x ρ, has_reason (shell_scores st) x ρ →
                 has_reason (shell_scores (shell_visit 3 low path st)) x ρ) as Hkeep.
  { intros x ρ. apply shell_visit_keep. }
  rewrite Hemit in *. simpl in *. apply Forall_app. split.
  - eapply Forall_impl; [exact Hst |]. intros r Hr p ints Hd.
    destruct (Hr p ints Hd) as (Hf & Hl & Hi).
    split; [by apply Hkeep | split; [by apply Hkeep |]].
    eapply Forall_impl; [exact Hi |]. intros m. apply Hkeep.
  - apply Forall_singleton. intros p ints [= <- <-]. split; [| split].
    + apply credit_has_reason_keep, credit_has_reason_new, list_elem_of_singleton.
      done.
    + apply credit_has_reason_new, list_elem_of_singleton. done.
    + apply Forall_forall. intros m Hm.
      by apply credit_has_reason_keep, credit_has_reason_keep, add_reason_fold_new.
Qed.

(** ** combine_scores: the normalised list *)

Lemma Qltb_le a b : (b <= a)%Q → Qltb a b = false.
Proof. unfold Qltb. intros H%Qle_bool_iff. by rewrite H. Qed.


Lemma sorted_by_score l :
  StronglySorted
    (λ a b, (AccountScore.risk_score b <= AccountScore.risk_score a)%Q)
    (sorted_desc
       (λ a b, Qltb (AccountScore.risk_score a) (AccountScore.risk_score b)) l).
Proof.
  eapply StronglySorted_weaken; [| apply sorted_desc_sorted].
  - intros a b. apply Qltb_false.
  - intros a b Hab%Qltb_true. by apply Qltb_le, Qlt_le_weak.
  - intros a b c Hab%Qltb_false Hbc%Qltb_false. apply Qltb_le.
    by eapply Qle_trans.
Qed.

Lemma normalize_sorted combined :
  Forall (λ a, 0 <= AccountScore.risk_score a)%Q combined →
  StronglySorted
    (λ a b, (AccountScore.risk_score b <= AccountScore.risk_score a)%Q)
    (normalize combined).
Proof.
  intros Hpos. unfold normalize. destruct combined as [| first others]; [constructor |].
  destruct (Qle_bool (max_risk first others) 0) eqn:Hmax; [| apply sorted_by_score].
  apply Qle_bool_iff in Hmax.
  assert (Forall (λ a, (0 <= AccountScore.risk_score a)%Q ∧
                       (AccountScore.risk_score a <= 0)%Q) (first :: others)) as Hzero.
  { rewrite Forall_forall in Hpos. apply Forall_forall. intros a Ha.
    split; [by apply Hpos |].
    eapply Qle_trans; [by apply max_risk_upper | done]. }
  clear Hmax Hpos. induction Hzero as [| a l [Ha0 Ha1] Hl IH]; constructor; [done |].
  eapply Forall_impl; [exact Hl |]. intros b [Hb0 Hb1]. by eapply Qle_trans.
Qed.

Lemma combined_nonneg g rings ps :
  Forall (ring_ok (λ _, True)) rings →
  Forall (Forall (score_ok (λ _, True))) ps →
  Forall (λ a, 0 <= AccountScore.risk_score a)%Q
    (ring_pass rings (pattern_pass ps (centrality_pass g []))).
Proof.
  intros Hr Hp.
  assert (Forall (score_ok (λ _, True))
            (ring_pass rings (pattern_pass ps (centrality_pass g [])))) as Hok.
  { apply ring_pass_ok; [done |]. apply pattern_pass_ok; [done |].
    by apply centrality_pass_ok. }
  eapply Forall_impl; [exact Hok |]. by intros a [? _].
Qed.

Lemma document_inputs_ok simple_cycles df :
  Forall (ring_ok (λ _, True))
    (assign_ring_ids (all_rings simple_cycles (build_graph df))) ∧
  Forall (Forall (score_ok (λ _, True)))
    [(detect_smurfing (build_graph df)).2; (detect_shell_chains (build_graph df)).2].
Proof.
  destruct (detectors_ok (λ _, True) simple_cycles (build_graph df))
    as (Hrings & Hsmurf & Hshell); [done | done | |].
  { intros c _. by apply Forall_forall. }
  split; [| by repeat constructor].
  eapply relabelled_ok; [apply assign_ring_ids_relabelled | done].
Qed.

(** X16: the accounts of the output are in descending order of risk
    score, also when the largest combined score is not positive and the
    list is returned unsorted: all scores are 0 then. *)
Theorem accounts_in_descending_score_order
    (simple_cycles : DiGraph → list (list string)) (df : list Transaction) :
  StronglySorted
    (λ a b, (AccountScore.risk_score b <= AccountScore.risk_score a)%Q)
    (accounts (detect_all_patterns simple_cycles df)).
Proof.
  rewrite detect_all_patterns_accounts. unfold combine_scores.
  destruct (document_inputs_ok simple_cycles df) as [Hrings Hev].
  by apply normalize_sorted, combined_nonneg.
Qed.

(** ** combine_scores: the top score *)

Lemma max_risk_attained first others :
  ∃ a, a ∈ first :: others ∧ AccountScore.risk_score a = max_risk first others.
Proof.
  unfold max_risk.
  assert (∀ best,
            let m := fold_left
                       (λ best acc,
                          if Qltb best (AccountScore.risk_score acc)
                          then AccountScore.risk_score acc else best)
                       others best in
            m = best ∨ ∃ x, x ∈ others ∧ AccountScore.risk_score x = m) as Hgen.
  { induction others as [| b others IH]; intros best; simpl; [by left |].
    destruct (IH (if Qltb best (AccountScore.risk_score b)
                  then AccountScore.risk_score b else best)) as [Heq | (x & Hx & Heq)].
    - rewrite Heq. destruct (Qltb best (AccountScore.risk_score b)); [| by left].
      right. exists b. split; [left | done].
    - right. exists x. split; [by right | done]. }
  destruct (Hgen (AccountScore.risk_score first)) as [Heq | (x & Hx & Heq)].
  - exists first. split; [left | done].
  - exists x. split; [by right | done].
Qed.

Lemma round_half_even_comp (x y : Q) :
  (x == y)%Q → round_half_even x = round_half_even y.
Proof.
  intros Hxy. unfold round_half_even. cbv zeta.
  assert (Qfloor x = Qfloor y) as Hf by (by apply Qfloor_comp).
  assert ((x - inject_Z (Qfloor x) ?= 1 # 2)%Q = (y - inject_Z (Qfloor y) ?= 1 # 2)%Q)
    as Hc.
  { apply Qcompare_comp; [| reflexivity]. rewrite Hf.
    unfold Qminus. apply Qplus_comp; [exact Hxy | reflexivity]. }
  by rewrite Hc, Hf.
Qed.

Lemma round2_comp (x y : Q) : (x == y)%Q → round2 x = round2 y.
Proof.
  intros Hxy. unfold round2.
  rewrite (round_half_even_comp (x * 100) (y * 100)); [done |].
  apply Qmult_comp; [exact Hxy | reflexivity].
Qed.

Lemma rescale_top max_score a :
  (0 < max_score)%Q → (AccountScore.risk_score a == max_score)%Q →
  (AccountScore.risk_score (rescale max_score a) == 100)%Q.
Proof.
  intros Hpos Heq. unfold rescale. simpl.
  assert (AccountScore.risk_score a / max_score * 100 == 100)%Q as Hratio.
  { rewrite Heq. field. intros H0. rewrite H0 in Hpos. by apply Qlt_irrefl in Hpos. }
  rewrite (round2_comp _ 100); [reflexivity |].
  rewrite Hratio. apply Q.min_l. apply Qle_refl.
Qed.

Lemma normalize_top combined a :
  Forall (λ a, 0 <= AccountScore.risk_score a)%Q combined →
  a ∈ combined → (0 < AccountScore.risk_score a)%Q →
  ∃ top rest, normalize combined = top :: rest ∧
              (AccountScore.risk_score top == 100)%Q.
Proof.
  intros Hnonneg Ha Hpos. unfold normalize.
  destruct combined as [| first others]; [by apply elem_of_nil in Ha |].
  assert (0 < max_risk first others)%Q as Hmax.
  { eapply Qlt_le_trans; [exact Hpos | by apply max_risk_upper]. }
  destruct (Qle_bool (max_risk first others) 0) eqn:Hle.
  { apply Qle_bool_iff in Hle. exfalso. eapply Qlt_not_le; [exact Hmax | done]. }
  set (m := max_risk first others) in *.
  set (sorted := sorted_desc _ _).
  assert (sorted ≡ₚ rescale m <$> first :: others) as Hperm
    by apply sorted_desc_Permutation.
  pose proof (sorted_by_score (rescale m <$> first :: others)) as Hsorted.
  fold sorted in Hsorted.
  destruct (max_risk_attained first others) as (b & Hb & Hbm). fold m in Hbm.
  assert (rescale m b ∈ sorted) as Hin.
  { rewrite Hperm. by apply list_elem_of_fmap_2. }
  assert (AccountScore.risk_score (rescale m b) == 100)%Q as Hb100.
  { apply rescale_top; [done | by rewrite Hbm]. }
  destruct sorted as [| top rest]; [by apply elem_of_nil in Hin |].
  exists top, rest. split; [done |].
  assert (AccountScore.risk_score top <= 100)%Q as Hle100.
  { assert (top ∈ rescale m <$> first :: others) as Htop
      by (rewrite <- Hperm; left).
    apply list_elem_of_fmap in Htop as (c & -> & Hc).
    rewrite Forall_forall in Hnonneg.
    by apply (rescale_in_range m c Hmax (Hnonneg c Hc)). }
  apply Qle_antisym; [done |].
  apply elem_of_cons in Hin as [<- | Hin]; [by rewrite Hb100 |].
  apply StronglySorted_inv in Hsorted as [_ Hall].
  rewrite Forall_forall in Hall. rewrite <- Hb100. by apply Hall.
Qed.

Lemma credit_keeps_positive acc_id score rs accounts :
  (0 <= score)%Q →
  (∃ a, a ∈ accounts ∧ (0 < AccountScore.risk_score a)%Q) →
  ∃ a, a ∈ credit acc_id score rs accounts ∧ (0 < AccountScore.risk_score a)%Q.
Proof.
  intros Hs (a & Ha & Hpos). unfold credit.
  assert (a ∈ ensure acc_id accounts) as Hens.
  { unfold ensure. case_decide; [done |]. apply elem_of_app. by left. }
  eexists. split; [by apply list_elem_of_fmap_2 |]. simpl.
  case_decide; simpl; [| done].
  eapply Qlt_le_trans; [exact Hpos |].
  rewrite <- (Qplus_0_r (AccountScore.risk_score a)) at 1.
  apply Qplus_le_compat; [apply Qle_refl | done].
Qed.

Lemma fold_credit_keeps_positive {A} (key : A → string) (amt : A → Q)
    (rs : A → list Reason) xs l :
  Forall (λ a, 0 <= amt a)%Q xs →
  (∃ a, a ∈ l ∧ (0 < AccountScore.risk_score a)%Q) →
  ∃ a, a ∈ fold_left (λ l a, credit (key a) (amt a) (rs a) l) xs l ∧
       (0 < AccountScore.risk_score a)%Q.
Proof.
  intros Hxs. revert l. induction Hxs as [| x xs Hx Hxs IH]; intros l Hl; simpl;
    [done |].
  by apply IH, credit_keeps_positive.
Qed.

Lemma pattern_pass_keeps_positive ps l :
  Forall (Forall (score_ok (λ _, True))) ps →
  (∃ a, a ∈ l ∧ (0 < AccountScore.risk_score a)%Q) →
  ∃ a, a ∈ pattern_pass ps l ∧ (0 < AccountScore.risk_score a)%Q.
Proof.
  unfold pattern_pass. intros Hps. revert l.
  induction Hps as [| p ps Hp Hps IH]; intros l Hl; simpl; [done |].
  apply IH.
  apply (fold_credit_keeps_positive AccountScore.account_id AccountScore.risk_score
           AccountScore.reasons); [| done].
  eapply Forall_impl; [exact Hp |]. by intros a [? _].
Qed.

Lemma ring_pass_keeps_positive rings l :
  Forall (ring_ok (λ _, True)) rings →
  (∃ a, a ∈ l ∧ (0 < AccountScore.risk_score a)%Q) →
  ∃ a, a ∈ ring_pass rings l ∧ (0 < AccountScore.risk_score a)%Q.
Proof.
  unfold ring_pass. intros Hrs. revert l.
  induction Hrs as [| r rings [Hrisk _] Hrs IH]; intros l Hl; simpl; [done |].
  apply IH.
  apply (fold_credit_keeps_positive id
           (λ _, inject_Z (FraudRing.risk_score r) * 0.3)%Q
           (λ _, [MemberOfRing (FraudRing.pattern_type r)])); [| done].
  apply Forall_forall. intros m _.
  apply Qmult_le_0_compat; [| done].
  change 0%Q with (inject_Z 0). by rewrite <- Zle_Qle.
Qed.

Lemma centrality_pass_nil g :
  NoDup (nodes g) →
  centrality_pass g [] =
  (λ n, AccountScore.mk n (0 + centrality g n * 20)
          (if Qltb 0 (centrality g n)
           then [HighDegreeCentrality (centrality g n)] else []))
  <$> nodes g.
Proof.
  intros Hnd. rewrite centrality_pass_fold.
  rewrite (fold_credit_fresh (centrality g)
             (λ c, if Qltb 0 c then [HighDegreeCentrality c] else [])
             (nodes g) [] Hnd); [done |].
  intros n _. apply not_elem_of_nil.
Qed.

Lemma build_graph_centrality_positive df n :
  n ∈ nodes (build_graph df) → (0 < centrality (build_graph df) n)%Q.
Proof.
  intros Hn. unfold centrality.
  destruct (order (build_graph df) <=? 1) eqn:Hord; [done |].
  apply Z.leb_gt in Hord.
  pose proof (build_graph_nodes_active df n Hn) as Hact.
  apply Qmult_lt_0_compat.
  - change 0%Q with (inject_Z 0). rewrite <- Zlt_Qlt. lia.
  - assert (1 < inject_Z (order (build_graph df)))%Q as Hone.
    { change 1%Q with (inject_Z 1). rewrite <- Zlt_Qlt. lia. }
    apply Qlt_shift_div_l; [lra | rewrite Qmult_0_l; done].
Qed.

Lemma Qltb_lt a b : (a < b)%Q → Qltb a b = true.
Proof.
  intros Hlt. destruct (Qltb a b) eqn:Hb; [done |].
  apply Qltb_false in Hb. exfalso. by eapply Qlt_not_le.
Qed.

Lemma document_combined_positive simple_cycles df :
  df ≠ [] →
  ∃ a,
    a ∈ ring_pass (assign_ring_ids (all_rings simple_cycles (build_graph df)))
          (pattern_pass
             [(detect_smurfing (build_graph df)).2;
              (detect_shell_chains (build_graph df)).2]
             (centrality_pass (build_graph df) [])) ∧
    (0 < AccountScore.risk_score a)%Q.
Proof.
  intros Hdf.
  destruct (document_inputs_ok simple_cycles df) as [Hrings Hev].
  set (g := build_graph df) in *.
  assert (∃ a, a ∈ centrality_pass g [] ∧ (0 < AccountScore.risk_score a)%Q)
    as Hbase.
  { destruct df as [| row df]; [done |].
    assert (sender_id row ∈ nodes g) as Hn.
    { apply build_graph_nodes. left. rewrite fmap_cons. left. }
    rewrite centrality_pass_nil by apply (wf_nodes _ (build_graph_wf _)).
    eexists. split; [by apply list_elem_of_fmap_2 |]. simpl.
    rewrite Qplus_0_l.
    apply Qmult_lt_0_compat; [by apply build_graph_centrality_positive | done]. }
  apply (pattern_pass_keeps_positive _ _ Hev) in Hbase.
  by apply (ring_pass_keeps_positive _ _ Hrings) in Hbase.
Qed.

(** X17: for a batch with at least one row the first account of the
    output has the score 100: the largest combined score is positive,
    because every node has positive centrality, so the branch that
    returns the scores as they are is never taken, and the largest
    score is rescaled to 100. *)
Theorem top_account_scores_100
    (simple_cycles : DiGraph → list (list string)) (df : list Transaction) :
  df ≠ [] →
  ∃ top rest,
    accounts (detect_all_patterns simple_cycles df) = top :: rest ∧
    (AccountScore.risk_score top == 100)%Q.
Proof.
  intros Hdf. rewrite detect_all_patterns_accounts. unfold combine_scores.
  destruct (document_inputs_ok simple_cycles df) as [Hrings Hev].
  destruct (document_combined_positive simple_cycles df Hdf) as (a & Ha & Hpos).
  set (g := build_graph df) in *.
  eapply normalize_top; [by apply combined_nonneg | exact Ha | exact Hpos].
Qed.

Lemma top_account_scores_100_witness :
  ∃ top rest,
    accounts (detect_all_patterns dfs_simple_cycles triangle) = top :: rest ∧
    (AccountScore.risk_score top == 100)%Q.
Proof.
  apply (top_account_scores_100 dfs_simple_cycles triangle). discriminate.
Defined.


(** ** detect_all_patterns: the node records *)

Lemma detect_all_patterns_graph_nodes simple_cycles df :
  graph_nodes (detect_all_patterns simple_cycles df) =
  node_record (accounts (detect_all_patterns simple_cycles df))
    <$> nodes (build_graph df).
Proof.
  unfold detect_all_patterns.
  destruct (detect_smurfing _), (detect_shell_chains _). done.
Qed.

(** X19: graph.nodes lists the nodes of the graph in node order, and
    the risk score of each record is the score of the account of that
    node in the output: the account always exists, so the default 0.0 is
    never used. *)
Theorem graph_nodes_carry_the_account_scores
    (simple_cycles : DiGraph → list (list string)) (df : list Transaction) :
  node_id <$> graph_nodes (detect_all_patterns simple_cycles df) =
    nodes (build_graph df) ∧
  Forall
    (λ nr, ∃ a,
       find_account (node_id nr) (accounts (detect_all_patterns simple_cycles df))
         = Some a ∧
       node_risk_score nr = AccountScore.risk_score a)
    (graph_nodes (detect_all_patterns simple_cycles df)).
Proof.
  rewrite detect_all_patterns_graph_nodes. split.
  - rewrite <- list_fmap_compose. apply list_fmap_id.
  - apply Forall_fmap, Forall_forall. intros n Hn. simpl.
    assert (n ∈ account_ids (accounts (detect_all_patterns simple_cycles df)))
      as Hin.
    { rewrite detect_all_patterns_accounts. apply combine_scores_ids. by left. }
    destruct (find_account_is_Some _ _ Hin) as [a Ha].
    exists a. split; [done |]. unfold find_account in Ha. by rewrite Ha.
Qed.

(** ** combine_scores: rescaling keeps the ranking *)

Lemma round_half_even_mono (x y : Q) :
  (x <= y)%Q → round_half_even x ≤ round_half_even y.
Proof.
  intros Hxy. unfold round_half_even. cbv zeta.
  pose proof (Qfloor_resp_le _ _ Hxy) as Hf.
  pose proof (Qfloor_le y) as Hfy. pose proof (Qfloor_le x) as Hfx.
  destruct (decide (Qfloor x = Qfloor y)) as [Heq | Hne].
  - rewrite <- Heq in *.
    destruct (x - inject_Z (Qfloor x) ?= 1 # 2)%Q eqn:Hcx;
      destruct (y - inject_Z (Qfloor x) ?= 1 # 2)%Q eqn:Hcy;
      try (destruct (Z.even (Qfloor x)); lia); try lia; exfalso;
      repeat match goal with
        | H : (_ ?= _)%Q = Eq |- _ => apply Qeq_alt in H
        | H : (_ ?= _)%Q = Lt |- _ => apply Qlt_alt in H
        | H : (_ ?= _)%Q = Gt |- _ => apply Qgt_alt in H
        end; lra.
  - assert (Qfloor x + 1 ≤ Qfloor y) as Hlt by lia.
    destruct (x - inject_Z (Qfloor x) ?= 1 # 2)%Q;
      destruct (y - inject_Z (Qfloor y) ?= 1 # 2)%Q;
      repeat match goal with
        | |- context [Z.even ?z] => destruct (Z.even z)
        end; lia.
Qed.

(** X20: the rescaling of combine_scores never reverses two accounts:
    for a positive largest score, the account with the smaller combined
    score gets the smaller or an equal final score. *)
Theorem rescale_keeps_the_ranking (max_score : Q) (a b : AccountScore.t) :
  (0 < max_score)%Q →
  (AccountScore.risk_score a <= AccountScore.risk_score b)%Q →
  (AccountScore.risk_score (rescale max_score a)
   <= AccountScore.risk_score (rescale max_score b))%Q.
Proof.
  intros Hmax Hab. unfold rescale, round2. simpl.
  apply Qmult_le_compat_r; [| done].
  rewrite <- Zle_Qle. apply round_half_even_mono.
  apply Qmult_le_compat_r; [| done].
  apply Q.min_le_compat_l.
  apply Qmult_le_compat_r; [| done].
  apply Qmult_le_compat_r; [done |].
  apply Qinv_le_0_compat. by apply Qlt_le_weak.
Qed.

Lemma rescale_keeps_the_ranking_witness :
  (AccountScore.risk_score
     (rescale 30 (AccountScore.mk "A" 10 []))
   <= AccountScore.risk_score
        (rescale 30 (AccountScore.mk "B" 20 [])))%Q.
Proof.
  apply (rescale_keeps_the_ranking 30); [reflexivity | discriminate].
Defined.

(** ** combine_scores: the order of the reasons *)

Lemma credit_elem acc_id score rs accounts a :
  a ∈ credit acc_id score rs accounts →
  (∃ b, b ∈ accounts ∧ AccountScore.account_id a = AccountScore.account_id b ∧
        ∃ more, AccountScore.reasons a = AccountScore.reasons b ++ more) ∨
  (AccountScore.account_id a = acc_id ∧ acc_id ∉ account_ids accounts).
Proof.
  unfold credit, ensure.
  intros (b & -> & Hb)%list_elem_of_fmap. case_decide as Hin.
  - left. exists b. split; [done |]. simpl.
    case_decide; simpl; [split; [congruence | by eexists] |].
    split; [done |]. exists []. by rewrite app_nil_r.
  - apply elem_of_app in Hb as [Hb | ->%list_elem_of_singleton].
    + left. exists b. split; [done |]. simpl.
      case_decide; simpl; [split; [congruence | by eexists] |].
      split; [done |]. exists []. by rewrite app_nil_r.
    + right. simpl. by rewrite decide_True.
Qed.

Section reasons_prefix.
Context (nodes_of_g : list string) (first_reason : string → Reason).

Local Abbreviation starts :=
  (starts_with_first_reason nodes_of_g first_reason).

Lemma credit_starts acc_id score rs l :
  starts l → starts (credit acc_id score rs l).
Proof.
  intros [Hids Hall]. split.
  - intros n Hn. apply credit_elem_ids. right. by apply Hids.
  - apply Forall_forall. intros a Ha Hnode. rewrite Forall_forall in Hall.
    destruct (credit_elem _ _ _ _ _ Ha)
      as [(b & Hb & Hid & more & Hmore) | [Hid Hfresh]].
    + rewrite Hid in Hnode |- *. destruct (Hall b Hb Hnode) as [rest Hrest].
      exists (rest ++ more). by rewrite Hmore, Hrest.
    + exfalso. apply Hfresh, Hids. by rewrite <- Hid.
Qed.

Lemma fold_credit_starts {A} (key : A → string) (amt : A → Q)
    (rs : A → list Reason) xs l :
  starts l → starts (fold_left (λ l a, credit (key a) (amt a) (rs a) l) xs l).
Proof.
  revert l. induction xs as [| x xs IH]; intros l Hl; simpl; [done |].
  by apply IH, credit_starts.
Qed.

Lemma pattern_pass_starts ps l :
  starts l → starts (pattern_pass ps l).
Proof.
  unfold pattern_pass. revert l. induction ps as [| p ps IH]; intros l Hl; simpl;
    [done |].
  by apply IH, fold_credit_starts.
Qed.

Lemma ring_pass_starts rings l :
  starts l → starts (ring_pass rings l).
Proof.
  unfold ring_pass. revert l. induction rings as [| r rings IH]; intros l Hl; simpl;
    [done |].
  by apply IH, (fold_credit_starts id).
Qed.

Lemma normalize_starts l :
  starts l → starts (normalize l).
Proof.
  intros [Hids Hall]. split.
  - intros n Hn. rewrite normalize_ids. by apply Hids.
  - unfold normalize. destruct l as [| first others]; [done |].
    destruct (Qle_bool _ _); [done |].
    rewrite sorted_desc_Permutation. apply Forall_fmap.
    eapply Forall_impl; [exact Hall |]. by intros a Ha.
Qed.
End reasons_prefix.

(** X21: in the output, the reasons of the account of every node start
    with the degree-centrality reason of that node; the reasons of the
    detectors and of the ring memberships follow it. *)
Theorem reasons_start_with_centrality
    (simple_cycles : DiGraph → list (list string)) (df : list Transaction) :
  Forall
    (λ a,
       AccountScore.account_id a ∈ nodes (build_graph df) →
       ∃ rest,
         AccountScore.reasons a =
         HighDegreeCentrality (centrality (build_graph df) (AccountScore.account_id a))
           :: rest)
    (accounts (detect_all_patterns simple_cycles df)).
Proof.
  rewrite detect_all_patterns_accounts. unfold combine_scores.
  set (g := build_graph df).
  apply (normalize_starts (nodes g) (λ n, HighDegreeCentrality (centrality g n))).
  apply ring_pass_starts, pattern_pass_starts.
  rewrite centrality_pass_nil by apply (wf_nodes _ (build_graph_wf _)).
  split.
  - intros n Hn. unfold account_ids. rewrite <- list_fmap_compose.
    by rewrite list_fmap_id.
  - apply Forall_fmap, Forall_forall. intros n Hn _. simpl.
    rewrite Qltb_lt by (by apply build_graph_centrality_positive). by eexists.
Qed.

(** ** assign_ring_ids: ties *)

(** X22: the ids are handed out along a stable sort: of two rings with
    the same risk score, the one that comes first in the list of rings
    gets the smaller number. *)
Theorem equal_scores_are_numbered_in_list_order
    (rings : list FraudRing.t) (i1 i2 : nat) (r1 r2 : FraudRing.t) :
  (i1 < i2)%nat →
  assign_ring_ids rings !! i1 = Some r1 →
  assign_ring_ids rings !! i2 = Some r2 →
  FraudRing.risk_score r1 = FraudRing.risk_score r2 →
  ∃ k1 k2, FraudRing.ring_id r1 = format_ring_id k1 ∧
           FraudRing.ring_id r2 = format_ring_id k2 ∧
           (k1 < k2)%nat.
Proof.
  intros Hi H1 H2 Hrisk.
  pose proof (Forall2_length _ _ _ (assign_ring_ids_relabelled rings)) as Hlen.
  assert (∀ i r, assign_ring_ids rings !! i = Some r →
            ∃ k r0, ranked rings !! k = Some (i, r0) ∧
                    r = FraudRing.with_ring_id (format_ring_id (S k)) r0) as Hrank.
  { intros i r Hr.
    assert (i ∈ ranked_positions rings) as [k Hk]%list_elem_of_lookup.
    { rewrite ranked_positions_Permutation, elem_of_seq.
      apply lookup_lt_Some in Hr. lia. }
    rewrite (assign_ring_ids_rank _ _ _ Hk) in Hr.
    apply fmap_Some in Hr as (r0 & Hr0 & ->).
    rewrite ranked_positions_fst, list_lookup_fmap in Hk.
    apply fmap_Some in Hk as ([i' r0'] & Hk & Hfst). simpl in Hfst. subst i'.
    pose proof (proj1 (ranked_elem _ _ _) (list_elem_of_lookup_2 _ _ _ Hk)) as Hr0'.
    rewrite Hr0 in Hr0'. injection Hr0' as <-.
    by exists k, r0. }
  destruct (Hrank _ _ H1) as (k1 & q1 & Hk1 & ->).
  destruct (Hrank _ _ H2) as (k2 & q2 & Hk2 & ->).
  simpl in Hrisk.
  exists (S k1), (S k2). split; [done | split; [done |]].
  pose proof (ranked_stable rings) as Hsorted.
  destruct (lt_eq_lt_dec k1 k2) as [[Hlt | Heq] | Hgt]; [lia | |].
  - subst k2. rewrite Hk1 in Hk2. injection Hk2 as -> _. lia.
  - destruct (StronglySorted_lookup_lt _ _ k2 k1 _ _ Hsorted Hgt Hk2 Hk1)
      as [_ Htie].
    simpl in Htie. lia.
Qed.

Lemma equal_scores_are_numbered_in_list_order_witness :
  ∃ k1 k2, format_ring_id 4 = format_ring_id k1 ∧
           format_ring_id 5 = format_ring_id k2 ∧
           (k1 < k2)%nat.
Proof.
  apply (equal_scores_are_numbered_in_list_order
           (all_rings dfs_simple_cycles (build_graph chain5)) 0 3
           (FraudRing.mk (format_ring_id 4) ["P0"; "P1"; "P2"; "P3"] shell_chain 55
              (DetailsShell ["P0"; "P1"; "P2"; "P3"] ["P1"; "P2"]))
           (FraudRing.mk (format_ring_id 5) ["P1"; "P2"; "P3"; "P4"] shell_chain 55
              (DetailsShell ["P1"; "P2"; "P3"; "P4"] ["P2"; "P3"])));
    [lia | vm_compute; reflexivity | vm_compute; reflexivity | reflexivity].
Defined.

(** ** detect_all_patterns: the score bands of the rings *)

(** X23: in the output every ring has a score and a size that fit its
    pattern: a cycle scores from 60 to 70 with 3 to 5 members, a shell
    chain from 55 to 70 with 4 to 7 members, and a smurfing ring at
    least 70, an even number, with at least 10 members. *)
Theorem ring_scores_fit_their_pattern
    (simple_cycles : DiGraph → list (list string)) (df : list Transaction) :
  Forall
    (λ r,
       let size := Z.of_nat (length (FraudRing.members r)) in
       match FraudRing.pattern_type r with
       | cycle => 60 ≤ FraudRing.risk_score r ≤ 70 ∧ 3 ≤ size ≤ 5
       | shell_chain => 55 ≤ FraudRing.risk_score r ≤ 70 ∧ 4 ≤ size ≤ 7
       | smurfing_fan_in | smurfing_fan_out =>
           70 ≤ FraudRing.risk_score r ∧ Z.even (FraudRing.risk_score r) = true ∧
           10 ≤ size
       end)
    (fraud_rings (detect_all_patterns simple_cycles df)).
Proof.
  apply Forall_forall. intros r [i Hi]%list_elem_of_lookup.
  apply fraud_rings_lookup in Hi as (r0 & Hr0 & ->).
  apply list_elem_of_lookup_2 in Hr0. cbv zeta. unfold FraudRing.with_ring_id.
  cbn [FraudRing.pattern_type FraudRing.risk_score FraudRing.members].
  assert (0 ≤ timedelta_hours 72) as Hw by done.
  unfold all_rings in Hr0. rewrite !elem_of_app in Hr0.
  destruct Hr0 as [Hr | [Hr | Hr]].
  - apply detect_cycles_shape in Hr as (-> & Hlen & _). simpl in *. lia.
  - apply detect_smurfing_ring_origin in Hr as (n & _ & [Hr | Hr]).
    + destruct (smurf_ring_members_count _ _ _ _ _ _ _ _ Hw
                  ltac:(rewrite in_edges_sources; apply NoDup_remove_dups) Hr)
        as (c & _ & -> & Hc & -> & Hlen & _).
      split; [lia | split; [| lia]].
      by rewrite (Z.mul_comm (c - 10) 2), Z.even_add_mul_2.
    + destruct (smurf_ring_members_count _ _ _ _ _ _ _ _ Hw
                  ltac:(rewrite out_edges_targets; apply NoDup_remove_dups) Hr)
        as (c & _ & -> & Hc & -> & Hlen & _).
      split; [lia | split; [| lia]].
      by rewrite (Z.mul_comm (c - 10) 2), Z.even_add_mul_2.
  - apply shell_rings_are_walks in Hr
      as (path & -> & Hnd & _ & Hhops & _ & _ & _).
    unfold shell_ring_of. simpl. rewrite dict_fromkeys_NoDup by done.
    rewrite interior_length. lia.
Qed.
